(** * Syringe simulator: sample smoothing, frame encoding and decoding

    A shallow embedding of the three programs of the repository:

    - [Sketch]: the syringe firmware (Arduino sketch with the BNO055
      orientation sensor and the plunger potentiometer): two circular
      buffers written at one shared cursor, their averages and the serial
      frame printed every cycle;
    - [Cheek]: [CheekFirmware.ino], a moving average over ten integer
      readings kept with a running total;
    - [CombinedController]: the Unity script that reads the serial frames,
      remaps the orientation and places the plunger.

    C++ [float]/[double] and C# [float] values are elements of a type [F]
    with the operations of the class [FloatOps].  Two instances are given:
    [exact] (rational arithmetic, no rounding) and [binary32] (IEEE 754
    single precision, round to nearest even, from [SpecFloat]). *)

From Stdlib Require Import ZArith QArith Qabs Qround String Ascii List Lia Permutation Bool.
From Stdlib Require Import DecimalString Lqa.
From Stdlib Require Import Floats.SpecFloat.
From stdpp Require Import base list.

Import ListNotations.
Local Open Scope Z_scope.

(** ** Numbers *)

(** The arithmetic the programs use on floating-point values.  [of_int] is
    the implicit conversion of an integer operand, [to_long] the conversion
    of a float argument to [long] (truncation towards zero), [fopp] is unary
    minus and [fltb] is [<]. *)
Class FloatOps (F : Type) := {
  of_int : Z -> F;
  fadd : F -> F -> F;
  fsub : F -> F -> F;
  fmul : F -> F -> F;
  fdiv : F -> F -> F;
  fopp : F -> F;
  fltb : F -> F -> bool;
  to_long : F -> Z
}.

(** A decimal literal [m / 10^k], such as [0.0532f] = [decimal 532 4]. *)
Definition decimal {F} `{FloatOps F} (m : Z) (k : nat) : F :=
  fdiv (of_int m) (of_int (10 ^ Z.of_nat k)).

(** Exact arithmetic: rationals kept in lowest terms, so that equal numbers
    are equal terms.  It is an idealisation of the [float] of the programs:
    nothing is rounded, and there is no infinity and no value that is no
    number.  What is proved with it is about the formulas of the programs;
    [binary32] below is the arithmetic they run in. *)
#[export] Instance exact : FloatOps Q := {
  of_int z := inject_Z z;
  fadd a b := Qred (a + b);
  fsub a b := Qred (a - b);
  fmul a b := Qred (a * b);
  fdiv a b := Qred (a / b);
  fopp a := Qred (- a);
  fltb a b := negb (Qle_bool b a);
  to_long a := Z.quot (Qnum a) (Zpos (Qden a))
}.

(** IEEE 754 binary32. *)
Module B32.
Definition prec : Z := 24.
Definition emax : Z := 128.

Definition of_Z (z : Z) : spec_float := binary_normalize prec emax z 0 false.

(** Truncation towards zero of a finite value; 0 where C++ leaves the
    conversion undefined. *)
Definition trunc (x : spec_float) : Z :=
  match x with
  | S754_finite s m e =>
      let mag := match e with
                 | Z0 => Zpos m
                 | Zpos p => Zpos m * 2 ^ Zpos p
                 | Zneg p => Zpos m / 2 ^ Zpos p
                 end in
      if s then - mag else mag
  | _ => 0
  end.

(** The rational a finite value denotes (0 for infinities and NaN). *)
Definition to_Q (x : spec_float) : Q :=
  match x with
  | S754_finite s m e =>
      let mag := match e with
                 | Z0 => inject_Z (Zpos m)
                 | Zpos p => inject_Z (Zpos m * 2 ^ Zpos p)
                 | Zneg p => Qmake (Zpos m) (2 ^ p)
                 end in
      if s then Qopp mag else mag
  | _ => 0%Q
  end.

(** Structural equality of representations. *)
Definition eqb (x y : spec_float) : bool :=
  match x, y with
  | S754_zero s, S754_zero t => Bool.eqb s t
  | S754_infinity s, S754_infinity t => Bool.eqb s t
  | S754_nan, S754_nan => true
  | S754_finite s m e, S754_finite t n f =>
      Bool.eqb s t && Pos.eqb m n && Z.eqb e f
  | _, _ => false
  end.
End B32.

#[export] Instance binary32 : FloatOps spec_float := {
  of_int := B32.of_Z;
  fadd := SFadd B32.prec B32.emax;
  fsub := SFsub B32.prec B32.emax;
  fmul := SFmul B32.prec B32.emax;
  fdiv := SFdiv B32.prec B32.emax;
  fopp := SFopp;
  fltb := SFltb;
  to_long := B32.trunc
}.

(** ** Serial text *)

Definition CR : ascii := ascii_of_nat 13.
Definition LF : ascii := ascii_of_nat 10.
(** What [Serial.println] sends after its argument. *)
Definition CRLF : string := String CR (String LF EmptyString).

(** Decimal digits of an unsigned number, as [Print::print(unsigned long)]
    sends them. *)
Definition print_unsigned (n : Z) : string :=
  NilZero.string_of_uint (N.to_uint (Z.to_N n)).

(** The formatter behind [Serial.print(double, digits)].  It is part of the
    Arduino core, not of this repository: the sketch is parametric in it. *)
Class FloatPrint (F : Type) := printFloat : F -> nat -> string.

(** An idealised formatter, on exact numbers: ["ovf"] beyond the range of
    [unsigned long], otherwise sign, integer part, a point and [digits]
    digits of the number rounded half up at the last one.  It is not the
    formatter of the Arduino core, which works in [double] and cuts where
    this one rounds (see [ArduinoPrint] below); it serves to run the sketch
    on exact numbers. *)
Module ExactPrint.
Fixpoint fraction (digits : nat) (remainder : Q) : string :=
  match digits with
  | O => EmptyString
  | S digits' =>
      let remainder := (remainder * 10)%Q in
      let toPrint := Qfloor remainder in
      (print_unsigned toPrint ++
       fraction digits' (remainder - inject_Z toPrint)%Q)%string
  end.

Fixpoint rounding (digits : nat) : Q :=
  match digits with
  | O => (1 # 2)%Q
  | S digits' => (rounding digits' / 10)%Q
  end.

Definition printFloat (number : Q) (digits : nat) : string :=
  if negb (Qle_bool number 4294967040) then "ovf"%string
  else if negb (Qle_bool (-4294967040) number) then "ovf"%string
  else
    let negative := negb (Qle_bool 0 number) in
    let number := if negative then Qopp number else number in
    let number := (number + rounding digits)%Q in
    let int_part := Qfloor number in
    let remainder := (number - inject_Z int_part)%Q in
    ((if negative then "-" else "") ++
     print_unsigned int_part ++
     (match digits with O => "" | S _ => "." end) ++
     fraction digits remainder)%string.
End ExactPrint.

#[export] Instance exact_print : FloatPrint Q := ExactPrint.printFloat.

(** IEEE 754 binary64, the [double] of the boards the sketch runs on. *)
Module B64.
Definition prec : Z := 53.
Definition emax : Z := 1024.

Definition of_Z (z : Z) : spec_float := binary_normalize prec emax z 0 false.

(** The conversion of a [float] to [double]: the same number, with the
    mantissa of a double. *)
Definition of_float (x : spec_float) : spec_float :=
  match x with
  | S754_finite s m e =>
      binary_normalize prec emax (if s then Zneg m else Zpos m) e false
  | _ => x
  end.
End B64.

(** [Print::printFloat] of the Arduino core, statement by statement, on
    doubles: ["nan"], ["inf"] and ["ovf"] for what is no number or beyond the
    range of [unsigned long]; otherwise the sign, the integer part of the
    number to which 0.5 / 10^digits (divided out in double) has been added,
    a point, and [digits] times the integer part of ten times the
    remainder. *)
Module ArduinoPrint.
Fixpoint rounding (digits : nat) : spec_float :=
  match digits with
  | O => SFdiv B64.prec B64.emax (B64.of_Z 1) (B64.of_Z 2)
  | S digits' => SFdiv B64.prec B64.emax (rounding digits') (B64.of_Z 10)
  end.

Fixpoint fraction (digits : nat) (remainder : spec_float) : string :=
  match digits with
  | O => EmptyString
  | S digits' =>
      let remainder := SFmul B64.prec B64.emax remainder (B64.of_Z 10) in
      let toPrint := B32.trunc remainder in
      (print_unsigned toPrint ++
       fraction digits'
         (SFsub B64.prec B64.emax remainder (B64.of_Z toPrint)))%string
  end.

Definition printFloat (number : spec_float) (digits : nat) : string :=
  match number with
  | S754_nan => "nan"%string
  | S754_infinity _ => "inf"%string
  | _ =>
      if SFltb (B64.of_Z 4294967040) number then "ovf"%string
      else if SFltb number (B64.of_Z (-4294967040)) then "ovf"%string
      else
        let negative := SFltb number (B64.of_Z 0) in
        let number := if negative then SFopp number else number in
        let number := SFadd B64.prec B64.emax number (rounding digits) in
        let int_part := B32.trunc number in
        let remainder :=
          SFsub B64.prec B64.emax number (B64.of_Z int_part) in
        ((if negative then "-" else "") ++
         print_unsigned int_part ++
         (match digits with O => "" | S _ => "." end) ++
         fraction digits remainder)%string
  end.
End ArduinoPrint.

(** [Serial.print(x, digits)] of the sketch for a [float] x: the value is
    passed as a double. *)
Definition core_print : FloatPrint spec_float :=
  fun x digits => ArduinoPrint.printFloat (B64.of_float x) digits.

(** A decimal digit, and a text made of decimal digits. *)
Definition is_digit (c : ascii) : bool :=
  (48 <=? nat_of_ascii c)%nat && (nat_of_ascii c <=? 57)%nat.

Fixpoint all_digits (s : string) : bool :=
  match s with
  | EmptyString => true
  | String c s' => is_digit c && all_digits s'
  end.

(** ** Arrays and circular buffers *)

Section RingDefs.
Context {A : Type}.

(** The last [n] values of [vals], preceded by the fill value where fewer
    than [n] were written. *)
Definition window (n : nat) (fill : A) (vals : list A) : list A :=
  drop (length vals) (replicate n fill ++ vals).

(** The [n] slots after writing [vals] one by one at a cursor that starts
    at 0 and wraps at [n]: the cursor stands at [length vals mod n], the
    slots before it hold the newest values and the slots from it on the
    oldest ones. *)
Definition ring (n : nat) (fill : A) (vals : list A) : list A :=
  let r := (length vals mod n)%nat in
  drop (n - r) (window n fill vals) ++ take (n - r) (window n fill vals).

(** The last [n] elements of a list. *)
Definition lastn (n : nat) (l : list A) : list A := drop (length l - n) l.

End RingDefs.

(** [a[i] = v] on an array held as a list.  The programs only store at
    indices in range (see [run_state] and [Cheek_inv_loop]); out of range
    the list is left as it is. *)
Definition store {A} (a : list A) (i : Z) (v : A) : list A :=
  <[Z.to_nat i := v]> a.

(** ** The syringe firmware *)

(** [imu::Quaternion] of the BNO055 driver: the four components [w()],
    [x()], [y()], [z()]. *)
Module imu.
Record Quaternion (F : Type) := mk { w : F; x : F; y : F; z : F }.
Arguments mk {F} _ _ _ _.
Arguments w {F} _.
Arguments x {F} _.
Arguments y {F} _.
Arguments z {F} _.
End imu.

Module Sketch.

(** Where the program counter is: before [setup], inside [loop] cycles, or
    in the [while (1);] of [setup] that nothing leaves. *)
Inductive phase := Uninitialized | Running | Fatal.

(** The two global arrays. *)
Inductive array := QuatBuffer | SensorValueBuffer.

Section Firmware.
Context {F : Type} `{FloatOps F} `{FloatPrint F}.

(** [const int windowSize = 10;] is a parameter of the model, so that the
    buffer properties are stated for every window size. *)
Variable windowSize : Z.

(** The globals of the sketch, the text sent on [Serial] so far, and a
    ghost log [stores] of every assignment to an element of one of the two
    arrays (which array, which index), in program order. *)
Record state := {
  pc : phase;
  quatBuffer : list (imu.Quaternion F);
  sensorValueBuffer : list F;
  bufferIndex : Z;
  Serial : string;
  stores : list (array * Z)
}.

Definition set_quat (i : Z) (q : imu.Quaternion F) (s : state) : state :=
  {| pc := pc s;
     quatBuffer := store (quatBuffer s) i q;
     sensorValueBuffer := sensorValueBuffer s;
     bufferIndex := bufferIndex s;
     Serial := Serial s;
     stores := stores s ++ [(QuatBuffer, i)] |}.

Definition set_sensor (i : Z) (v : F) (s : state) : state :=
  {| pc := pc s;
     quatBuffer := quatBuffer s;
     sensorValueBuffer := store (sensorValueBuffer s) i v;
     bufferIndex := bufferIndex s;
     Serial := Serial s;
     stores := stores s ++ [(SensorValueBuffer, i)] |}.

Definition set_index (i : Z) (s : state) : state :=
  {| pc := pc s;
     quatBuffer := quatBuffer s;
     sensorValueBuffer := sensorValueBuffer s;
     bufferIndex := i;
     Serial := Serial s;
     stores := stores s |}.

Definition set_pc (p : phase) (s : state) : state :=
  {| pc := p;
     quatBuffer := quatBuffer s;
     sensorValueBuffer := sensorValueBuffer s;
     bufferIndex := bufferIndex s;
     Serial := Serial s;
     stores := stores s |}.

(** [Serial.print(text)]. *)
Definition Serial_print (text : string) (s : state) : state :=
  {| pc := pc s;
     quatBuffer := quatBuffer s;
     sensorValueBuffer := sensorValueBuffer s;
     bufferIndex := bufferIndex s;
     Serial := (Serial s ++ text)%string;
     stores := stores s |}.

Definition Serial_println (text : string) (s : state) : state :=
  Serial_print CRLF (Serial_print text s).

(** [Serial.print(value, digits)] and [Serial.println(value)], whose
    number of digits defaults to 2. *)
Definition Serial_print_float (value : F) (digits : nat) (s : state) : state :=
  Serial_print (printFloat value digits) s.

Definition Serial_println_float (value : F) (s : state) : state :=
  Serial_print CRLF (Serial_print_float value 2 s).

(** The indices [0 .. windowSize - 1] a [for] loop over a buffer visits. *)
Definition slots : list nat := seq 0 (Z.to_nat windowSize).

(** [imu::Quaternion(1, 0, 0, 0)], which is also what the default
    constructor builds. *)
Definition identity : imu.Quaternion F :=
  imu.mk (of_int 1) (of_int 0) (of_int 0) (of_int 0).

(** The state at reset: zero-initialised globals, default-constructed
    quaternions, nothing sent. *)
Definition reset : state :=
  {| pc := Uninitialized;
     quatBuffer := replicate (Z.to_nat windowSize) identity;
     sensorValueBuffer := replicate (Z.to_nat windowSize) (of_int 0);
     bufferIndex := 0;
     Serial := EmptyString;
     stores := [] |}.

(** [setup()].  [begin] is what [bno.begin()] returns.  When it is false
    the sketch prints its complaint and stays in [while (1);]: the phase
    becomes [Fatal] and the buffer initialisation is not reached.  The wait
    for the host, [while (!Serial) delay(10);], and the two [delay]s change
    nothing of the state and are left out. *)
Definition setup (begin : bool) (s : state) : state :=
  let s := Serial_println "Orientation Sensor Test" s in
  let s := Serial_println "" s in
  if negb begin then
    set_pc Fatal
      (Serial_print
         "Ooops, no BNO055 detected ... Check your wiring or I2C ADDR!" s)
  else
    let s :=
      fold_left
        (fun s i =>
           set_sensor (Z.of_nat i) (of_int 0)
             (set_quat (Z.of_nat i) identity s))
        slots s in
    set_pc Running s.

(** [averageQuat()]: four sums over the slots, each divided by the window
    size. *)
Definition averageQuat (s : state) : imu.Quaternion F :=
  let '(sumW, sumX, sumY, sumZ) :=
    fold_left
      (fun '(sumW, sumX, sumY, sumZ) i =>
         match quatBuffer s !! i with
         | Some q =>
             (fadd sumW (imu.w q), fadd sumX (imu.x q),
              fadd sumY (imu.y q), fadd sumZ (imu.z q))
         | None => (sumW, sumX, sumY, sumZ)
         end)
      slots (of_int 0, of_int 0, of_int 0, of_int 0) in
  imu.mk (fdiv sumW (of_int windowSize)) (fdiv sumX (of_int windowSize))
         (fdiv sumY (of_int windowSize)) (fdiv sumZ (of_int windowSize)).

(** [averageSensor()]. *)
Definition averageSensor (s : state) : F :=
  let sum :=
    fold_left
      (fun sum i =>
         match sensorValueBuffer s !! i with
         | Some v => fadd sum v
         | None => sum
         end)
      slots (of_int 0) in
  fdiv sum (of_int windowSize).

(** [printQuaternion(quat, sensorValue)]. *)
Definition printQuaternion (quat : imu.Quaternion F) (sensorValue : F)
    (s : state) : state :=
  let s := Serial_print "Quat W:" s in
  let s := Serial_print_float (imu.w quat) 4 s in
  let s := Serial_print ", X:" s in
  let s := Serial_print_float (imu.x quat) 4 s in
  let s := Serial_print ", Y:" s in
  let s := Serial_print_float (imu.y quat) 4 s in
  let s := Serial_print ", Z:" s in
  let s := Serial_print_float (imu.z quat) 4 s in
  let s := Serial_print "," s in
  Serial_println_float sensorValue s.

(** The scaling of the raw potentiometer reading in [loop]:
    [rawSensorValue / 4095 * -1 + 1]. *)
Definition normalize (raw : Z) : F :=
  let rawSensorValue := of_int raw in
  fadd (fmul (fdiv rawSensorValue (of_int 4095)) (of_int (-1))) (of_int 1).

(** What one cycle reads: [bno.getQuat()] and [analogRead(A0)]. *)
Definition sample : Type := imu.Quaternion F * Z.

(** [loop()]. *)
Definition loop (input : sample) (s : state) : state :=
  let rawQuat := fst input in
  let rawSensorValue := normalize (snd input) in
  let s := set_quat (bufferIndex s) rawQuat s in
  let s := set_sensor (bufferIndex s) rawSensorValue s in
  let s := set_index (Z.rem (bufferIndex s + 1) windowSize) s in
  let avgQuat := averageQuat s in
  let avgSensorValue := averageSensor s in
  printQuaternion avgQuat avgSensorValue s.

(** The Arduino runtime calls [setup] once and then [loop] for ever; a
    sketch that is in [while (1);] never returns to it. *)
Definition cycle (s : state) (input : sample) : state :=
  match pc s with
  | Running => loop input s
  | _ => s
  end.

Definition run (begin : bool) (inputs : list sample) : state :=
  fold_left cycle inputs (setup begin reset).

(** The frame of section 4.5 of the specification, as one string. *)
Definition frame (quat : imu.Quaternion F) (scalar : F) : string :=
  ("Quat W:" ++ printFloat (imu.w quat) 4 ++
   ", X:" ++ printFloat (imu.x quat) 4 ++
   ", Y:" ++ printFloat (imu.y quat) 4 ++
   ", Z:" ++ printFloat (imu.z quat) 4 ++
   "," ++ printFloat scalar 2 ++ CRLF)%string.

(** The arithmetic mean of a list, summed from its head. *)
Definition mean (l : list F) : F :=
  fdiv (fold_left fadd l (of_int 0)) (of_int (Z.of_nat (length l))).

(** The text [setup] sends before it looks for the sensor. *)
Definition banner : string :=
  ("Orientation Sensor Test" ++ CRLF ++ CRLF)%string.

Definition complaint : string :=
  "Ooops, no BNO055 detected ... Check your wiring or I2C ADDR!".

(** The stores of the initialisation loop of [setup]. *)
Definition init_stores : list (array * Z) :=
  flat_map
    (fun i => [(QuatBuffer, Z.of_nat i);
               (SensorValueBuffer, Z.of_nat i)])
    slots.

(** The values the first cycles write, oldest first. *)
Definition quats (inputs : list sample) : list (imu.Quaternion F) :=
  map fst inputs.

Definition scalars (inputs : list sample) : list F :=
  map (fun input => normalize (snd input)) inputs.

(** The stores of cycles [0 .. C - 1] when each writes both buffers at
    [c mod windowSize]. *)
Definition trajectory (C : nat) : list (array * Z) :=
  flat_map
    (fun c => [(QuatBuffer, Z.of_nat c mod windowSize);
               (SensorValueBuffer, Z.of_nat c mod windowSize)])
    (seq 0 C).

(** The text sent: the banner, then one frame per cycle. *)
Definition frames (inputs : list sample) : list string :=
  map (fun c =>
         let s := run true (take c inputs) in
         frame (averageQuat s) (averageSensor s))
      (seq 1 (length inputs)).

(** The indices at which a log stores into one array, in order. *)
Definition writes_to (a : array) (log : list (array * Z)) : list Z :=
  flat_map
    (fun e =>
       match a, fst e with
       | QuatBuffer, QuatBuffer
       | SensorValueBuffer, SensorValueBuffer => [snd e]
       | _, _ => []
       end)
    log.

End Firmware.
End Sketch.

(** ** The cheek firmware *)

Module Cheek.

(** [map] and [constrain] of the Arduino core, on [long] values: linear
    re-mapping with the truncating division of C, and clamping. *)
Definition map (x in_min in_max out_min out_max : Z) : Z :=
  Z.quot ((x - in_min) * (out_max - out_min)) (in_max - in_min) + out_min.

Definition constrain (amt low high : Z) : Z :=
  if amt <? low then low else if high <? amt then high else amt.

Definition numSamples : Z := 10.

Section Firmware.
Context {F : Type} `{FloatOps F} `{FloatPrint F}.

(** The globals of the sketch and the text sent on [Serial]. *)
Record state := {
  readings : list Z;
  readIndex : Z;
  total : F;
  average : F;
  Serial : string
}.

(** Globals are zero-initialised. *)
Definition reset : state :=
  {| readings := replicate (Z.to_nat numSamples) 0;
     readIndex := 0;
     total := of_int 0;
     average := of_int 0;
     Serial := EmptyString |}.

(** [readings[i]] as an rvalue. *)
Definition reading (a : list Z) (i : Z) : Z := nth (Z.to_nat i) a 0.

(** [loop()], given what [analogRead(A7)] returns. *)
Definition loop (s : state) (analogRead : Z) : state :=
  let val := of_int analogRead in
  let total := fsub (total s) (of_int (reading (readings s) (readIndex s))) in
  let readings :=
    store (readings s) (readIndex s)
      (constrain (map (to_long val) 250 100 0 100) 0 100) in
  let total := fadd total (of_int (reading readings (readIndex s))) in
  let readIndex := readIndex s + 1 in
  let readIndex := if numSamples <=? readIndex then 0 else readIndex in
  let average := fdiv total (of_int numSamples) in
  {| readings := readings;
     readIndex := readIndex;
     total := total;
     average := average;
     Serial := (Serial s ++ "Cheek : " ++ printFloat average 2 ++ CRLF)%string |}.

Definition run (inputs : list Z) : state := fold_left loop inputs reset.

(** The average recomputed from scratch over the slots, the way
    [averageSensor] of the syringe firmware scans its buffer. *)
Definition rescan (a : list Z) : F :=
  fdiv
    (fold_left
       (fun sum i =>
          match a !! i with
          | Some v => fadd sum (of_int v)
          | None => sum
          end)
       (seq 0 (Z.to_nat numSamples)) (of_int 0))
    (of_int numSamples).

End Firmware.
End Cheek.

(** *** Notions for its properties *)

(** The sum of the readings, and the [len] integers from [lo] on. *)
Fixpoint Zsum (l : list Z) : Z :=
  match l with
  | [] => 0
  | v :: l' => v + Zsum l'
  end.

Definition range (lo : Z) (len : nat) : list Z :=
  map (fun i => lo + Z.of_nat i) (seq 0 len).

(** A reading on the scale of [constrain]. *)
Definition in_scale (v : Z) : Prop := 0 <= v <= 100.

(** What holds between cycles: ten slots, a cursor among them, readings on
    the scale 0 .. 100, and a total that is their sum. *)
Definition Cheek_inv (s : @Cheek.state spec_float) : Prop :=
  length (Cheek.readings s) = 10%nat
  /\ 0 <= Cheek.readIndex s < 10
  /\ Forall in_scale (Cheek.readings s)
  /\ Cheek.total s = B32.of_Z (Zsum (Cheek.readings s)).

(** The reading a cycle stores. *)
Definition mapped (analogRead : Z) : Z :=
  Cheek.constrain (Cheek.map (to_long (of_int analogRead : spec_float)) 250 100 0 100) 0 100.

(** Relative distance of two binary32 values, as rationals. *)
Definition within (tolerance : Q) (a b : spec_float) : Prop :=
  (Qabs (B32.to_Q a - B32.to_Q b) <= tolerance * Qabs (B32.to_Q b))%Q.

(** ** The Unity controller *)

(** [Quaternion] and [Vector3] of Unity, with their fields. *)
Module UnityEngine.
Module Quaternion.
Record t (F : Type) := mk { x : F; y : F; z : F; w : F }.
Arguments mk {F} _ _ _ _.
Arguments x {F} _.
Arguments y {F} _.
Arguments z {F} _.
Arguments w {F} _.
End Quaternion.
Module Vector3.
Record t (F : Type) := mk { x : F; y : F; z : F }.
Arguments mk {F} _ _ _.
Arguments x {F} _.
Arguments y {F} _.
Arguments z {F} _.
End Vector3.
End UnityEngine.

Module CombinedController.

(** A value, or the message of the exception thrown instead. *)
Inductive result (A : Type) := Ok (a : A) | Throw (Message : string).
Arguments Ok {A} _.
Arguments Throw {A} _.

(** [float.Parse] belongs to the .NET runtime: the controller is parametric
    in it. *)
Class FloatParse (F : Type) := float_Parse : string -> result F.

(** [s.Split(separator)]: the fields between the separators, at least one. *)
Fixpoint Split (separator : ascii) (s : string) : list string :=
  match s with
  | EmptyString => [EmptyString]
  | String c s' =>
      if Ascii.eqb c separator then EmptyString :: Split separator s'
      else
        match Split separator s' with
        | [] => [String c EmptyString]
        | field :: fields => String c field :: fields
        end
  end.

(** [s.StartsWith(value)], as the comparison of the leading characters. *)
Definition StartsWith (s value : string) : bool := String.prefix value s.

Definition comma : ascii := ascii_of_nat 44.
Definition colon : ascii := ascii_of_nat 58.

Section Controller.
Context {F : Type} `{FloatOps F} `{FloatParse F}.

(** What the script changes: the rotation of the syringe, the position of
    the plunger, and the messages given to [Debug.LogError]. *)
Record scene := {
  targetObject_localRotation : UnityEngine.Quaternion.t F;
  PlungerControl_localPosition : UnityEngine.Vector3.t F;
  LogError : list string
}.

(** Statements of a [try] block: each runs on the scene and either goes on
    with a value or throws, and what it changed before throwing stays
    changed. *)
Definition stmt (A : Type) : Type := scene -> result A * scene.

Definition bind {A B} (m : stmt A) (k : A -> stmt B) : stmt B :=
  fun s =>
    match m s with
    | (Ok a, s') => k a s'
    | (Throw e, s') => (Throw e, s')
    end.

Definition lift {A} (r : result A) : stmt A := fun s => (r, s).

(** [a[i]] on a C# array. *)
Definition element {A} (a : list A) (i : nat) : stmt A :=
  lift (match a !! i with
        | Some v => Ok v
        | None => Throw "Index was outside the bounds of the array."
        end).

Definition set_localRotation (q : UnityEngine.Quaternion.t F) : stmt unit :=
  fun s =>
    (Ok tt,
     {| targetObject_localRotation := q;
        PlungerControl_localPosition := PlungerControl_localPosition s;
        LogError := LogError s |}).

Definition set_localPosition (v : UnityEngine.Vector3.t F) : stmt unit :=
  fun s =>
    (Ok tt,
     {| targetObject_localRotation := targetObject_localRotation s;
        PlungerControl_localPosition := v;
        LogError := LogError s |}).

Definition get_localPosition : stmt (UnityEngine.Vector3.t F) :=
  fun s => (Ok (PlungerControl_localPosition s), s).

Definition Debug_LogError (message : string) (s : scene) : scene :=
  {| targetObject_localRotation := targetObject_localRotation s;
     PlungerControl_localPosition := PlungerControl_localPosition s;
     LogError := LogError s ++ [message] |}.

(** [Mathf.Clamp01] and [Mathf.Lerp] of Unity. *)
Definition Clamp01 (value : F) : F :=
  if fltb value (of_int 0) then of_int 0
  else if fltb (of_int 1) value then of_int 1
  else value.

Definition Lerp (a b t : F) : F := fadd a (fmul (fsub b a) (Clamp01 t)).

(** [IsValidQuaternionData]. *)
Definition IsValidQuaternionData (data : string) : bool :=
  StartsWith data "Quat W:" && (5 <=? length (Split comma data))%nat.

(** [float.Parse(part.Split(':')[1])]. *)
Definition parse_labelled (part : string) : stmt F :=
  bind (element (Split colon part) 1) (fun text => lift (float_Parse text)).

(** The [try] block of [ApplyQuaternion]. *)
Definition ApplyQuaternion_try (data : string) : stmt unit :=
  let parts := Split comma data in
  bind (bind (element parts 0) parse_labelled) (fun w =>
  bind (bind (element parts 1) parse_labelled) (fun x =>
  bind (bind (element parts 2) parse_labelled) (fun y =>
  bind (bind (element parts 3) parse_labelled) (fun z =>
  bind (bind (element parts 4) (fun text => lift (float_Parse text)))
       (fun plungerValue =>
  let quat := UnityEngine.Quaternion.mk (fopp x) (fopp z) (fopp y) w in
  bind (set_localRotation quat) (fun _ =>
  let plungerZ := Lerp (fopp (decimal 532 4)) (decimal 93 4) plungerValue in
  bind get_localPosition (fun p =>
  set_localPosition
    (UnityEngine.Vector3.mk (UnityEngine.Vector3.x p) (UnityEngine.Vector3.y p) plungerZ)))))))).

(** [ApplyQuaternion]: the [try] block and its [catch]. *)
Definition ApplyQuaternion (data : string) (s : scene) : scene :=
  match ApplyQuaternion_try data s with
  | (Ok _, s') => s'
  | (Throw Message, s') =>
      Debug_LogError ("Error parsing quaternion data: " ++ Message) s'
  end.

(** The serial part of [Update].  [incoming] is [None] when there is no
    open port or nothing to read, otherwise what [serialPort.ReadLine()]
    gives.  (The calibration keys of [Update] turn another object and are
    left out.) *)
Definition Update (incoming : option (result string)) (s : scene) : scene :=
  match incoming with
  | None => s
  | Some (Ok data) =>
      if IsValidQuaternionData data then ApplyQuaternion data s else s
  | Some (Throw Message) =>
      Debug_LogError ("Failed to read from serial port: " ++ Message) s
  end.

(** The number after the colon of field [i], and the number that is the
    whole field [i], when there is one and it parses. *)
Definition labelled (parts : list string) (i : nat) : option F :=
  match parts !! i with
  | Some part =>
      match Split colon part !! 1%nat with
      | Some text =>
          match float_Parse text with Ok v => Some v | Throw _ => None end
      | None => None
      end
  | None => None
  end.

Definition plain (parts : list string) (i : nat) : option F :=
  match parts !! i with
  | Some text =>
      match float_Parse text with Ok v => Some v | Throw _ => None end
  | None => None
  end.

(** The five numbers of a line, when all of them parse. *)
Definition decode (data : string) : option (F * F * F * F * F) :=
  let parts := Split comma data in
  match labelled parts 0, labelled parts 1, labelled parts 2, labelled parts 3,
        plain parts 4 with
  | Some w, Some x, Some y, Some z, Some plungerValue =>
      Some (w, x, y, z, plungerValue)
  | _, _, _, _, _ => None
  end.

(** A frame applied whole: the remapped rotation and the plunger moved
    along z. *)
Definition applied (frame : F * F * F * F * F) (s : scene) : scene :=
  let '(w, x, y, z, plungerValue) := frame in
  {| targetObject_localRotation :=
       UnityEngine.Quaternion.mk (fopp x) (fopp z) (fopp y) w;
     PlungerControl_localPosition :=
       UnityEngine.Vector3.mk
         (UnityEngine.Vector3.x (PlungerControl_localPosition s))
         (UnityEngine.Vector3.y (PlungerControl_localPosition s))
         (Lerp (fopp (decimal 532 4)) (decimal 93 4) plungerValue);
     LogError := LogError s |}.

End Controller.

(** A parser of plain decimal notation on exact numbers (an optional sign,
    digits, at most one point, an optional carriage return at the end): a
    part of what [float.Parse] accepts, used to run the controller. *)
Fixpoint digits (s : string) (acc : Z) (frac : option nat) : option (Z * nat) :=
  match s with
  | EmptyString => Some (acc, match frac with Some k => k | None => O end)
  | String c s' =>
      if Ascii.eqb c "." then
        match frac with
        | None => digits s' acc (Some O)
        | Some _ => None
        end
      else if Ascii.eqb c CR then
        match s' with
        | EmptyString => digits s' acc frac
        | _ => None
        end
      else
        let d := Z.of_nat (nat_of_ascii c) - 48 in
        if (0 <=? d) && (d <=? 9) then
          digits s' (10 * acc + d)
                 (match frac with Some k => Some (S k) | None => None end)
        else None
  end.

Definition has_digit (s : string) : bool :=
  existsb (fun c => (48 <=? nat_of_ascii c)%nat && (nat_of_ascii c <=? 57)%nat)
          (list_ascii_of_string s).

Definition parse_decimal (s : string) : result Q :=
  let '(negative, body) :=
    match s with
    | String "-" s' => (true, s')
    | _ => (false, s)
    end in
  if has_digit body then
    match digits body 0 None with
    | Some (m, k) =>
        let v := Qred (inject_Z m / inject_Z (10 ^ Z.of_nat k)) in
        Ok (if negative then Qred (- v) else v)
    | None => Throw "Input string was not in a correct format."
    end
  else Throw "Input string was not in a correct format.".

#[global] Instance exact_parse : FloatParse Q := parse_decimal.

End CombinedController.

(** ** Concrete inputs *)

(** Four cycles with a window of three: the identity orientation, and
    readings that scale to 1, 4/5, 3/5 and 2/5. *)
Definition unit_w : imu.Quaternion Q := imu.mk 1%Q 0%Q 0%Q 0%Q.
Definition unit_x : imu.Quaternion Q := imu.mk 0%Q 1%Q 0%Q 0%Q.

Definition four_cycles : list (@Sketch.sample Q) :=
  [(unit_w, 0); (unit_x, 819); (unit_w, 1638); (unit_x, 2457)].

(** The squared norm of a quaternion. *)
Definition norm2 (q : imu.Quaternion Q) : Q :=
  (imu.w q * imu.w q + imu.x q * imu.x q + imu.y q * imu.y q + imu.z q * imu.z q)%Q.

(** A scene and a well-formed line for the controller. *)
Definition at_rest : @CombinedController.scene Q :=
  {| CombinedController.targetObject_localRotation :=
       UnityEngine.Quaternion.mk 0%Q 0%Q 0%Q 1%Q;
     CombinedController.PlungerControl_localPosition :=
       UnityEngine.Vector3.mk (1 # 2)%Q (1 # 3)%Q 0%Q;
     CombinedController.LogError := [] |}.

Definition good_line : string :=
  "Quat W:0.5000, X:0.2500, Y:-0.1000, Z:0.0000,0.75".

(** ** Further notions *)

(** What a cycle writes into the two buffers, as one pair. *)
Definition captured {F} `{FloatOps F} (input : @Sketch.sample F)
    : imu.Quaternion F * F :=
  (fst input, Sketch.normalize (snd input)).

(** The sum of a list of rationals. *)
Fixpoint Qsum (l : list Q) : Q :=
  match l with
  | [] => 0%Q
  | v :: l' => (v + Qsum l')%Q
  end.

(** How many times a character occurs in a text. *)
Fixpoint count_char (c : ascii) (s : string) : nat :=
  match s with
  | EmptyString => O
  | String c' s' => ((if Ascii.eqb c' c then 1 else 0) + count_char c s')%nat
  end.

(** The characters [Print::printFloat] can send: digits, the sign, the
    point and the letters of ["ovf"]. *)
Definition number_char (c : ascii) : bool :=
  is_digit c || Ascii.eqb c "-" || Ascii.eqb c "." || Ascii.eqb c "o"
  || Ascii.eqb c "v" || Ascii.eqb c "f".

Fixpoint number_text (s : string) : bool :=
  match s with
  | EmptyString => true
  | String c s' => number_char c && number_text s'
  end.

(** A frame as [serialPort.ReadLine()] hands it over: without the final
    line feed. *)
Definition sent_line {F} `{FloatPrint F} (quat : imu.Quaternion F) (scalar : F)
    : string :=
  ("Quat W:" ++ printFloat (imu.w quat) 4 ++
   ", X:" ++ printFloat (imu.x quat) 4 ++
   ", Y:" ++ printFloat (imu.y quat) 4 ++
   ", Z:" ++ printFloat (imu.z quat) 4 ++
   "," ++ printFloat scalar 2 ++ String CR EmptyString)%string.

(** The frames of the first cycles, as lines. *)
Definition sent_lines {F} `{FloatOps F} `{FloatPrint F} (windowSize : Z)
    (inputs : list (@Sketch.sample F)) : list string :=
  map (fun c =>
         let s := Sketch.run windowSize true (take c inputs) in
         sent_line (Sketch.averageQuat windowSize s)
                   (Sketch.averageSensor windowSize s))
      (seq 1 (length inputs)).

(** The frames of the game: Unity calls [Update] once per frame, each time
    with what the serial port gives then. *)
Definition Updates {F} `{FloatOps F} `{CombinedController.FloatParse F}
    (incoming : list (option (CombinedController.result string)))
    (s : @CombinedController.scene F) : @CombinedController.scene F :=
  fold_left (fun s i => CombinedController.Update i s) incoming s.

(** The five numbers of what arrives in one frame of the game, when it is a
    line that passes the shape test and parses. *)
Definition accepted {F} `{FloatOps F} `{CombinedController.FloatParse F}
    (incoming : option (CombinedController.result string))
    : option (F * F * F * F * F) :=
  match incoming with
  | Some (CombinedController.Ok data) =>
      if CombinedController.IsValidQuaternionData data
      then CombinedController.decode data
      else None
  | _ => None
  end.

(** The last of them. *)
Definition latest {F} `{FloatOps F} `{CombinedController.FloatParse F}
    (incoming : list (option (CombinedController.result string)))
    : option (F * F * F * F * F) :=
  fold_left
    (fun found i => match accepted i with Some f => Some f | None => found end)
    incoming None.

(** The squared norm of a rotation of Unity. *)
Definition sqrMagnitude (q : UnityEngine.Quaternion.t Q) : Q :=
  (UnityEngine.Quaternion.x q * UnityEngine.Quaternion.x q
   + UnityEngine.Quaternion.y q * UnityEngine.Quaternion.y q
   + UnityEngine.Quaternion.z q * UnityEngine.Quaternion.z q
   + UnityEngine.Quaternion.w q * UnityEngine.Quaternion.w q)%Q.

(** The reading a cycle of the cheek firmware stores, in any arithmetic. *)
Definition Cheek_stored {F} `{FloatOps F} (analogRead : Z) : Z :=
  Cheek.constrain (Cheek.map (to_long (of_int analogRead : F)) 250 100 0 100)
                  0 100.

(** The calibration line of the cheek sensor: 250 and above is 0, 100 and
    below is 100, and in between the reading falls by two for every three
    steps of the converter. *)
Definition calibrated (val : Z) : Z :=
  if 250 <=? val then 0
  else if val <=? 100 then 100
  else (250 - val) * 100 / 150.

(** The lines the cheek firmware has sent after its first cycles, without
    their line feeds. *)
Definition Cheek_lines {F} `{FloatOps F} `{FloatPrint F} (inputs : list Z)
    : list string :=
  map (fun c =>
         ("Cheek : "
          ++ printFloat (Cheek.average (Cheek.run (take c inputs))) 2
          ++ String CR EmptyString)%string)
      (seq 1 (length inputs)).

(** A binary32 value that is a number. *)
Definition is_number (x : spec_float) : bool :=
  match x with
  | S754_finite _ _ _ | S754_zero _ => true
  | _ => false
  end.

(** ** The choice of the serial port *)

(** The part of [CombinedController] that looks after the port.  What the
    operating system answers is given to the functions: the names of
    [SerialPort.GetPortNames()], and for each attempt to connect whether
    [new SerialPort(portName, baudRate)] and [Open()] succeed.  A port
    changes between open and closed only through [Open()] and [Close()],
    and [Close()] does not throw. *)
Module PortSelection.

(** A [System.IO.Ports.SerialPort] object. *)
Record SerialPort := {
  PortName : string;
  BaudRate : Z;
  IsOpen : bool
}.

Inductive attempt :=
| Opens
| Open_throws (Message : string)
| new_throws (Message : string).

(** The fields of the script, the two logs of Unity, and the ports the
    script has opened and not closed (kept for the proofs only). *)
Record controller := {
  dropdown_options : list string;
  serialPort : option SerialPort;
  Debug_Log : list string;
  Debug_LogError : list string;
  held : list string
}.

Definition baudRate : Z := 115200.

(** A script that has not started: [serialPort] is null. *)
Definition awake : controller :=
  {| dropdown_options := [];
     serialPort := None;
     Debug_Log := [];
     Debug_LogError := [];
     held := [] |}.

Fixpoint release (name : string) (ports : list string) : list string :=
  match ports with
  | [] => []
  | p :: ports' =>
      if String.eqb p name then ports' else p :: release name ports'
  end.

(** [PopulateDropdownWithSerialPorts]. *)
Definition PopulateDropdownWithSerialPorts (GetPortNames : list string)
    (c : controller) : controller :=
  let options := ["Select Syringe"%string] in
  let options := options ++ GetPortNames in
  let options :=
    if (length options =? 0)%nat then options ++ ["No Device"%string]
    else options in
  {| dropdown_options := options;
     serialPort := serialPort c;
     Debug_Log := Debug_Log c;
     Debug_LogError := Debug_LogError c;
     held := held c |}.

(** [CloseSerialPort]. *)
Definition CloseSerialPort (c : controller) : controller :=
  match serialPort c with
  | Some port =>
      if IsOpen port then
        {| dropdown_options := dropdown_options c;
           serialPort :=
             Some {| PortName := PortName port;
                     BaudRate := BaudRate port;
                     IsOpen := false |};
           Debug_Log := Debug_Log c ++ ["Serial port closed."%string];
           Debug_LogError := Debug_LogError c;
           held := release (PortName port) (held c) |}
      else c
  | None => c
  end.

(** [ConnectToSerialPort]. *)
Definition ConnectToSerialPort (portName : string) (os : attempt)
    (c : controller) : controller :=
  let c := CloseSerialPort c in
  match os with
  | Opens =>
      {| dropdown_options := dropdown_options c;
         serialPort :=
           Some {| PortName := portName; BaudRate := baudRate; IsOpen := true |};
         Debug_Log := Debug_Log c ++ ["Serial port opened successfully."%string];
         Debug_LogError := Debug_LogError c;
         held := held c ++ [portName] |}
  | Open_throws Message =>
      {| dropdown_options := dropdown_options c;
         serialPort :=
           Some {| PortName := portName; BaudRate := baudRate; IsOpen := false |};
         Debug_Log := Debug_Log c;
         Debug_LogError :=
           Debug_LogError c ++ [("Failed to open serial port: " ++ Message)%string];
         held := held c |}
  | new_throws Message =>
      {| dropdown_options := dropdown_options c;
         serialPort := serialPort c;
         Debug_Log := Debug_Log c;
         Debug_LogError :=
           Debug_LogError c ++ [("Failed to open serial port: " ++ Message)%string];
         held := held c |}
  end.

(** [DropdownValueChanged], for the dropdown of the script at [value].
    Reading [options[value]] out of range throws before anything is
    done. *)
Definition DropdownValueChanged (value : Z) (os : attempt) (c : controller)
    : CombinedController.result controller :=
  match (if value <? 0 then None else dropdown_options c !! Z.to_nat value) with
  | None =>
      CombinedController.Throw
        "Index was out of range. Must be non-negative and less than the size of the collection."
  | Some selectedPort =>
      CombinedController.Ok
        (if String.eqb selectedPort "Select Syringe" then CloseSerialPort c
         else if negb (String.eqb selectedPort "No Device")
              then ConnectToSerialPort selectedPort os c
              else CloseSerialPort c)
  end.

(** [Start] (the listener it registers is [Selected] below) and
    [OnDestroy]. *)
Definition Start (GetPortNames : list string) (c : controller) : controller :=
  PopulateDropdownWithSerialPorts GetPortNames c.

Definition OnDestroy (c : controller) : controller := CloseSerialPort c.

(** The test [serialPort != null && serialPort.IsOpen] of [Update]. *)
Definition connected (c : controller) : bool :=
  match serialPort c with
  | Some port => IsOpen port
  | None => false
  end.

(** [Update] in a given state of the port: [wire] is what the port gives
    when it is read, [None] for nothing to read. *)
Definition Update {F} `{FloatOps F} `{CombinedController.FloatParse F}
    (c : controller) (wire : option (CombinedController.result string))
    (s : @CombinedController.scene F) : @CombinedController.scene F :=
  CombinedController.Update (if connected c then wire else None) s.

(** What happens to the script after [Start]: the user picks an entry of
    the dropdown, or the object is destroyed. *)
Inductive event :=
| Selected (value : Z) (os : attempt)
| Destroyed.

Definition handle (c : controller) (e : event) : controller :=
  match e with
  | Selected value os =>
      match DropdownValueChanged value os c with
      | CombinedController.Ok c' => c'
      | CombinedController.Throw _ => c
      end
  | Destroyed => OnDestroy c
  end.

Definition session (GetPortNames : list string) (events : list event)
    : controller :=
  fold_left handle events (Start GetPortNames awake).

(** The port the script holds open, if any. *)
Definition open_port (c : controller) : list string :=
  match serialPort c with
  | Some port => if IsOpen port then [PortName port] else []
  | None => []
  end.

Definition opened_message : string := "Serial port opened successfully.".
Definition closed_message : string := "Serial port closed.".

End PortSelection.

(** ADC readings of the cheek sensor that end with ten equal ones. *)
Definition cheek_settled : list Z :=
  [100; 250; 175; 175; 175; 175; 175; 175; 175; 175; 175; 175].

(** A formatter for the cheek firmware run in binary32, where only the
    numbers matter. *)
Definition no_text : FloatPrint spec_float := fun _ _ => EmptyString.

(** A decimal with exactly [d] fractional digits: an optional minus sign,
    one digit or more, and for [d] above 0 a point and [d] digits. *)
Definition decimal_places (d : nat) (s : string) : bool :=
  let body :=
    match s with
    | String c s' => if Ascii.eqb c "-" then s' else s
    | EmptyString => s
    end in
  match CombinedController.Split "." body, d with
  | [whole], O => all_digits whole && negb (String.length whole =? 0)%nat
  | [whole; frac], S _ =>
      all_digits whole && negb (String.length whole =? 0)%nat
      && all_digits frac && (String.length frac =? d)%nat
  | _, _ => false
  end.

(** A part of what [float.Parse] does, for running the controller in
    binary32: ["NaN"] is the value that is no number, and a short decimal
    is the binary32 number nearest to it (the quotient of two integers that
    binary32 holds exactly). *)
Definition parse_binary32 : CombinedController.FloatParse spec_float :=
  fun s =>
    if String.eqb s "NaN" || String.eqb s ("NaN" ++ String CR EmptyString)
    then CombinedController.Ok S754_nan
    else
      match CombinedController.parse_decimal s with
      | CombinedController.Ok q =>
          CombinedController.Ok
            (SFdiv B32.prec B32.emax (B32.of_Z (Qnum q)) (B32.of_Z (Zpos (Qden q))))
      | CombinedController.Throw Message => CombinedController.Throw Message
      end.

(** The two ends of the plunger's travel as the script has them,
    [-0.0532f] and [0.0093f], and the binary32 number next above the
    second. *)
Definition pushed32 : spec_float := fopp (decimal 532 4).
Definition pulled32 : spec_float := decimal 93 4.
Definition above_pulled32 : spec_float := S754_finite false 9985800 (-30).

(** The binary32 number nearest to [k / 100]: what a scalar sent with two
    decimals parses to. *)
Definition hundredth (k : Z) : spec_float := fdiv (of_int k) (of_int 100).

(** The four cycles of [four_cycles] in binary32, and a scene at rest. *)
Definition unit_w32 : imu.Quaternion spec_float :=
  imu.mk (B32.of_Z 1) (B32.of_Z 0) (B32.of_Z 0) (B32.of_Z 0).
Definition unit_x32 : imu.Quaternion spec_float :=
  imu.mk (B32.of_Z 0) (B32.of_Z 1) (B32.of_Z 0) (B32.of_Z 0).

Definition four_cycles32 : list (@Sketch.sample spec_float) :=
  [(unit_w32, 0); (unit_x32, 819); (unit_w32, 1638); (unit_x32, 2457)].

Definition at_rest32 : @CombinedController.scene spec_float :=
  {| CombinedController.targetObject_localRotation :=
       UnityEngine.Quaternion.mk (B32.of_Z 0) (B32.of_Z 0) (B32.of_Z 0) (B32.of_Z 1);
     CombinedController.PlungerControl_localPosition :=
       UnityEngine.Vector3.mk (decimal 5 1) (decimal 25 2) (B32.of_Z 0);
     CombinedController.LogError := [] |}.

(** Twelve cycles in binary32 that end with ten equal ones. *)
Definition settled32 : list (@Sketch.sample spec_float) :=
  (unit_w32, 0) :: (unit_w32, 4095) :: replicate 10 (unit_x32, 819).

(** The characters the formatter of the core can send: digits, the sign,
    the point and the letters of ["nan"], ["inf"] and ["ovf"]. *)
Definition core_char (c : ascii) : bool :=
  is_digit c || Ascii.eqb c "-" || Ascii.eqb c "."
  || Ascii.eqb c "n" || Ascii.eqb c "a" || Ascii.eqb c "i"
  || Ascii.eqb c "f" || Ascii.eqb c "o" || Ascii.eqb c "v".

Fixpoint core_text (s : string) : bool :=
  match s with
  | EmptyString => true
  | String c s' => core_char c && core_text s'
  end.

(** ** Rounding in [SpecFloat] *)

(** The second normalisation of [binary_round_aux], on a rounded
    mantissa of at most [prec] bits or the carry [2 ^ prec]. *)
Definition normalised (prec emax : Z) (sx : bool) (q1 e1 : Z) : spec_float :=
  if q1 =? 0 then S754_zero sx
  else if q1 <? 2 ^ prec
       then (if e1 <=? emax - prec then S754_finite sx (Z.to_pos q1) e1 else S754_infinity sx)
       else (if e1 + 1 <=? emax - prec
             then S754_finite sx (Z.to_pos (2 ^ (prec - 1))) (e1 + 1) else S754_infinity sx).

(** The magnitude of a result is at most that of a canonical number. *)
Definition mag_le (r : spec_float) (mf : positive) (ef : Z) : Prop :=
  match r with
  | S754_zero _ => True
  | S754_finite _ m e => e < ef \/ (e = ef /\ Zpos m <= Zpos mf)
  | _ => False
  end.

Definition sign_is (sx : bool) (r : spec_float) : Prop :=
  match r with
  | S754_zero s | S754_finite s _ _ | S754_infinity s => s = sx
  | S754_nan => False
  end.

(** ** What the formatter of the core prints *)

(** What [printFloat] prints digits for: a number that is not beyond
    4294967040 either way. *)
Definition printable (x : spec_float) : bool :=
  is_number (B64.of_float x)
  && negb (SFltb (B64.of_Z 4294967040) (B64.of_float x))
  && negb (SFltb (B64.of_float x) (B64.of_Z (-4294967040))).

(** A double that is zero, or positive and valid. *)
Definition nonneg_valid (x : spec_float) : Prop :=
  match x with
  | S754_zero _ => True
  | S754_finite s m e => s = false /\ bounded 53 1024 m e = true
  | _ => False
  end.

(** A valid double from 0 up to, not including, 1. *)
Definition fractional (x : spec_float) : Prop :=
  match x with
  | S754_zero _ => True
  | S754_finite s m e =>
      s = false /\ canonical_mantissa 53 1024 m e = true /\ e <= -53
  | _ => False
  end.

(** A valid double from 0 to one half. *)
Definition half_or_less (x : spec_float) : bool :=
  match x with
  | S754_zero _ => true
  | S754_finite false m e =>
      bounded 53 1024 m e
      && ((e <? -53) || ((e =? -53) && (Zpos m <=? 4503599627370496)))
  | _ => false
  end.

(** What the formatter of the core sends for [v]: a decimal with exactly
    [d] digits after the point when [v] is printable, and one of its three
    words otherwise. *)
Definition field_text (d : nat) (v : spec_float) (t : string) : Prop :=
  if printable v then decimal_places d t = true
  else t = "nan"%string \/ t = "inf"%string \/ t = "ovf"%string.

(** * Properties *)

(** ** Rounding to nearest in [SpecFloat] *)

(** [SpecFloat] defines the operations of IEEE 754 and proves nothing
    about them.  What follows is what the facts about binary32 and
    binary64 below need: the result of an operation is a valid number,
    and it does not pass a number of the format that the exact result
    does not pass. *)

Lemma digits2_pos_bounds (p : positive) :
  2 ^ (Zpos (digits2_pos p) - 1) <= Zpos p < 2 ^ Zpos (digits2_pos p).
Proof.
  induction p as [p IH|p IH|]; cbn [digits2_pos].
  - rewrite Pos2Z.inj_succ, Z.pow_succ_r by lia.
    replace (Z.succ (Zpos (digits2_pos p)) - 1) with (Z.succ (Zpos (digits2_pos p) - 1)) by lia.
    rewrite Z.pow_succ_r by lia. lia.
  - rewrite Pos2Z.inj_succ, Z.pow_succ_r by lia.
    replace (Z.succ (Zpos (digits2_pos p)) - 1) with (Z.succ (Zpos (digits2_pos p) - 1)) by lia.
    rewrite Z.pow_succ_r by lia. lia.
  - cbn. lia.
Qed.

Lemma digits2_pos_unique (p : positive) (n : Z) :
  2 ^ (n - 1) <= Zpos p < 2 ^ n -> Zpos (digits2_pos p) = n.
Proof.
  intros [Hlo Hhi]. pose proof (digits2_pos_bounds p) as [Blo Bhi].
  assert (0 <= n) as Hn.
  { destruct (Z_lt_le_dec n 0) as [Hneg|]; [|assumption].
    rewrite (Z.pow_neg_r 2 n) in Hhi by assumption. lia. }
  destruct (Z_lt_le_dec (Zpos (digits2_pos p)) n) as [Hlt|Hge].
  - assert (2 ^ Zpos (digits2_pos p) <= 2 ^ (n - 1)) by (apply Z.pow_le_mono_r; lia). lia.
  - destruct (Z_lt_le_dec n (Zpos (digits2_pos p))) as [Hlt|Hle]; [|lia].
    assert (2 ^ n <= 2 ^ (Zpos (digits2_pos p) - 1)) by (apply Z.pow_le_mono_r; lia). lia.
Qed.

Lemma iter_pos_nat {A : Type} (f : A -> A) (n : positive) (x : A) :
  SpecFloat.iter_pos f n x = Nat.iter (Pos.to_nat n) f x.
Proof.
  revert x. induction n as [n IH|n IH|]; intros x; cbn [SpecFloat.iter_pos].
  - rewrite !IH, Pos2Nat.inj_xI.
    replace (S (2 * Pos.to_nat n)) with (Pos.to_nat n + Pos.to_nat n + 1)%nat by lia.
    rewrite !Nat.iter_add. reflexivity.
  - rewrite !IH, Pos2Nat.inj_xO.
    replace (2 * Pos.to_nat n)%nat with (Pos.to_nat n + Pos.to_nat n)%nat by lia.
    rewrite Nat.iter_add. reflexivity.
  - reflexivity.
Qed.

Lemma shr_1_spec (m : Z) (r s : bool) :
  0 <= m ->
  shr_1 (Build_shr_record m r s) = Build_shr_record (m / 2) (Z.odd m) (r || s).
Proof.
  intros Hm. rewrite <- Z.div2_div.
  destruct m as [|[p|p|]|]; try reflexivity. lia.
Qed.

(** [k] right shifts of an exact mantissa: the quotient, and the place
    of the remainder with respect to the half-way point. *)
Lemma shr_iter (P : Z) (k : nat) :
  0 <= P ->
  let R := Nat.iter k shr_1 (Build_shr_record P false false) in
  shr_m R = P / 2 ^ Z.of_nat k
  /\ match loc_of_shr_record R with
     | loc_Exact => P mod 2 ^ Z.of_nat k = 0
     | loc_Inexact c =>
         0 < P mod 2 ^ Z.of_nat k /\ (2 * (P mod 2 ^ Z.of_nat k) ?= 2 ^ Z.of_nat k) = c
     end.
Proof.
  intros HP. induction k as [|k IH]; cbn zeta.
  - cbn. rewrite Z.div_1_r, Z.mod_1_r. split; reflexivity.
  - cbn zeta in IH. rewrite Nat2Z.inj_succ, Z.pow_succ_r by lia.
    cbn [Nat.iter nat_rect].
    change (nat_rect _ _ _ k) with (Nat.iter k shr_1 (Build_shr_record P false false)).
    destruct (Nat.iter k shr_1 (Build_shr_record P false false)) as [m r s].
    cbn [shr_m] in IH. destruct IH as (Hm & Hl).
    assert (0 < 2 ^ Z.of_nat k) as Hpow by (apply Z.pow_pos_nonneg; lia).
    assert (0 <= m) as Hm0 by (rewrite Hm; apply Z.div_pos; lia).
    rewrite (shr_1_spec m r s Hm0). cbn [shr_m].
    assert (P mod (2 ^ Z.of_nat k * 2) = P mod 2 ^ Z.of_nat k + 2 ^ Z.of_nat k * (m mod 2)) as Hmod.
    { rewrite Hm. apply Z.rem_mul_r; lia. }
    rewrite (Z.mul_comm 2 (2 ^ Z.of_nat k)), Hmod, Zmod_odd.
    pose proof (Z.mod_pos_bound P (2 ^ Z.of_nat k) Hpow) as Hb.
    split.
    + rewrite Hm, Z.div_div by lia. reflexivity.
    + destruct (Z.odd m), r, s; cbn [loc_of_shr_record orb] in Hl |- *;
        lazymatch type of Hl with
        | _ /\ _ =>
            destruct Hl as [Hl1 Hl2];
            first [apply Z.compare_eq_iff in Hl2 | apply Z.compare_lt_iff in Hl2
                  | apply Z.compare_gt_iff in Hl2]
        | _ => idtac
        end;
        lazymatch goal with
        | |- _ /\ _ =>
            split; [lia|];
            first [apply Z.compare_eq_iff | apply Z.compare_lt_iff | apply Z.compare_gt_iff];
            lia
        | |- _ => lia
        end.
Qed.

Lemma round_nearest_even_cases (q t w : Z) (l : location) :
  0 < w ->
  match l with
  | loc_Exact => t = 0
  | loc_Inexact c => 0 < t /\ (2 * t ?= w) = c
  end ->
  q <= round_nearest_even q l <= q + 1
  /\ (round_nearest_even q l = q + 1 -> w <= 2 * t)
  /\ (round_nearest_even q l = q -> 2 * t <= w).
Proof.
  intros Hw Hl. destruct l as [|c]; cbn [round_nearest_even]; [lia|].
  destruct Hl as [Hl1 Hl2]. destruct (Z.compare_spec (2 * t) w); subst c;
    try destruct (Z.even q); lia.
Qed.

Section Rounding.
Variables prec emax : Z.
Hypothesis prec_pos : 0 < prec.

Lemma fexp_eq (e : Z) : fexp prec emax e = Z.max (e - prec) (3 - emax - prec).
Proof. reflexivity. Qed.

Lemma renormalise (sx : bool) (q1 e1 : Z) :
  3 - emax - prec <= e1 -> 0 <= q1 <= 2 ^ prec ->
  (let '(mrs, e2) := shr_fexp prec emax q1 e1 loc_Exact in
   match shr_m mrs with
   | Z0 => S754_zero sx
   | Zpos m => if e2 <=? emax - prec then S754_finite sx m e2 else S754_infinity sx
   | Zneg _ => S754_nan
   end) = normalised prec emax sx q1 e1.
Proof.
  intros He [Hq0 Hq]. unfold normalised, shr_fexp.
  destruct q1 as [|p|p]; [| |lia].
  - cbn [Zdigits2 Z.eqb shr_record_of_loc]. rewrite fexp_eq. unfold shr.
    destruct (Z.max (0 + e1 - prec) (3 - emax - prec) - e1) eqn:Hs; try reflexivity. lia.
  - change (Zpos p =? 0) with false. cbn [Zdigits2 shr_record_of_loc]. rewrite fexp_eq.
    pose proof (digits2_pos_bounds p) as [Blo Bhi].
    destruct (Z.ltb_spec (Zpos p) (2 ^ prec)) as [Hlt|Hge].
    + assert (Zpos (digits2_pos p) <= prec) as Hd.
      { destruct (Z_lt_le_dec prec (Zpos (digits2_pos p))) as [Hbig|]; [|assumption].
        assert (2 ^ prec <= 2 ^ (Zpos (digits2_pos p) - 1)) by (apply Z.pow_le_mono_r; lia). lia. }
      unfold shr.
      destruct (Z.max (Zpos (digits2_pos p) + e1 - prec) (3 - emax - prec) - e1) eqn:Hs;
        try reflexivity. lia.
    + assert (Zpos p = 2 ^ prec) as Hp by lia.
      assert (Zpos (digits2_pos p) = prec + 1) as Hd.
      { apply digits2_pos_unique. replace (prec + 1 - 1) with prec by lia.
        rewrite Hp. split; [lia|]. apply Z.pow_lt_mono_r; lia. }
      rewrite Hd. replace (Z.max (prec + 1 + e1 - prec) (3 - emax - prec) - e1) with 1 by lia.
      cbn [shr SpecFloat.iter_pos]. rewrite shr_1_spec by lia. cbn [shr_m].
      rewrite Hp. replace prec with (Z.succ (prec - 1)) at 1 by lia.
      rewrite Z.pow_succ_r by lia. rewrite Z.mul_comm, Z.div_mul by lia.
      assert (0 < 2 ^ (prec - 1)) as Hpos by (apply Z.pow_pos_nonneg; lia).
      destruct (2 ^ (prec - 1)) as [|m|m]; try lia. reflexivity.
Qed.

(** [binary_round_aux] on an exact mantissa that is not above its
    canonical exponent: the quotient by the shift, rounded up only from the
    half-way point on. *)
Lemma binary_round_aux_cases (sx : bool) (P : positive) (E : Z) :
  let e1 := fexp prec emax (Zpos (digits2_pos P) + E) in
  let n := e1 - E in
  E <= e1 ->
  exists q1 : Z,
    Zpos P / 2 ^ n <= q1 <= Zpos P / 2 ^ n + 1
    /\ (q1 = Zpos P / 2 ^ n + 1 -> 2 ^ n <= 2 * (Zpos P mod 2 ^ n))
    /\ (q1 = Zpos P / 2 ^ n -> 2 * (Zpos P mod 2 ^ n) <= 2 ^ n)
    /\ q1 <= 2 ^ prec
    /\ (e1 = 3 - emax - prec \/ 2 ^ (prec - 1) <= q1)
    /\ binary_round_aux prec emax sx (Zpos P) E loc_Exact = normalised prec emax sx q1 e1.
Proof.
  intros e1 n.
  assert (e1 = fexp prec emax (Zpos (digits2_pos P) + E)) as He1 by reflexivity.
  assert (n = e1 - E) as Hn by reflexivity.
  clearbody n. clearbody e1. intros HE.
  assert (3 - emax - prec <= e1) as Hemin by (rewrite He1, fexp_eq; lia).
  pose proof (digits2_pos_bounds P) as [Blo Bhi].
  assert (0 <= n) as Hn0 by lia.
  assert (0 < 2 ^ n) as Hpow by (apply Z.pow_pos_nonneg; lia).
  assert (0 < 2 ^ prec) as Hpp by (apply Z.pow_pos_nonneg; lia).
  assert (0 <= Zpos P / 2 ^ n) as Hq0 by (apply Z.div_pos; lia).
  assert (Zpos P / 2 ^ n < 2 ^ prec) as Hq.
  { apply Z.div_lt_upper_bound; [lia|]. rewrite <- Z.pow_add_r by lia.
    eapply Z.lt_le_trans; [exact Bhi|]. apply Z.pow_le_mono_r; [lia|].
    rewrite fexp_eq in He1. lia. }
  assert (e1 = 3 - emax - prec \/ 2 ^ (prec - 1) <= Zpos P / 2 ^ n) as Hnorm.
  { destruct (Z.eq_dec e1 (3 - emax - prec)) as [|Hne]; [left; assumption|right].
    assert (e1 = Zpos (digits2_pos P) + E - prec) as He1' by (rewrite fexp_eq in He1; lia).
    apply Z.div_le_lower_bound; [lia|]. rewrite <- Z.pow_add_r by lia.
    replace (n + (prec - 1)) with (Zpos (digits2_pos P) - 1) by lia. exact Blo. }
  assert (exists R, shr_fexp prec emax (Zpos P) E loc_Exact = (R, e1)
            /\ shr_m R = Zpos P / 2 ^ n
            /\ match loc_of_shr_record R with
               | loc_Exact => Zpos P mod 2 ^ n = 0
               | loc_Inexact c =>
                   0 < Zpos P mod 2 ^ n /\ (2 * (Zpos P mod 2 ^ n) ?= 2 ^ n) = c
               end) as (R & HR & Hm & Hl).
  { unfold shr_fexp. cbn [Zdigits2 shr_record_of_loc]. rewrite <- He1, <- Hn.
    destruct n as [|s|s]; [| |lia].
    - exists (Build_shr_record (Zpos P) false false). cbn [shr shr_m loc_of_shr_record].
      split; [f_equal; lia|]. rewrite Z.pow_0_r, Z.div_1_r, Z.mod_1_r. split; reflexivity.
    - cbn [shr]. rewrite iter_pos_nat.
      pose proof (shr_iter (Zpos P) (Pos.to_nat s)) as HI. cbn zeta in HI.
      rewrite positive_nat_Z in HI.
      exists (Nat.iter (Pos.to_nat s) shr_1 (Build_shr_record (Zpos P) false false)).
      split; [f_equal; lia|]. apply HI. lia. }
  exists (round_nearest_even (shr_m R) (loc_of_shr_record R)).
  pose proof (Z.mod_pos_bound (Zpos P) (2 ^ n) Hpow) as Hb.
  assert (Zpos P / 2 ^ n <= round_nearest_even (shr_m R) (loc_of_shr_record R)
            <= Zpos P / 2 ^ n + 1
          /\ (round_nearest_even (shr_m R) (loc_of_shr_record R) = Zpos P / 2 ^ n + 1 ->
              2 ^ n <= 2 * (Zpos P mod 2 ^ n))
          /\ (round_nearest_even (shr_m R) (loc_of_shr_record R) = Zpos P / 2 ^ n ->
              2 * (Zpos P mod 2 ^ n) <= 2 ^ n)) as (Hq1 & Hup & Hdown).
  { rewrite Hm. apply round_nearest_even_cases; assumption. }
  split; [exact Hq1|]. split; [exact Hup|]. split; [exact Hdown|]. split; [lia|].
  split; [destruct Hnorm; [left; assumption|right; lia]|].
  unfold binary_round_aux. rewrite HR. apply renormalise; lia.
Qed.

Lemma digits2_pos_le (p : positive) (n : Z) :
  Zpos p < 2 ^ n -> Zpos (digits2_pos p) <= n.
Proof.
  intros Hp. pose proof (digits2_pos_bounds p) as [Blo _].
  destruct (Z_lt_le_dec n (Zpos (digits2_pos p))) as [Hbig|]; [|assumption].
  destruct (Z_lt_le_dec n 0) as [Hneg|Hn].
  - rewrite (Z.pow_neg_r 2 n) in Hp by assumption. lia.
  - assert (2 ^ n <= 2 ^ (Zpos (digits2_pos p) - 1)) by (apply Z.pow_le_mono_r; lia). lia.
Qed.

(** What a canonical mantissa is: below [2 ^ prec], and at least
    [2 ^ (prec - 1)] above the least exponent. *)
Lemma canonical_cases (m : positive) (e : Z) :
  canonical_mantissa prec emax m e = true ->
  3 - emax - prec <= e
  /\ Zpos m < 2 ^ prec
  /\ (3 - emax - prec < e -> 2 ^ (prec - 1) <= Zpos m).
Proof.
  unfold canonical_mantissa. rewrite fexp_eq. intros H. apply Z.eqb_eq in H.
  pose proof (digits2_pos_bounds m) as [Blo Bhi].
  repeat split.
  - lia.
  - eapply Z.lt_le_trans; [exact Bhi|]. apply Z.pow_le_mono_r; lia.
  - intros He. replace (prec - 1) with (Zpos (digits2_pos m) - 1) by lia. exact Blo.
Qed.

Lemma canonical_intro (m : positive) (e : Z) :
  3 - emax - prec <= e -> Zpos m < 2 ^ prec ->
  (e = 3 - emax - prec \/ 2 ^ (prec - 1) <= Zpos m) ->
  canonical_mantissa prec emax m e = true.
Proof.
  intros He Hm Hn. unfold canonical_mantissa. rewrite fexp_eq. apply Z.eqb_eq.
  pose proof (digits2_pos_le m prec Hm) as Hd.
  destruct Hn as [->|Hn]; [lia|].
  rewrite (digits2_pos_unique m prec) by lia. lia.
Qed.

Lemma normalised_sign (sx : bool) (q1 e1 : Z) : sign_is sx (normalised prec emax sx q1 e1).
Proof.
  unfold normalised.
  destruct (q1 =? 0), (q1 <? 2 ^ prec), (e1 <=? emax - prec), (e1 + 1 <=? emax - prec);
    reflexivity.
Qed.

Lemma normalised_valid (sx : bool) (q1 e1 : Z) :
  3 - emax - prec <= e1 -> 0 <= q1 <= 2 ^ prec ->
  (e1 = 3 - emax - prec \/ 2 ^ (prec - 1) <= q1) ->
  valid_binary prec emax (normalised prec emax sx q1 e1) = true.
Proof.
  intros He [Hq0 Hq] Hn. unfold normalised.
  assert (0 < 2 ^ (prec - 1)) as Hpos by (apply Z.pow_pos_nonneg; lia).
  assert (2 ^ prec = 2 * 2 ^ (prec - 1)) as Hpp.
  { rewrite <- Z.pow_succ_r by lia. f_equal. lia. }
  destruct (Z.eqb_spec q1 0) as [|Hz]; [reflexivity|].
  destruct (Z.ltb_spec q1 (2 ^ prec)) as [Hlt|Hge].
  - destruct (Z.leb_spec e1 (emax - prec)) as [Hle|]; [|reflexivity].
    cbn [valid_binary]. unfold bounded. apply andb_true_intro. split; [|apply Z.leb_le; lia].
    apply canonical_intro; rewrite ?Z2Pos.id by lia; assumption.
  - destruct (Z.leb_spec (e1 + 1) (emax - prec)) as [Hle|]; [|reflexivity].
    cbn [valid_binary]. unfold bounded. apply andb_true_intro. split; [|apply Z.leb_le; lia].
    apply canonical_intro; rewrite ?Z2Pos.id by lia; [lia|lia|right; lia].
Qed.

Lemma normalised_below (sx : bool) (q1 e1 : Z) (mf : positive) (ef : Z) :
  3 - emax - prec <= e1 -> 0 <= q1 <= 2 ^ prec ->
  canonical_mantissa prec emax mf ef = true -> ef <= emax - prec ->
  e1 < ef \/ (e1 = ef /\ q1 <= Zpos mf) ->
  mag_le (normalised prec emax sx q1 e1) mf ef.
Proof.
  intros He [Hq0 Hq] Hc Hef Hle. unfold normalised.
  apply canonical_cases in Hc. destruct Hc as (Hc1 & Hc2 & Hc3).
  assert (0 < 2 ^ (prec - 1)) as Hpos by (apply Z.pow_pos_nonneg; lia).
  destruct (Z.eqb_spec q1 0) as [|Hz]; [exact I|].
  destruct (Z.ltb_spec q1 (2 ^ prec)) as [Hlt|Hge].
  - destruct (Z.leb_spec e1 (emax - prec)) as [Hl|Hl]; [|lia].
    cbn [mag_le]. rewrite Z2Pos.id by lia. lia.
  - destruct (Z.leb_spec (e1 + 1) (emax - prec)) as [Hl|Hl]; [|lia].
    cbn [mag_le]. rewrite Z2Pos.id by lia.
    destruct (Z.eq_dec (e1 + 1) ef) as [Heq|Hne]; [right|left; lia].
    split; [assumption|]. apply Hc3. lia.
Qed.

(** Rounding to nearest never passes a canonical number that the exact
    value is less than half a unit above. *)
Lemma binary_round_aux_below (sx : bool) (P : positive) (E : Z) (mf : positive) (ef L : Z) :
  E <= fexp prec emax (Zpos (digits2_pos P) + E) ->
  canonical_mantissa prec emax mf ef = true -> ef <= emax - prec ->
  L <= E -> L <= ef ->
  2 * Zpos P * 2 ^ (E - L) < (2 * Zpos mf + 1) * 2 ^ (ef - L) ->
  mag_le (binary_round_aux prec emax sx (Zpos P) E loc_Exact) mf ef.
Proof.
  intros HE Hc Hef HLE HLf Hv.
  destruct (binary_round_aux_cases sx P E HE) as (q1 & Hq1 & Hup & Hdown & Hq & Hn & ->).
  remember (fexp prec emax (Zpos (digits2_pos P) + E)) as e1 eqn:He1.
  rewrite fexp_eq in He1.
  remember (e1 - E) as n eqn:Hn'.
  pose proof (digits2_pos_bounds P) as [Blo Bhi].
  pose proof (canonical_cases mf ef Hc) as (Hc1 & Hc2 & Hc3).
  assert (0 <= n) as Hn0 by lia.
  assert (0 < 2 ^ n) as Hpow by (apply Z.pow_pos_nonneg; lia).
  assert (0 < 2 ^ (E - L)) as HA by (apply Z.pow_pos_nonneg; lia).
  assert (0 <= Zpos P / 2 ^ n) as Hq0 by (apply Z.div_pos; lia).
  assert (e1 <= ef) as Hle.
  { destruct (Z_lt_le_dec ef e1) as [Hlt|]; [exfalso|assumption].
    assert (e1 = Zpos (digits2_pos P) + E - prec) as He1' by lia.
    assert (2 ^ (prec + 1 + (ef - L)) <= 2 ^ (Zpos (digits2_pos P) - 1 + 1 + (E - L))) as Hp
      by (apply Z.pow_le_mono_r; lia).
    rewrite !Z.pow_add_r in Hp by lia. rewrite !Z.pow_1_r in Hp.
    assert (0 < 2 ^ (ef - L)) by (apply Z.pow_pos_nonneg; lia).
    nia. }
  apply normalised_below; try assumption; try lia.
  destruct (Z.eq_dec e1 ef) as [Heq|Hne]; [right|left; lia].
  split; [assumption|].
  assert (ef - L = n + (E - L)) as Hsplit by lia.
  rewrite Hsplit, Z.pow_add_r in Hv by lia.
  pose proof (Z.div_mod (Zpos P) (2 ^ n) ltac:(lia)) as Hdm.
  pose proof (Z.mod_pos_bound (Zpos P) (2 ^ n) Hpow) as Hb.
  assert (2 * Zpos P < (2 * Zpos mf + 1) * 2 ^ n) as Hv' by nia.
  destruct (Z.eq_dec q1 (Zpos P / 2 ^ n)) as [Hsame|Hdiff].
  - rewrite Hsame. nia.
  - assert (q1 = Zpos P / 2 ^ n + 1) as Hone by lia.
    specialize (Hup Hone). rewrite Hone. nia.
Qed.

Lemma binary_round_aux_valid (sx : bool) (P : positive) (E : Z) :
  E <= fexp prec emax (Zpos (digits2_pos P) + E) ->
  valid_binary prec emax (binary_round_aux prec emax sx (Zpos P) E loc_Exact) = true
  /\ sign_is sx (binary_round_aux prec emax sx (Zpos P) E loc_Exact).
Proof.
  intros HE.
  destruct (binary_round_aux_cases sx P E HE) as (q1 & Hq1 & Hup & Hdown & Hq & Hn & ->).
  assert (0 < 2 ^ 0) by (cbn; lia).
  assert (0 <= Zpos P / 2 ^ (fexp prec emax (Zpos (digits2_pos P) + E) - E)) as Hq0.
  { apply Z.div_pos; [lia|]. apply Z.pow_pos_nonneg; lia. }
  split; [|apply normalised_sign].
  apply normalised_valid; [rewrite fexp_eq; lia|lia|assumption].
Qed.

Lemma iter_xO (m d : positive) : Zpos (Pos.iter xO m d) = Zpos m * 2 ^ Zpos d.
Proof.
  induction d as [|d IH] using Pos.peano_ind.
  - cbn. lia.
  - rewrite Pos.iter_succ, Pos2Z.inj_succ, Z.pow_succ_r, Pos2Z.inj_xO, IH by lia. lia.
Qed.

Lemma shl_align_spec (m : positive) (e e' : Z) :
  snd (shl_align m e e') = Z.min e e'
  /\ Zpos (fst (shl_align m e e')) = Zpos m * 2 ^ (e - Z.min e e').
Proof.
  unfold shl_align. destruct (e' - e) eqn:Hd; cbn [fst snd].
  - split; [lia|]. replace (e - Z.min e e') with 0 by lia. cbn. lia.
  - split; [lia|]. replace (e - Z.min e e') with 0 by lia. cbn. lia.
  - split; [lia|]. rewrite iter_xO. f_equal. f_equal. lia.
Qed.

Lemma digits2_pos_shift (m m' : positive) (k : Z) :
  0 <= k -> Zpos m' = Zpos m * 2 ^ k ->
  Zpos (digits2_pos m') = Zpos (digits2_pos m) + k.
Proof.
  intros Hk Hm. pose proof (digits2_pos_bounds m) as [Blo Bhi].
  assert (0 < 2 ^ k) as Hp by (apply Z.pow_pos_nonneg; lia).
  apply digits2_pos_unique. rewrite Hm.
  replace (Zpos (digits2_pos m) + k - 1) with (Zpos (digits2_pos m) - 1 + k) by lia.
  rewrite !Z.pow_add_r by lia. nia.
Qed.

(** [binary_round] is [binary_round_aux] on a mantissa that is not above
    its canonical exponent. *)
Lemma binary_round_eq (sx : bool) (P : positive) (E : Z) :
  exists (P' : positive) (E' : Z),
    binary_round prec emax sx P E = binary_round_aux prec emax sx (Zpos P') E' loc_Exact
    /\ E' <= fexp prec emax (Zpos (digits2_pos P') + E')
    /\ E' = Z.min E (fexp prec emax (Zpos (digits2_pos P) + E))
    /\ Zpos P' = Zpos P * 2 ^ (E - E').
Proof.
  unfold binary_round.
  pose proof (shl_align_spec P E (fexp prec emax (Zpos (digits2_pos P) + E))) as [He Hm].
  destruct (shl_align P E (fexp prec emax (Zpos (digits2_pos P) + E))) as [P' E'].
  cbn [fst snd] in He, Hm. exists P', E'. rewrite <- He in Hm.
  split; [reflexivity|]. split; [|split; assumption].
  rewrite (digits2_pos_shift P P' (E - E')) by (assumption || lia).
  replace (Zpos (digits2_pos P) + (E - E') + E') with (Zpos (digits2_pos P) + E) by lia.
  lia.
Qed.

Lemma binary_round_valid (sx : bool) (P : positive) (E : Z) :
  valid_binary prec emax (binary_round prec emax sx P E) = true
  /\ sign_is sx (binary_round prec emax sx P E).
Proof.
  destruct (binary_round_eq sx P E) as (P' & E' & -> & HE & _).
  apply binary_round_aux_valid. exact HE.
Qed.

Lemma binary_round_below (sx : bool) (P : positive) (E : Z) (mf : positive) (ef L : Z) :
  canonical_mantissa prec emax mf ef = true -> ef <= emax - prec ->
  L <= E -> L <= 3 - emax - prec ->
  2 * Zpos P * 2 ^ (E - L) < (2 * Zpos mf + 1) * 2 ^ (ef - L) ->
  mag_le (binary_round prec emax sx P E) mf ef.
Proof.
  intros Hc Hef HLE HLm Hv.
  destruct (binary_round_eq sx P E) as (P' & E' & -> & HE & HE' & HP).
  pose proof (canonical_cases mf ef Hc) as (Hc1 & _).
  assert (L <= E') as HL' by (rewrite HE', fexp_eq; lia).
  apply (binary_round_aux_below sx P' E' mf ef L); try assumption; try lia.
  assert (Zpos P' * 2 ^ (E' - L) = Zpos P * 2 ^ (E - L)) as Hsame.
  { rewrite HP, <- Z.mul_assoc, <- Z.pow_add_r by lia. do 2 f_equal. lia. }
  lia.
Qed.

Lemma mag_le_SFleb (r : spec_float) (mf : positive) (ef : Z) :
  sign_is false r -> mag_le r mf ef -> SFleb r (S754_finite false mf ef) = true.
Proof.
  destruct r as [s|s| |s m e]; cbn [sign_is mag_le]; intros Hs Hm; try contradiction; subst s.
  - reflexivity.
  - unfold SFleb, SFcompare. destruct Hm as [Hlt|[-> Hle]].
    + apply Z.compare_lt_iff in Hlt. rewrite Hlt. reflexivity.
    + rewrite Z.compare_refl. change (Pos.compare_cont Eq m mf) with (Pos.compare m mf).
      destruct (Pos.compare_spec m mf); try reflexivity. lia.
Qed.

Lemma mag_le_SFleb_opp (r : spec_float) (mf : positive) (ef : Z) :
  sign_is true r -> mag_le r mf ef -> SFleb (S754_finite true mf ef) r = true.
Proof.
  destruct r as [s|s| |s m e]; cbn [sign_is mag_le]; intros Hs Hm; try contradiction; subst s.
  - reflexivity.
  - unfold SFleb, SFcompare. destruct Hm as [Hlt|[-> Hle]].
    + apply Z.compare_gt_iff in Hlt. rewrite Hlt. reflexivity.
    + rewrite Z.compare_refl. change (Pos.compare_cont Eq mf m) with (Pos.compare mf m).
      destruct (Pos.compare_spec mf m); try reflexivity. lia.
Qed.

(** The order of canonical numbers is the order of their values. *)
Lemma mag_le_value (s : bool) (m : positive) (e : Z) (mf : positive) (ef L : Z) :
  canonical_mantissa prec emax m e = true ->
  canonical_mantissa prec emax mf ef = true ->
  mag_le (S754_finite s m e) mf ef -> L <= e ->
  Zpos m * 2 ^ (e - L) <= Zpos mf * 2 ^ (ef - L).
Proof.
  intros Hc Hcf Hm HL. cbn [mag_le] in Hm.
  pose proof (canonical_cases m e Hc) as (Hc1 & Hc2 & _).
  pose proof (canonical_cases mf ef Hcf) as (_ & _ & Hf3).
  assert (0 < 2 ^ (e - L)) as Hp by (apply Z.pow_pos_nonneg; lia).
  destruct Hm as [Hlt|[-> Hle]]; [|nia].
  specialize (Hf3 ltac:(lia)).
  assert (2 ^ (prec + (e - L)) <= 2 ^ (prec - 1 + (ef - L))) as Hpw
    by (apply Z.pow_le_mono_r; lia).
  rewrite !Z.pow_add_r in Hpw by lia.
  assert (0 < 2 ^ (ef - L)) by (apply Z.pow_pos_nonneg; lia).
  nia.
Qed.

Lemma SFadd_finite (sx : bool) (mx : positive) (ex : Z) (sy : bool) (my : positive) (ey : Z) :
  SFadd prec emax (S754_finite sx mx ex) (S754_finite sy my ey)
  = binary_normalize prec emax
      (cond_Zopp sx (Zpos mx * 2 ^ (ex - Z.min ex ey))
       + cond_Zopp sy (Zpos my * 2 ^ (ey - Z.min ex ey)))
      (Z.min ex ey) false.
Proof.
  cbn [SFadd].
  pose proof (shl_align_spec mx ex (Z.min ex ey)) as [_ Hx].
  pose proof (shl_align_spec my ey (Z.min ex ey)) as [_ Hy].
  rewrite Hx, Hy.
  replace (Z.min ex (Z.min ex ey)) with (Z.min ex ey) by lia.
  replace (Z.min ey (Z.min ex ey)) with (Z.min ex ey) by lia.
  reflexivity.
Qed.

Lemma SFsub_finite (sx : bool) (mx : positive) (ex : Z) (sy : bool) (my : positive) (ey : Z) :
  SFsub prec emax (S754_finite sx mx ex) (S754_finite sy my ey)
  = binary_normalize prec emax
      (cond_Zopp sx (Zpos mx * 2 ^ (ex - Z.min ex ey))
       - cond_Zopp sy (Zpos my * 2 ^ (ey - Z.min ex ey)))
      (Z.min ex ey) false.
Proof.
  cbn [SFsub].
  pose proof (shl_align_spec mx ex (Z.min ex ey)) as [_ Hx].
  pose proof (shl_align_spec my ey (Z.min ex ey)) as [_ Hy].
  rewrite Hx, Hy.
  replace (Z.min ex (Z.min ex ey)) with (Z.min ex ey) by lia.
  replace (Z.min ey (Z.min ex ey)) with (Z.min ex ey) by lia.
  reflexivity.
Qed.

Lemma binary_normalize_valid (N e : Z) (s : bool) :
  valid_binary prec emax (binary_normalize prec emax N e s) = true.
Proof.
  destruct N as [|P|P]; cbn [binary_normalize]; [reflexivity| |]; apply binary_round_valid.
Qed.

Lemma binary_normalize_sign (N e : Z) (s : bool) :
  N <> 0 -> sign_is (N <? 0) (binary_normalize prec emax N e s).
Proof.
  destruct N as [|P|P]; cbn [binary_normalize]; [congruence| |]; intros _;
    apply binary_round_valid.
Qed.

Lemma binary_normalize_below (N e : Z) (s : bool) (mf : positive) (ef L : Z) :
  canonical_mantissa prec emax mf ef = true -> ef <= emax - prec ->
  L <= e -> L <= 3 - emax - prec ->
  2 * Z.abs N * 2 ^ (e - L) < (2 * Zpos mf + 1) * 2 ^ (ef - L) ->
  mag_le (binary_normalize prec emax N e s) mf ef.
Proof.
  intros Hc Hef HLe HLm Hv.
  destruct N as [|P|P]; cbn [binary_normalize]; [exact I| |];
    apply (binary_round_below _ P e mf ef L); assumption.
Qed.

Lemma negative_le (r : spec_float) (mf : positive) (ef : Z) :
  sign_is true r -> SFleb r (S754_finite false mf ef) = true.
Proof. destruct r as [s|s| |s m e]; cbn [sign_is]; intros Hs; [| |contradiction|]; subst s; reflexivity. Qed.

Lemma positive_ge (r : spec_float) (mf : positive) (ef : Z) :
  sign_is false r -> SFleb (S754_finite true mf ef) r = true.
Proof. destruct r as [s|s| |s m e]; cbn [sign_is]; intros Hs; [| |contradiction|]; subst s; reflexivity. Qed.

(** A sum stays at or below a positive canonical number that the exact sum
    is less than half a unit above, and at or above a negative one
    likewise. *)
Lemma binary_normalize_le (N e : Z) (mf : positive) (ef L : Z) :
  canonical_mantissa prec emax mf ef = true -> ef <= emax - prec ->
  L <= e -> L <= 3 - emax - prec ->
  2 * N * 2 ^ (e - L) < (2 * Zpos mf + 1) * 2 ^ (ef - L) ->
  SFleb (binary_normalize prec emax N e false) (S754_finite false mf ef) = true.
Proof.
  intros Hc Hef HLe HLm Hv.
  destruct (Z.ltb_spec 0 N) as [Hpos|Hneg].
  - apply mag_le_SFleb.
    + pose proof (binary_normalize_sign N e false ltac:(lia)) as Hs.
      replace (N <? 0) with false in Hs by (symmetry; apply Z.ltb_ge; lia). exact Hs.
    + apply (binary_normalize_below N e false mf ef L); try assumption.
      rewrite Z.abs_eq by lia. exact Hv.
  - destruct (Z.eq_dec N 0) as [->|Hne]; [reflexivity|].
    apply negative_le.
    pose proof (binary_normalize_sign N e false Hne) as Hs.
    replace (N <? 0) with true in Hs by (symmetry; apply Z.ltb_lt; lia). exact Hs.
Qed.

Lemma binary_normalize_ge (N e : Z) (mf : positive) (ef L : Z) :
  canonical_mantissa prec emax mf ef = true -> ef <= emax - prec ->
  L <= e -> L <= 3 - emax - prec ->
  - (2 * N * 2 ^ (e - L)) < (2 * Zpos mf + 1) * 2 ^ (ef - L) ->
  SFleb (S754_finite true mf ef) (binary_normalize prec emax N e false) = true.
Proof.
  intros Hc Hef HLe HLm Hv.
  destruct (Z.ltb_spec N 0) as [Hneg|Hpos].
  - apply mag_le_SFleb_opp.
    + pose proof (binary_normalize_sign N e false ltac:(lia)) as Hs.
      replace (N <? 0) with true in Hs by (symmetry; apply Z.ltb_lt; lia). exact Hs.
    + apply (binary_normalize_below N e false mf ef L); try assumption.
      rewrite Z.abs_neq by lia. lia.
  - destruct (Z.eq_dec N 0) as [->|Hne]; [reflexivity|].
    apply positive_ge.
    pose proof (binary_normalize_sign N e false Hne) as Hs.
    replace (N <? 0) with false in Hs by (symmetry; apply Z.ltb_ge; lia). exact Hs.
Qed.

(** A mantissa already at its canonical exponent is kept as it is. *)
Lemma binary_round_aux_exact (sx : bool) (P : positive) (E : Z) :
  E = fexp prec emax (Zpos (digits2_pos P) + E) -> E <= emax - prec ->
  binary_round_aux prec emax sx (Zpos P) E loc_Exact = S754_finite sx P E.
Proof.
  intros HE Hmax.
  destruct (binary_round_aux_cases sx P E ltac:(lia)) as (q1 & Hq1 & Hup & _ & Hq & _ & ->).
  rewrite <- HE in *. rewrite Z.sub_diag in *.
  change (2 ^ 0) with 1 in *. rewrite Z.div_1_r, Z.mod_1_r in *.
  assert (q1 = Zpos P) as -> by lia.
  pose proof (digits2_pos_bounds P) as [_ Bhi].
  assert (Zpos P < 2 ^ prec) as Hlt.
  { eapply Z.lt_le_trans; [exact Bhi|]. apply Z.pow_le_mono_r; [lia|].
    rewrite fexp_eq in HE. lia. }
  unfold normalised. change (Zpos P =? 0) with false.
  apply Z.ltb_lt in Hlt. rewrite Hlt. apply Z.leb_le in Hmax. rewrite Hmax. reflexivity.
Qed.

Lemma binary_round_exact (sx : bool) (P : positive) (E : Z) :
  let e1 := fexp prec emax (Zpos (digits2_pos P) + E) in
  e1 <= E -> e1 <= emax - prec ->
  exists P' : positive,
    binary_round prec emax sx P E = S754_finite sx P' e1
    /\ Zpos P' = Zpos P * 2 ^ (E - e1).
Proof.
  intros e1 He Hmax.
  destruct (binary_round_eq sx P E) as (P' & E' & -> & HE & HE' & HP).
  fold e1 in HE'. assert (E' = e1) as -> by lia.
  exists P'. split; [|exact HP].
  apply binary_round_aux_exact; [|assumption].
  rewrite (digits2_pos_shift P P' (E - e1)) by (assumption || lia).
  replace (Zpos (digits2_pos P) + (E - e1) + e1) with (Zpos (digits2_pos P) + E) by lia.
  reflexivity.
Qed.

End Rounding.


(** ** Circular buffers *)

Section Ring.
Context {A : Type}.

Lemma window_length n (fill : A) (vals : list A) : length (window n fill vals) = n.
Proof.
  unfold window. rewrite length_drop, length_app, length_replicate. lia.
Qed.

Lemma window_snoc n (fill : A) (vals : list A) (v : A) :
  (0 < n)%nat ->
  window n fill (vals ++ [v]) = drop 1 (window n fill vals) ++ [v].
Proof.
  intros Hn. unfold window. rewrite length_app. simpl.
  rewrite app_assoc.
  rewrite drop_app_le by (rewrite length_app, length_replicate; lia).
  rewrite drop_drop. reflexivity.
Qed.

Lemma window_full n (fill : A) (vals : list A) :
  (n <= length vals)%nat -> window n fill vals = lastn n vals.
Proof.
  intros Hn. unfold window, lastn.
  rewrite drop_app_ge by (rewrite length_replicate; lia).
  rewrite length_replicate. reflexivity.
Qed.

Lemma window_short n (fill : A) (vals : list A) :
  (length vals <= n)%nat ->
  window n fill vals = replicate (n - length vals) fill ++ vals.
Proof.
  intros Hn. unfold window.
  rewrite drop_app_le by (rewrite length_replicate; lia).
  rewrite drop_replicate. reflexivity.
Qed.

Lemma ring_length n (fill : A) (vals : list A) : length (ring n fill vals) = n.
Proof.
  unfold ring. rewrite length_app, length_drop, length_take, window_length. lia.
Qed.

Lemma ring_perm n (fill : A) (vals : list A) : Permutation (ring n fill vals) (window n fill vals).
Proof.
  unfold ring.
  rewrite Permutation_app_comm. rewrite take_drop. reflexivity.
Qed.

(** One write at the cursor. *)
Lemma ring_snoc n (fill : A) (vals : list A) (v : A) :
  (0 < n)%nat ->
  <[(length vals mod n)%nat := v]> (ring n fill vals) = ring n fill (vals ++ [v]).
Proof.
  intros Hn. unfold ring.
  set (r := (length vals mod n)%nat).
  assert (Hr : (r < n)%nat) by (apply Nat.mod_upper_bound; lia).
  rewrite window_snoc by exact Hn.
  set (L := window n fill vals).
  assert (HL : length L = n) by apply window_length.
  rewrite length_app. simpl.
  assert (Hstep : ((length vals + 1) mod n = if decide (r + 1 = n)%nat then 0 else r + 1)%nat).
  { rewrite Nat.Div0.add_mod by lia. fold r.
    destruct (decide (r + 1 = n)%nat) as [E|E].
    - destruct (decide (n = 1)%nat) as [->|E1].
      + reflexivity.
      + rewrite (Nat.mod_small 1) by lia. rewrite E. apply Nat.Div0.mod_same.
    - destruct (decide (n = 1)%nat) as [->|E1]; [lia|].
      rewrite (Nat.mod_small 1) by lia. apply Nat.mod_small. lia. }
  rewrite Hstep.
  destruct L as [|o L']; [simpl in HL; lia|].
  simpl in HL.
  assert (Hins : <[r:=v]> (drop (n - r) (o :: L') ++ take (n - r) (o :: L'))
                 = drop (n - r) (o :: L') ++ v :: take (n - r - 1) L').
  { replace r with (length (drop (n - r) (o :: L')) + 0)%nat at 1
      by (rewrite length_drop; simpl; lia).
    rewrite insert_app_r.
    f_equal. replace (n - r)%nat with (S (n - r - 1)) at 1 by lia.
    reflexivity. }
  rewrite Hins. simpl (drop 1 (o :: L')). rewrite drop_0.
  replace (n - r)%nat with (S (n - r - 1)) at 1 by lia.
  simpl (drop (S _) (o :: L')).
  destruct (decide (r + 1 = n)%nat) as [E|E].
  - replace (n - r - 1)%nat with 0%nat by lia.
    rewrite Nat.sub_0_r.
    rewrite drop_0, take_0.
    rewrite drop_ge by (rewrite length_app; simpl; lia).
    rewrite take_ge by (rewrite length_app; simpl; lia).
    reflexivity.
  - replace (n - (r + 1))%nat with (n - r - 1)%nat by lia.
    rewrite drop_app_le by lia.
    rewrite take_app_le by lia.
    rewrite <- app_assoc. reflexivity.
Qed.

Lemma ring_nil n (fill : A) : ring n fill [] = replicate n fill.
Proof.
  unfold ring, window. simpl. rewrite Nat.Div0.mod_0_l, Nat.sub_0_r, app_nil_r.
  rewrite drop_0.
  rewrite drop_ge, take_ge by (rewrite length_replicate; lia).
  reflexivity.
Qed.

(** Before the cursor has wrapped: the values written, then the fill. *)
Lemma ring_short n (fill : A) (vals : list A) :
  (length vals < n)%nat ->
  ring n fill vals = vals ++ replicate (n - length vals) fill.
Proof.
  intros Hk. unfold ring.
  rewrite Nat.mod_small by lia.
  rewrite window_short by lia.
  rewrite drop_app_length' by (rewrite length_replicate; lia).
  rewrite take_app_length' by (rewrite length_replicate; lia).
  reflexivity.
Qed.

(** A loop over the indices of an array reads its elements in order. *)
Lemma index_loop {B} (f : B -> A -> B) (pre l : list A) (a : B) :
  fold_left
    (fun acc i => match (pre ++ l) !! i with Some v => f acc v | None => acc end)
    (seq (length pre) (length l)) a
  = fold_left f l a.
Proof.
  revert pre a. induction l as [|v l IH]; intros pre a; [reflexivity|].
  simpl. rewrite list_lookup_middle by reflexivity.
  specialize (IH (pre ++ [v]) (f a v)).
  rewrite length_app in IH. simpl in IH.
  rewrite Nat.add_1_r in IH.
  rewrite <- app_assoc in IH. simpl in IH. exact IH.
Qed.

End Ring.

(** Storing the same value at every index of an array, whatever it held. *)
Lemma fill_loop {A} (v : A) (pre l : list A) :
  fold_left (fun b i => store b (Z.of_nat i) v)
            (seq (length pre) (length l)) (pre ++ l)
  = pre ++ replicate (length l) v.
Proof.
  revert pre. induction l as [|o l IH]; intros pre; [reflexivity|].
  simpl. unfold store at 2. rewrite Nat2Z.id.
  replace (length pre) with (length pre + 0)%nat at 2 by lia.
  rewrite insert_app_r. simpl.
  specialize (IH (pre ++ [v])).
  rewrite length_app in IH. simpl in IH. rewrite Nat.add_1_r in IH.
  rewrite <- !app_assoc in IH. simpl in IH. exact IH.
Qed.

(** Sums that do not depend on the order of the summands. *)
Lemma fold_left_perm {A} (f : A -> A -> A) :
  (forall a b c, f (f a b) c = f a (f b c)) ->
  (forall a b, f a b = f b a) ->
  forall l l', Permutation l l' -> forall a, fold_left f l a = fold_left f l' a.
Proof.
  intros Hassoc Hcomm l l' Hp.
  induction Hp as [|v l l' _ IH|u v l|l l' l'' _ IH1 _ IH2]; intros a; simpl.
  - reflexivity.
  - apply IH.
  - f_equal. rewrite !Hassoc. f_equal. apply Hcomm.
  - rewrite IH1. apply IH2.
Qed.

Lemma fold_left_pointwise {A B} (f g : B -> A -> B) (l : list A) (a : B) :
  (forall b v, f b v = g b v) -> fold_left f l a = fold_left g l a.
Proof.
  intros Hfg. revert a. induction l as [|v l IH]; intros a; simpl.
  - reflexivity.
  - rewrite Hfg. apply IH.
Qed.

(** ** Text *)

Lemma append_assoc (a b c : string) :
  ((a ++ b) ++ c)%string = (a ++ (b ++ c))%string.
Proof. induction a as [|ch a IH]; simpl; [reflexivity | now rewrite IH]. Qed.

Lemma append_nil_r (a : string) : (a ++ "")%string = a.
Proof. induction a as [|ch a IH]; simpl; [reflexivity | now rewrite IH]. Qed.

Lemma length_append (a b : string) :
  String.length (a ++ b) = (String.length a + String.length b)%nat.
Proof. induction a as [|ch a IH]; simpl; [reflexivity | now rewrite IH]. Qed.

Lemma all_digits_append (a b : string) :
  all_digits (a ++ b) = all_digits a && all_digits b.
Proof.
  induction a as [|ch a IH]; simpl; [reflexivity|].
  now rewrite IH, andb_assoc.
Qed.

(** *** The idealised formatter *)

Lemma one_digit (k : Z) :
  0 <= k <= 9 ->
  String.length (print_unsigned k) = 1%nat /\ all_digits (print_unsigned k) = true.
Proof.
  intros Hk.
  assert (Hcases : k = 0 \/ k = 1 \/ k = 2 \/ k = 3 \/ k = 4
                   \/ k = 5 \/ k = 6 \/ k = 7 \/ k = 8 \/ k = 9) by lia.
  repeat (destruct Hcases as [->|Hcases]; [split; reflexivity|]).
  subst k. split; reflexivity.
Qed.

Lemma floor_of_tenfold (r : Q) :
  (0 <= r)%Q -> (r < 1)%Q ->
  0 <= Qfloor (r * 10) <= 9
  /\ (0 <= r * 10 - inject_Z (Qfloor (r * 10)))%Q
  /\ (r * 10 - inject_Z (Qfloor (r * 10)) < 1)%Q.
Proof.
  intros Hlo Hhi.
  pose proof (Qfloor_le (r * 10)) as Hfl.
  pose proof (Qlt_floor (r * 10)) as Hlt.
  assert (H9 : Qfloor (r * 10) < 10).
  { rewrite Zlt_Qlt. change (inject_Z 10) with 10%Q. lra. }
  assert (H0 : -1 < Qfloor (r * 10)).
  { assert (Hq : (inject_Z (-1) < inject_Z (Qfloor (r * 10)))%Q).
    { rewrite inject_Z_plus in Hlt. change (inject_Z 1) with 1%Q in Hlt.
      change (inject_Z (-1)) with (-1)%Q. lra. }
    now rewrite <- Zlt_Qlt in Hq. }
  rewrite inject_Z_plus in Hlt. change (inject_Z 1) with 1%Q in Hlt.
  split; [lia|]. split; lra.
Qed.

(** The digits after the point: as many as asked for. *)
Lemma fraction_digits (digits : nat) (remainder : Q) :
  (0 <= remainder)%Q -> (remainder < 1)%Q ->
  String.length (ExactPrint.fraction digits remainder) = digits
  /\ all_digits (ExactPrint.fraction digits remainder) = true.
Proof.
  revert remainder.
  induction digits as [|digits IH]; intros remainder Hlo Hhi.
  - split; reflexivity.
  - cbn [ExactPrint.fraction].
    destruct (floor_of_tenfold remainder Hlo Hhi) as (Hk & Hlo' & Hhi').
    destruct (one_digit _ Hk) as (Hlen1 & Hdig1).
    destruct (IH _ Hlo' Hhi') as (Hlen & Hdig).
    rewrite length_append, all_digits_append, Hlen1, Hlen, Hdig1, Hdig.
    split; reflexivity.
Qed.

(** Within the range of [unsigned long] the formatter sends a sign if the
    number is negative, the integer part, a point, and exactly [digits]
    decimal digits. *)
Lemma printFloat_shape (number : Q) (digits : nat) :
  (-4294967040 <= number)%Q -> (number <= 4294967040)%Q ->
  exists (negative : bool) (int_part : Z) (fraction : string),
    ExactPrint.printFloat number (S digits)
    = ((if negative then "-" else "") ++ print_unsigned int_part ++ "."
       ++ fraction)%string
    /\ 0 <= int_part
    /\ String.length fraction = S digits
    /\ all_digits fraction = true.
Proof.
  intros Hlo Hhi. unfold ExactPrint.printFloat.
  assert (E1 : Qle_bool number 4294967040 = true) by now apply Qle_bool_iff.
  assert (E2 : Qle_bool (-4294967040) number = true) by now apply Qle_bool_iff.
  rewrite E1, E2. cbn [negb].
  set (absolute := if negb (Qle_bool 0 number) then (- number)%Q else number).
  assert (Habs : (0 <= absolute)%Q).
  { unfold absolute. destruct (Qle_bool 0 number) eqn:E; cbn [negb].
    - now apply Qle_bool_iff.
    - assert (Hneg : ~ (0 <= number)%Q)
        by (intros Hc; apply Qle_bool_iff in Hc; congruence).
      apply Qnot_le_lt in Hneg. lra. }
  assert (Hround : forall d, (0 < ExactPrint.rounding d)%Q).
  { induction d as [|d IHd]; cbn [ExactPrint.rounding].
    - reflexivity.
    - apply Qlt_shift_div_l; [reflexivity|]. lra. }
  pose proof (Hround (S digits)) as Hr.
  set (rounded := (absolute + ExactPrint.rounding (S digits))%Q) in *.
  pose proof (Qfloor_le rounded) as Hfl.
  pose proof (Qlt_floor rounded) as Hlt.
  rewrite inject_Z_plus in Hlt. change (inject_Z 1) with 1%Q in Hlt.
  assert (Hint : 0 <= Qfloor rounded).
  { assert (Hq : (inject_Z (-1) < inject_Z (Qfloor rounded))%Q).
    { change (inject_Z (-1)) with (-1)%Q. unfold rounded in *. lra. }
    rewrite <- Zlt_Qlt in Hq. lia. }
  destruct (fraction_digits (S digits) (rounded - inject_Z (Qfloor rounded))%Q)
    as (Hlen & Hdig); [lra | lra |].
  exists (negb (Qle_bool 0 number)), (Qfloor rounded),
         (ExactPrint.fraction (S digits) (rounded - inject_Z (Qfloor rounded))%Q).
  split; [reflexivity|]. split; [exact Hint|]. split; assumption.
Qed.

(** ** The syringe firmware: what one cycle does *)

Section SketchFacts.
Context {F : Type} `{FloatOps F} `{FloatPrint F}.
Variable windowSize : Z.

Local Abbreviation n := (Z.to_nat windowSize).
Local Abbreviation zero := (of_int 0 : F).
Local Abbreviation averageQuat := (Sketch.averageQuat windowSize).
Local Abbreviation averageSensor := (Sketch.averageSensor windowSize).
Local Abbreviation loop := (Sketch.loop windowSize).
Local Abbreviation cycle := (Sketch.cycle windowSize).
Local Abbreviation setup := (Sketch.setup windowSize).
Local Abbreviation reset := (Sketch.reset windowSize).
Local Abbreviation run := (Sketch.run windowSize).
Local Abbreviation sample := (@Sketch.sample F).
Local Abbreviation banner := Sketch.banner.
Local Abbreviation complaint := Sketch.complaint.
Local Abbreviation init_stores := (Sketch.init_stores windowSize).
Local Abbreviation quats := (@Sketch.quats F).
Local Abbreviation scalars := (@Sketch.scalars F _).
Local Abbreviation trajectory := (Sketch.trajectory windowSize).
Local Abbreviation frames := (Sketch.frames windowSize).
Local Abbreviation writes_to := Sketch.writes_to.

Lemma printQuaternion_Serial quat v (s : Sketch.state) :
  Sketch.Serial (Sketch.printQuaternion quat v s)
  = (Sketch.Serial s ++ Sketch.frame quat v)%string.
Proof.
  cbn [Sketch.printQuaternion Sketch.Serial_println_float
       Sketch.Serial_print_float Sketch.Serial_print Sketch.Serial].
  unfold Sketch.frame. rewrite !append_assoc. reflexivity.
Qed.

Lemma loop_pc input s : Sketch.pc (loop input s) = Sketch.pc s.
Proof. reflexivity. Qed.

Lemma loop_quatBuffer input s :
  Sketch.quatBuffer (loop input s)
  = store (Sketch.quatBuffer s) (Sketch.bufferIndex s) (fst input).
Proof. reflexivity. Qed.

Lemma loop_sensorValueBuffer input s :
  Sketch.sensorValueBuffer (loop input s)
  = store (Sketch.sensorValueBuffer s) (Sketch.bufferIndex s)
          (Sketch.normalize (snd input)).
Proof. reflexivity. Qed.

Lemma loop_bufferIndex input s :
  Sketch.bufferIndex (loop input s) = Z.rem (Sketch.bufferIndex s + 1) windowSize.
Proof. reflexivity. Qed.

Lemma loop_stores input s :
  Sketch.stores (loop input s)
  = Sketch.stores s ++ [(Sketch.QuatBuffer, Sketch.bufferIndex s);
                        (Sketch.SensorValueBuffer, Sketch.bufferIndex s)].
Proof.
  cbn [Sketch.loop Sketch.printQuaternion Sketch.Serial_println_float
       Sketch.Serial_print_float Sketch.Serial_print Sketch.set_index
       Sketch.set_sensor Sketch.set_quat Sketch.stores Sketch.bufferIndex].
  rewrite <- app_assoc. reflexivity.
Qed.

Lemma loop_Serial input s :
  Sketch.Serial (loop input s)
  = (Sketch.Serial s
     ++ Sketch.frame (averageQuat (loop input s)) (averageSensor (loop input s)))%string.
Proof.
  unfold Sketch.loop at 1. rewrite printQuaternion_Serial. reflexivity.
Qed.

(** The averages read the buffers only. *)
Lemma averageSensor_mean (s : Sketch.state) :
  0 <= windowSize ->
  length (Sketch.sensorValueBuffer s) = n ->
  averageSensor s = Sketch.mean (Sketch.sensorValueBuffer s).
Proof.
  intros Hw Hlen. unfold Sketch.averageSensor, Sketch.mean, Sketch.slots.
  rewrite Hlen, Z2Nat.id by exact Hw. f_equal.
  rewrite <- Hlen.
  exact (index_loop fadd [] (Sketch.sensorValueBuffer s) zero).
Qed.

Lemma quat_sums (l : list (imu.Quaternion F)) (a b c d : F) :
  fold_left
    (fun '(sumW, sumX, sumY, sumZ) q =>
       (fadd sumW (imu.w q), fadd sumX (imu.x q),
        fadd sumY (imu.y q), fadd sumZ (imu.z q)))
    l (a, b, c, d)
  = (fold_left fadd (map imu.w l) a, fold_left fadd (map imu.x l) b,
     fold_left fadd (map imu.y l) c, fold_left fadd (map imu.z l) d).
Proof.
  revert a b c d. induction l as [|q l IH]; intros a b c d; [reflexivity|].
  simpl. apply IH.
Qed.

Lemma averageQuat_mean (s : Sketch.state) :
  0 <= windowSize ->
  length (Sketch.quatBuffer s) = n ->
  averageQuat s
  = imu.mk (Sketch.mean (map imu.w (Sketch.quatBuffer s)))
           (Sketch.mean (map imu.x (Sketch.quatBuffer s)))
           (Sketch.mean (map imu.y (Sketch.quatBuffer s)))
           (Sketch.mean (map imu.z (Sketch.quatBuffer s))).
Proof.
  intros Hw Hlen. unfold Sketch.averageQuat, Sketch.mean, Sketch.slots.
  rewrite !length_map, Hlen, Z2Nat.id by exact Hw.
  rewrite <- Hlen.
  pose proof (index_loop
    (fun '(sumW, sumX, sumY, sumZ) q =>
       (fadd sumW (imu.w q), fadd sumX (imu.x q),
        fadd sumY (imu.y q), fadd sumZ (imu.z q)))
    [] (Sketch.quatBuffer s) (zero, zero, zero, zero)) as Hloop.
  simpl in Hloop.
  match goal with
  | |- (let '(_, _) := ?t in _) = _ =>
      match type of Hloop with ?u = _ => replace t with u end
  end.
  - rewrite Hloop, quat_sums. reflexivity.
  - apply fold_left_pointwise. intros [[[a b] c] d] i.
    destruct (Sketch.quatBuffer s !! i); reflexivity.
Qed.

(** *** [setup] *)

Local Abbreviation init_step :=
  (fun (s : Sketch.state) (i : nat) =>
     Sketch.set_sensor (Z.of_nat i) zero
       (Sketch.set_quat (Z.of_nat i) Sketch.identity s)).

Lemma init_loop_quatBuffer l (s : Sketch.state) :
  Sketch.quatBuffer (fold_left init_step l s)
  = fold_left (fun b i => store b (Z.of_nat i) Sketch.identity) l
              (Sketch.quatBuffer s).
Proof. revert s. induction l as [|i l IH]; intros s; [reflexivity|apply IH]. Qed.

Lemma init_loop_sensorValueBuffer l (s : Sketch.state) :
  Sketch.sensorValueBuffer (fold_left init_step l s)
  = fold_left (fun b i => store b (Z.of_nat i) zero) l
              (Sketch.sensorValueBuffer s).
Proof. revert s. induction l as [|i l IH]; intros s; [reflexivity|apply IH]. Qed.

Lemma init_loop_bufferIndex l (s : Sketch.state) :
  Sketch.bufferIndex (fold_left init_step l s) = Sketch.bufferIndex s.
Proof.
  revert s. induction l as [|i l IH]; intros s; [reflexivity|].
  simpl. rewrite IH. reflexivity.
 Qed.

Lemma init_loop_Serial l (s : Sketch.state) :
  Sketch.Serial (fold_left init_step l s) = Sketch.Serial s.
Proof.
  revert s. induction l as [|i l IH]; intros s; [reflexivity|].
  simpl. rewrite IH. reflexivity.
 Qed.

Lemma init_loop_stores l (s : Sketch.state) :
  Sketch.stores (fold_left init_step l s)
  = Sketch.stores s
    ++ flat_map (fun i => [(Sketch.QuatBuffer, Z.of_nat i);
                           (Sketch.SensorValueBuffer, Z.of_nat i)]) l.
Proof.
  revert s. induction l as [|i l IH]; intros s; simpl.
  - now rewrite app_nil_r.
  - rewrite IH. simpl. rewrite <- !app_assoc. reflexivity.
Qed.

(** With the sensor present [setup] fills every slot, whatever it held,
    and leaves the sketch running. *)
Lemma setup_ready (s : Sketch.state) :
  length (Sketch.quatBuffer s) = n ->
  length (Sketch.sensorValueBuffer s) = n ->
  let s' := setup true s in
  Sketch.pc s' = Sketch.Running
  /\ Sketch.quatBuffer s' = replicate n Sketch.identity
  /\ Sketch.sensorValueBuffer s' = replicate n zero
  /\ Sketch.bufferIndex s' = Sketch.bufferIndex s
  /\ Sketch.Serial s' = (Sketch.Serial s ++ banner)%string
  /\ Sketch.stores s' = Sketch.stores s ++ init_stores.
Proof.
  intros Hq Hs. unfold Sketch.setup.
  cbn [negb Sketch.set_pc Sketch.pc Sketch.quatBuffer Sketch.sensorValueBuffer
       Sketch.bufferIndex Sketch.Serial Sketch.stores].
  rewrite init_loop_quatBuffer, init_loop_sensorValueBuffer,
    init_loop_bufferIndex, init_loop_Serial, init_loop_stores.
  cbn [Sketch.Serial_println Sketch.Serial_print Sketch.pc Sketch.quatBuffer
       Sketch.sensorValueBuffer Sketch.bufferIndex Sketch.Serial Sketch.stores].
  unfold Sketch.slots.
  repeat split.
  - rewrite <- Hq at 1.
    rewrite (fill_loop Sketch.identity [] (Sketch.quatBuffer s)).
    now rewrite Hq.
  - rewrite <- Hs at 1.
    rewrite (fill_loop zero [] (Sketch.sensorValueBuffer s)).
    now rewrite Hs.
  - unfold Sketch.banner. rewrite !append_assoc. reflexivity.
Qed.

Lemma setup_reset :
  setup true reset
  = {| Sketch.pc := Sketch.Running;
       Sketch.quatBuffer := replicate n Sketch.identity;
       Sketch.sensorValueBuffer := replicate n zero;
       Sketch.bufferIndex := 0;
       Sketch.Serial := banner;
       Sketch.stores := init_stores |}.
Proof.
  pose proof (setup_ready reset) as Hs.
  cbn [Sketch.reset Sketch.quatBuffer Sketch.sensorValueBuffer Sketch.bufferIndex
       Sketch.Serial Sketch.stores] in Hs.
  rewrite !length_replicate in Hs.
  destruct (Hs eq_refl eq_refl) as (Hpc & Hq & Hv & Hi & Hser & Hst).
  destruct (setup true reset) as [p q v i ser st].
  cbn in *. subst. reflexivity.
Qed.

(** Without the sensor [setup] never returns. *)
Lemma setup_fatal :
  setup false reset
  = {| Sketch.pc := Sketch.Fatal;
       Sketch.quatBuffer := replicate n Sketch.identity;
       Sketch.sensorValueBuffer := replicate n zero;
       Sketch.bufferIndex := 0;
       Sketch.Serial := (banner ++ complaint)%string;
       Sketch.stores := [] |}.
Proof. reflexivity. Qed.

(** *** Cycles *)

Lemma run_snoc begin inputs input :
  run begin (inputs ++ [input]) = cycle (run begin inputs) input.
Proof. unfold Sketch.run. now rewrite fold_left_app. Qed.

Lemma cursor_step (k : nat) :
  0 < windowSize ->
  Z.rem (Z.of_nat (k mod n) + 1) windowSize = Z.of_nat ((k + 1) mod n).
Proof.
  intros Hw.
  assert (Hn : (0 < n)%nat) by lia.
  rewrite Z.rem_mod_nonneg by lia.
  rewrite <- (Nat.Div0.add_mod_idemp_l k 1 n).
  rewrite (Nat2Z.inj_mod (k mod n + 1) n), Nat2Z.inj_add, Z2Nat.id by lia.
  reflexivity.
Qed.

(** The state after any number of cycles. *)
Lemma run_state (inputs : list sample) :
  0 < windowSize ->
  let s := run true inputs in
  Sketch.pc s = Sketch.Running
  /\ Sketch.quatBuffer s = ring n Sketch.identity (quats inputs)
  /\ Sketch.sensorValueBuffer s = ring n zero (scalars inputs)
  /\ Sketch.bufferIndex s = Z.of_nat (length inputs mod n)
  /\ Sketch.stores s = init_stores ++ trajectory (length inputs).
Proof.
  intros Hw. assert (Hn : (0 < n)%nat) by lia.
  induction inputs as [|input inputs IH] using rev_ind.
  - unfold Sketch.run. simpl fold_left. rewrite setup_reset. cbn.
    rewrite !ring_nil, Nat.Div0.mod_0_l, app_nil_r. auto.
  - destruct IH as (Hpc & Hq & Hv & Hi & Hst).
    cbv zeta. rewrite run_snoc. unfold Sketch.cycle. rewrite Hpc.
    rewrite loop_pc, loop_quatBuffer, loop_sensorValueBuffer,
      loop_bufferIndex, loop_stores.
    rewrite Hq, Hv, Hi, Hst, Hpc.
    unfold store. rewrite Nat2Z.id.
    unfold Sketch.quats, Sketch.scalars. rewrite !map_app. simpl map.
    rewrite length_app. simpl length.
    repeat split.
    + rewrite <- ring_snoc by exact Hn. now rewrite length_map.
    + rewrite <- ring_snoc by exact Hn. now rewrite length_map.
    + apply cursor_step; exact Hw.
    + unfold Sketch.trajectory. rewrite Nat.add_1_r, seq_S, flat_map_app. simpl.
      rewrite <- app_assoc.
      rewrite Nat2Z.inj_mod, Z2Nat.id by lia. reflexivity.
Qed.

Lemma run_lengths (inputs : list sample) :
  0 < windowSize ->
  length (Sketch.quatBuffer (run true inputs)) = n
  /\ length (Sketch.sensorValueBuffer (run true inputs)) = n.
Proof.
  intros Hw. destruct (run_state inputs Hw) as (_ & Hq & Hv & _).
  rewrite Hq, Hv. split; apply ring_length.
Qed.

(** A sketch in [while (1);] stays there, whatever is read. *)
Lemma run_fatal (inputs : list sample) :
  run false inputs = setup false reset.
Proof.
  unfold Sketch.run.
  induction inputs as [|input inputs IH]; [reflexivity|exact IH].
Qed.

Lemma run_pc (inputs : list sample) :
  Sketch.pc (run true inputs) = Sketch.Running.
Proof.
  induction inputs as [|input inputs IH] using rev_ind.
  - unfold Sketch.run. cbn [fold_left]. now rewrite setup_reset.
  - rewrite run_snoc. unfold Sketch.cycle. now rewrite IH, loop_pc.
Qed.

Lemma frames_snoc (inputs : list sample) (input : sample) :
  frames (inputs ++ [input])
  = frames inputs
    ++ [Sketch.frame (averageQuat (run true (inputs ++ [input])))
                     (averageSensor (run true (inputs ++ [input])))].
Proof.
  unfold Sketch.frames. rewrite length_app. cbn [length].
  rewrite Nat.add_1_r, seq_S, map_app. cbn [map]. cbv zeta.
  f_equal.
  - apply map_ext_in. intros c Hc. apply in_seq in Hc.
    rewrite take_app_le by lia. reflexivity.
  - rewrite take_ge by (rewrite length_app; cbn [length]; lia). reflexivity.
Qed.

Lemma concat_snoc (l : list string) (x : string) :
  fold_right String.append EmptyString (l ++ [x])
  = (fold_right String.append EmptyString l ++ x)%string.
Proof.
  induction l as [|f l IH]; cbn [fold_right app].
  - apply append_nil_r.
  - now rewrite IH, append_assoc.
Qed.

Lemma run_Serial (inputs : list sample) :
  Sketch.Serial (run true inputs)
  = (banner ++ fold_right String.append EmptyString (frames inputs))%string.
Proof.
  induction inputs as [|input inputs IH] using rev_ind.
  - unfold Sketch.run. cbn [fold_left]. rewrite setup_reset. reflexivity.
  - assert (Hrun : run true (inputs ++ [input]) = loop input (run true inputs)).
    { rewrite run_snoc. unfold Sketch.cycle. now rewrite run_pc. }
    rewrite frames_snoc, concat_snoc, Hrun, loop_Serial, IH, append_assoc.
    reflexivity.
Qed.

Lemma frames_length (inputs : list sample) :
  length (frames inputs) = length inputs.
Proof. unfold Sketch.frames. now rewrite length_map, length_seq. Qed.

Lemma writes_to_trajectory (a : Sketch.array) (C : nat) :
  writes_to a (trajectory C) = map (fun c => Z.of_nat c mod windowSize) (seq 0 C).
Proof.
  unfold Sketch.writes_to, Sketch.trajectory.
  induction (seq 0 C) as [|c l IH]; [reflexivity|].
  simpl. rewrite <- IH. destruct a; reflexivity.
Qed.

(** *** The claims about the sketch *)

(** C1. Once at least [windowSize] cycles have run (for any
    [windowSize >= 1] and any readings), the scalar buffer holds exactly the
    last [windowSize] values written, the newest before the cursor and the
    oldest from the cursor on, and [averageSensor] is the sum of these slots
    divided by [windowSize]: their arithmetic mean, in whatever order they
    are summed as soon as addition is associative and commutative.  After
    exactly [windowSize + 1] cycles slot 0 holds sample [windowSize + 1] and
    the other slots samples [2 .. windowSize]: sample 1 is gone. *)
Theorem scalar_average_last_window (inputs : list sample) :
  1 <= windowSize ->
  (n <= length inputs)%nat ->
  let s := run true inputs in
  let recent := lastn n (scalars inputs) in
  let r := (length inputs mod n)%nat in
  Permutation (Sketch.sensorValueBuffer s) recent
  /\ Sketch.sensorValueBuffer s = drop (n - r) recent ++ take (n - r) recent
  /\ averageSensor s = Sketch.mean (Sketch.sensorValueBuffer s)
  /\ ((forall a b c : F, fadd (fadd a b) c = fadd a (fadd b c)) ->
      (forall a b : F, fadd a b = fadd b a) ->
      averageSensor s = Sketch.mean recent)
  /\ (length inputs = S n ->
      Sketch.sensorValueBuffer s
      = drop n (scalars inputs) ++ take (n - 1) (drop 1 (scalars inputs))).
Proof.
  intros Hw Hk s recent r.
  destruct (run_state inputs ltac:(lia)) as (_ & _ & Hv & _).
  destruct (run_lengths inputs ltac:(lia)) as (_ & Hlen).
  fold s in Hv, Hlen.
  assert (Hlk : length (scalars inputs) = length inputs)
    by (unfold Sketch.scalars; apply length_map).
  assert (Hring : Sketch.sensorValueBuffer s
                  = drop (n - r) recent ++ take (n - r) recent).
  { rewrite Hv. unfold ring. rewrite window_full by lia.
    now rewrite Hlk. }
  assert (Hperm : Permutation (Sketch.sensorValueBuffer s) recent).
  { rewrite Hring, Permutation_app_comm, take_drop. reflexivity. }
  assert (Hmean : averageSensor s = Sketch.mean (Sketch.sensorValueBuffer s))
    by (apply averageSensor_mean; [lia | exact Hlen]).
  split; [exact Hperm|]. split; [exact Hring|]. split; [exact Hmean|]. split.
  - intros Hassoc Hcomm. rewrite Hmean. unfold Sketch.mean.
    rewrite (Permutation_length Hperm).
    f_equal. apply fold_left_perm; assumption.
  - intros HS. rewrite Hring. unfold recent, lastn, r.
    rewrite Hlk, HS.
    replace (S n - n)%nat with 1%nat by lia.
    assert (Hn : (0 < n)%nat) by lia.
    destruct (decide (n = 1)%nat) as [E|E].
    + rewrite E. simpl Nat.modulo. rewrite Nat.sub_0_r.
      rewrite take_ge by (rewrite length_drop; lia).
      rewrite drop_drop.
      rewrite (drop_ge _ (1 + 1)) by lia.
      simpl. rewrite take_0, app_nil_r. reflexivity.
    + replace (S n mod n)%nat with 1%nat.
      * rewrite drop_drop. f_equal. f_equal. lia.
      * replace (S n) with (1 + 1 * n)%nat by lia.
        rewrite Nat.Div0.mod_add. symmetry. apply Nat.mod_small. lia.
Qed.

(** C3. The cursor is an integer of [0, windowSize) that every cycle moves
    on by one, back to 0 at [windowSize].  A cycle stores what it read into
    both buffers at the cursor it started with: after the cycle the slot of
    each buffer at that cursor holds the orientation and the scaled reading
    of this cycle, and every other slot is as it was.  So after [C] cycles
    each buffer has been stored into [C] times, at the indices
    [0 mod windowSize], ..., [(C-1) mod windowSize], and the two buffers
    are what writing the [C] orientations, and the [C] scaled readings, one
    by one at that cursor leaves. *)
Theorem cursor_lockstep (inputs : list sample) (input : sample) :
  1 <= windowSize ->
  let s := run true inputs in
  let s' := cycle s input in
  let C := length inputs in
  let cursor := Z.to_nat (Sketch.bufferIndex s) in
  (0 <= Sketch.bufferIndex s < windowSize)
  /\ Sketch.bufferIndex s = Z.of_nat C mod windowSize
  /\ Sketch.bufferIndex s'
     = (if Sketch.bufferIndex s + 1 =? windowSize then 0
        else Sketch.bufferIndex s + 1)
  /\ Sketch.quatBuffer s' !! cursor = Some (fst input)
  /\ Sketch.sensorValueBuffer s' !! cursor
     = Some (Sketch.normalize (snd input))
  /\ (forall i, i <> cursor ->
      Sketch.quatBuffer s' !! i = Sketch.quatBuffer s !! i
      /\ Sketch.sensorValueBuffer s' !! i = Sketch.sensorValueBuffer s !! i)
  /\ Sketch.quatBuffer s = ring n Sketch.identity (quats inputs)
  /\ Sketch.sensorValueBuffer s = ring n zero (scalars inputs)
  /\ Sketch.stores s'
     = Sketch.stores s ++ [(Sketch.QuatBuffer, Sketch.bufferIndex s);
                           (Sketch.SensorValueBuffer, Sketch.bufferIndex s)]
  /\ Sketch.stores s = init_stores ++ trajectory C
  /\ writes_to Sketch.QuatBuffer (trajectory C)
     = map (fun c => Z.of_nat c mod windowSize) (seq 0 C)
  /\ writes_to Sketch.SensorValueBuffer (trajectory C)
     = map (fun c => Z.of_nat c mod windowSize) (seq 0 C)
  /\ length (writes_to Sketch.QuatBuffer (trajectory C)) = C
  /\ length (writes_to Sketch.SensorValueBuffer (trajectory C)) = C.
Proof.
  intros Hw s s' C cursor.
  destruct (run_state inputs ltac:(lia)) as (Hpc & Hq & Hv & Hi & Hst).
  destruct (run_lengths inputs ltac:(lia)) as (Hlq & Hlv).
  fold s in Hpc, Hq, Hv, Hi, Hst, Hlq, Hlv. fold C in Hi, Hst.
  assert (Hn : (0 < n)%nat) by lia.
  assert (Hidx : Sketch.bufferIndex s = Z.of_nat C mod windowSize).
  { rewrite Hi, Nat2Z.inj_mod, Z2Nat.id by lia. reflexivity. }
  assert (Hrange : 0 <= Sketch.bufferIndex s < windowSize).
  { rewrite Hidx. apply Z.mod_pos_bound. lia. }
  assert (Hs' : s' = loop input s)
    by (unfold s', Sketch.cycle; now rewrite Hpc).
  assert (Hcursor : (cursor < n)%nat) by (unfold cursor; lia).
  split; [exact Hrange|]. split; [exact Hidx|].
  split; [|split; [|split; [|split]]].
  - rewrite Hs', loop_bufferIndex.
    rewrite Z.rem_mod_nonneg by lia.
    destruct (Z.eqb_spec (Sketch.bufferIndex s + 1) windowSize) as [E|E].
    + rewrite E. apply Z.mod_same. lia.
    + apply Z.mod_small. lia.
  - rewrite Hs', loop_quatBuffer. unfold store. fold cursor.
    apply list_lookup_insert_eq. rewrite Hlq. exact Hcursor.
  - rewrite Hs', loop_sensorValueBuffer. unfold store. fold cursor.
    apply list_lookup_insert_eq. rewrite Hlv. exact Hcursor.
  - intros i Hne. rewrite Hs', loop_quatBuffer, loop_sensorValueBuffer.
    unfold store. fold cursor.
    split; apply list_lookup_insert_ne; congruence.
  - split; [exact Hq|]. split; [exact Hv|].
    split; [rewrite Hs'; apply loop_stores|]. split; [exact Hst|].
    rewrite !writes_to_trajectory, length_map, length_seq. auto.
Qed.

(** C7. Before the window is full (fewer than [windowSize] cycles) the
    buffers hold the values written so far followed by the fill values of
    [setup], the identity quaternion (1, 0, 0, 0) and the scalar 0, and the
    two averages are the means over these [windowSize] slots. *)
Theorem averages_before_full_window (inputs : list sample) :
  1 <= windowSize ->
  (length inputs < n)%nat ->
  let s := run true inputs in
  let k := length inputs in
  let qs := quats inputs ++ replicate (n - k) (imu.mk (of_int 1) zero zero zero) in
  let vs := scalars inputs ++ replicate (n - k) zero in
  Sketch.quatBuffer s = qs
  /\ Sketch.sensorValueBuffer s = vs
  /\ averageSensor s = Sketch.mean vs
  /\ averageQuat s
     = imu.mk (Sketch.mean (map imu.w qs)) (Sketch.mean (map imu.x qs))
              (Sketch.mean (map imu.y qs)) (Sketch.mean (map imu.z qs)).
Proof.
  intros Hw Hk s k qs vs.
  destruct (run_state inputs ltac:(lia)) as (_ & Hq & Hv & _).
  destruct (run_lengths inputs ltac:(lia)) as (Hlq & Hlv).
  fold s in Hq, Hv, Hlq, Hlv.
  assert (Hqs : Sketch.quatBuffer s = qs).
  { rewrite Hq, ring_short by (unfold Sketch.quats; rewrite length_map; exact Hk).
    unfold qs, k, Sketch.quats. now rewrite length_map. }
  assert (Hvs : Sketch.sensorValueBuffer s = vs).
  { rewrite Hv, ring_short by (unfold Sketch.scalars; rewrite length_map; exact Hk).
    unfold vs, k, Sketch.scalars. now rewrite length_map. }
  repeat split; try assumption.
  - rewrite averageSensor_mean by (lia || exact Hlv). now rewrite Hvs.
  - rewrite averageQuat_mean by (lia || exact Hlq). now rewrite Hqs.
Qed.

(** C8. [averageQuat] returns, component by component, the arithmetic mean
    of the [windowSize] stored quaternions, and nothing else is done to
    it. *)
Theorem averageQuat_componentwise (s : Sketch.state) :
  0 <= windowSize ->
  length (Sketch.quatBuffer s) = n ->
  let component (c : imu.Quaternion F -> F) :=
    fdiv (fold_left fadd (map c (Sketch.quatBuffer s)) zero) (of_int windowSize) in
  averageQuat s
  = imu.mk (component imu.w) (component imu.x) (component imu.y) (component imu.z).
Proof.
  intros Hw Hlen component.
  rewrite averageQuat_mean by assumption.
  unfold Sketch.mean, component.
  rewrite !length_map, Hlen, Z2Nat.id by exact Hw. reflexivity.
Qed.

(** C6. When [bno.begin()] fails the sketch is in its [Fatal] phase for
    ever: a cycle changes nothing, no element of a buffer is ever stored,
    and the serial text stays the banner and the complaint of [setup], none
    of whose lines the controller takes for a frame.  Nothing else leads to
    [Fatal]. *)
Theorem fatal_without_sensor (inputs : list sample) (input : sample) :
  let s := run false inputs in
  Sketch.pc s = Sketch.Fatal
  /\ cycle s input = s
  /\ Sketch.stores s = []
  /\ Sketch.Serial s = (banner ++ complaint)%string
  /\ Forall (fun line => CombinedController.IsValidQuaternionData line = false)
            (CombinedController.Split LF (Sketch.Serial s))
  /\ (forall begin inputs',
        Sketch.pc (run begin inputs') = Sketch.Fatal <-> begin = false).
Proof.
  intros s. unfold s. rewrite run_fatal, setup_fatal.
  split; [reflexivity|]. split; [reflexivity|]. split; [reflexivity|].
  split; [reflexivity|]. split.
  - cbn [Sketch.Serial]. vm_compute. repeat constructor.
  - intros begin inputs'. destruct begin.
    + rewrite run_pc. split; discriminate.
    + rewrite run_fatal, setup_fatal. split; reflexivity.
Qed.

End SketchFacts.

(** ** The syringe firmware on exact numbers *)

Lemma exact_add_assoc (a b c : Q) : fadd (fadd a b) c = fadd a (fadd b c).
Proof.
  cbn. apply Qred_complete. rewrite !Qred_correct. symmetry. apply Qplus_assoc.
Qed.

Lemma exact_add_comm (a b : Q) : fadd a b = fadd b a.
Proof. cbn. apply Qred_complete. apply Qplus_comm. Qed.

Lemma normalize_exact (raw : Z) :
  (Sketch.normalize raw == inject_Z raw / 4095 * (-1) + 1)%Q.
Proof.
  unfold Sketch.normalize. cbn. rewrite !Qred_correct. reflexivity.
Qed.

(** C9. Every cycle stores at the cursor the reading scaled by
    [raw / 4095 * -1 + 1] and nothing else: readings of [0 .. 4095] land in
    [0, 1], a reading above 4095 gives a negative value and a negative
    reading a value above 1, and these are stored and averaged as they are;
    the scalar sent in the frame is the plain mean of the stored values. *)
Theorem scalar_scaled_not_clamped (windowSize : Z)
    (inputs : list (@Sketch.sample Q)) (rawQuat : imu.Quaternion Q) (raw : Z) :
  1 <= windowSize ->
  let s := Sketch.run windowSize true inputs in
  let s' := Sketch.cycle windowSize s (rawQuat, raw) in
  let value := Sketch.normalize raw in
  (value == inject_Z raw / 4095 * (-1) + 1)%Q
  /\ Sketch.sensorValueBuffer s' !! Z.to_nat (Sketch.bufferIndex s) = Some value
  /\ (0 <= raw <= 4095 -> (0 <= value <= 1)%Q)
  /\ (4095 < raw -> (value < 0)%Q)
  /\ (raw < 0 -> (1 < value)%Q)
  /\ Sketch.Serial s'
     = (Sketch.Serial s
        ++ Sketch.frame (Sketch.averageQuat windowSize s')
                        (Sketch.mean (Sketch.sensorValueBuffer s')))%string.
Proof.
  intros Hw s s' value.
  pose proof (normalize_exact raw) as Hval. fold value in Hval.
  assert (Hlin : (value == inject_Z raw * (1 # 4095) * (-1) + 1)%Q)
    by (rewrite Hval; reflexivity).
  destruct (run_state windowSize inputs ltac:(lia)) as (Hpc & _ & _ & Hi & _).
  destruct (run_lengths windowSize inputs ltac:(lia)) as (_ & Hlen).
  fold s in Hpc, Hi, Hlen.
  assert (Hs' : s' = Sketch.loop windowSize (rawQuat, raw) s)
    by (unfold s', Sketch.cycle; now rewrite Hpc).
  split; [exact Hval|]. split; [|split; [|split; [|split]]].
  - rewrite Hs', loop_sensorValueBuffer. unfold store. cbn [snd].
    apply list_lookup_insert_eq.
    rewrite Hlen, Hi, Nat2Z.id. apply Nat.mod_upper_bound. lia.
  - intros [Hlo Hhi]. rewrite Hlin.
    rewrite Zle_Qle in Hlo, Hhi. revert Hlo Hhi.
    change (inject_Z 0) with 0%Q. change (inject_Z 4095) with 4095%Q.
    generalize (inject_Z raw). intros r Hlo Hhi. split; lra.
  - intros Hhi. rewrite Hlin.
    rewrite Zlt_Qlt in Hhi. revert Hhi.
    change (inject_Z 4095) with 4095%Q.
    generalize (inject_Z raw). intros r Hhi. lra.
  - intros Hlo. rewrite Hlin.
    rewrite Zlt_Qlt in Hlo. revert Hlo.
    change (inject_Z 0) with 0%Q.
    generalize (inject_Z raw). intros r Hlo. lra.
  - rewrite Hs', loop_Serial. f_equal. f_equal.
    apply averageSensor_mean; [lia|].
    rewrite loop_sensorValueBuffer. unfold store.
    now rewrite length_insert.
Qed.

(** *** The sketch run on concrete readings *)

Example four_cycles_buffer :
  Sketch.sensorValueBuffer (Sketch.run 3 true four_cycles)
  = [(2 # 5)%Q; (4 # 5)%Q; (3 # 5)%Q].
Proof. vm_compute. reflexivity. Qed.

Example four_cycles_average :
  Sketch.averageSensor 3 (Sketch.run 3 true four_cycles) = (3 # 5)%Q.
Proof. vm_compute. reflexivity. Qed.

Example four_cycles_cursor :
  map (fun c => Sketch.bufferIndex (Sketch.run 3 true (take c four_cycles)))
      [0; 1; 2; 3; 4]%nat
  = [0; 1; 2; 0; 1].
Proof. vm_compute. reflexivity. Qed.

Example one_cycle_text :
  Sketch.Serial (Sketch.run 10 true [(unit_w, 2048)])
  = ("Orientation Sensor Test" ++ CRLF ++ CRLF
     ++ "Quat W:1.0000, X:0.0000, Y:0.0000, Z:0.0000,0.05" ++ CRLF)%string.
Proof. vm_compute. reflexivity. Qed.

(** The mean of unit quaternions is not a unit quaternion: after these four
    cycles the buffer holds three unit quaternions and the squared norm of
    their average is 5/9. *)
Example average_not_renormalized :
  let s := Sketch.run 3 true four_cycles in
  Forall (fun q => norm2 q == 1)%Q (Sketch.quatBuffer s)
  /\ Sketch.averageQuat 3 s = imu.mk (1 # 3)%Q (2 # 3)%Q 0%Q 0%Q
  /\ (norm2 (Sketch.averageQuat 3 s) == 5 # 9)%Q.
Proof.
  vm_compute. split; [|split]; try reflexivity.
  repeat constructor.
Qed.

(** A reading beyond full scale is stored and sent below zero. *)
Example beyond_full_scale :
  let s := Sketch.run 2 true [(unit_w, 8190); (unit_w, 8190)] in
  Sketch.sensorValueBuffer s = [(-1)%Q; (-1)%Q]
  /\ Sketch.Serial s
     = ("Orientation Sensor Test" ++ CRLF ++ CRLF
        ++ "Quat W:1.0000, X:0.0000, Y:0.0000, Z:0.0000,-0.50" ++ CRLF
        ++ "Quat W:1.0000, X:0.0000, Y:0.0000, Z:0.0000,-1.00" ++ CRLF)%string.
Proof. vm_compute. split; reflexivity. Qed.

(** The same four cycles in binary32: the slots hold the same samples, in
    the same places. *)
Example four_cycles_binary32 :
  Sketch.sensorValueBuffer
    (Sketch.run (H0 := fun _ _ => EmptyString) 3 true
       (map (fun raw => (imu.mk (B32.of_Z 1) (B32.of_Z 0) (B32.of_Z 0) (B32.of_Z 0), raw))
            [0; 819; 1638; 2457]))
  = [Sketch.normalize 2457; Sketch.normalize 819; Sketch.normalize 1638].
Proof. vm_compute. reflexivity. Qed.

Lemma scalar_average_last_window_witness :
  let s := Sketch.run 3 true four_cycles in
  let recent := lastn (Z.to_nat 3) (Sketch.scalars four_cycles) in
  Permutation (Sketch.sensorValueBuffer s) recent
  /\ Sketch.averageSensor 3 s = Sketch.mean recent.
Proof.
  destruct (scalar_average_last_window 3 four_cycles) as (Hp & _ & _ & Hm & _).
  - lia.
  - simpl. lia.
  - split; [exact Hp|]. apply Hm.
    + exact exact_add_assoc.
    + exact exact_add_comm.
Defined.

Lemma cursor_lockstep_witness :
  let s := Sketch.run 3 true four_cycles in
  let s' := Sketch.cycle 3 s (unit_w, 0) in
  let C := length four_cycles in
  let cursor := Z.to_nat (Sketch.bufferIndex s) in
  (0 <= Sketch.bufferIndex s < 3)
  /\ Sketch.bufferIndex s = Z.of_nat C mod 3
  /\ Sketch.bufferIndex s'
     = (if Sketch.bufferIndex s + 1 =? 3 then 0
        else Sketch.bufferIndex s + 1)
  /\ Sketch.quatBuffer s' !! cursor = Some (fst (unit_w, 0))
  /\ Sketch.sensorValueBuffer s' !! cursor
     = Some (Sketch.normalize (snd (unit_w, 0)))
  /\ (forall i, i <> cursor ->
      Sketch.quatBuffer s' !! i = Sketch.quatBuffer s !! i
      /\ Sketch.sensorValueBuffer s' !! i = Sketch.sensorValueBuffer s !! i)
  /\ Sketch.quatBuffer s
     = ring (Z.to_nat 3) Sketch.identity (Sketch.quats four_cycles)
  /\ Sketch.sensorValueBuffer s
     = ring (Z.to_nat 3) (of_int 0 : Q) (Sketch.scalars four_cycles)
  /\ Sketch.stores s'
     = Sketch.stores s ++ [(Sketch.QuatBuffer, Sketch.bufferIndex s);
                           (Sketch.SensorValueBuffer, Sketch.bufferIndex s)]
  /\ Sketch.stores s = Sketch.init_stores 3 ++ Sketch.trajectory 3 C
  /\ Sketch.writes_to Sketch.QuatBuffer (Sketch.trajectory 3 C)
     = map (fun c => Z.of_nat c mod 3) (seq 0 C)
  /\ Sketch.writes_to Sketch.SensorValueBuffer (Sketch.trajectory 3 C)
     = map (fun c => Z.of_nat c mod 3) (seq 0 C)
  /\ length (Sketch.writes_to Sketch.QuatBuffer (Sketch.trajectory 3 C)) = C
  /\ length (Sketch.writes_to Sketch.SensorValueBuffer (Sketch.trajectory 3 C)) = C.
Proof.
  apply (cursor_lockstep 3 four_cycles (unit_w, 0)). lia.
Defined.

Example four_cycles_stores :
  let s := Sketch.run 3 true four_cycles in
  Sketch.bufferIndex s = 1
  /\ Sketch.bufferIndex (Sketch.cycle 3 s (unit_w, 0)) = 2
  /\ Sketch.writes_to Sketch.QuatBuffer (Sketch.trajectory 3 4) = [0; 1; 2; 0]
  /\ Sketch.writes_to Sketch.SensorValueBuffer (Sketch.trajectory 3 4) = [0; 1; 2; 0]
  /\ Sketch.stores s
     = [(Sketch.QuatBuffer, 0); (Sketch.SensorValueBuffer, 0);
        (Sketch.QuatBuffer, 1); (Sketch.SensorValueBuffer, 1);
        (Sketch.QuatBuffer, 2); (Sketch.SensorValueBuffer, 2);
        (Sketch.QuatBuffer, 0); (Sketch.SensorValueBuffer, 0);
        (Sketch.QuatBuffer, 1); (Sketch.SensorValueBuffer, 1);
        (Sketch.QuatBuffer, 2); (Sketch.SensorValueBuffer, 2);
        (Sketch.QuatBuffer, 0); (Sketch.SensorValueBuffer, 0)].
Proof. vm_compute. repeat split; reflexivity. Qed.

Lemma averages_before_full_window_witness :
  let inputs := take 1 four_cycles in
  let s := Sketch.run 3 true inputs in
  let k := length inputs in
  let qs := Sketch.quats inputs
            ++ replicate (Z.to_nat 3 - k)
                 (imu.mk (of_int 1) (of_int 0) (of_int 0) (of_int 0 : Q)) in
  let vs := Sketch.scalars inputs ++ replicate (Z.to_nat 3 - k) (of_int 0 : Q) in
  Sketch.quatBuffer s = qs
  /\ Sketch.sensorValueBuffer s = vs
  /\ Sketch.averageSensor 3 s = Sketch.mean vs
  /\ Sketch.averageQuat 3 s
     = imu.mk (Sketch.mean (map imu.w qs)) (Sketch.mean (map imu.x qs))
              (Sketch.mean (map imu.y qs)) (Sketch.mean (map imu.z qs)).
Proof.
  apply (averages_before_full_window 3 (take 1 four_cycles)).
  - lia.
  - simpl. lia.
Defined.

Example one_cycle_of_three :
  let s := Sketch.run 3 true (take 1 four_cycles) in
  Sketch.quatBuffer s = [unit_w; unit_w; unit_w]
  /\ Sketch.sensorValueBuffer s = [1%Q; 0%Q; 0%Q]
  /\ Sketch.averageSensor 3 s = (1 # 3)%Q
  /\ Sketch.averageQuat 3 s = unit_w.
Proof. vm_compute. repeat split; reflexivity. Qed.

Lemma averageQuat_componentwise_witness :
  let s := Sketch.run 3 true four_cycles in
  let component (c : imu.Quaternion Q -> Q) :=
    fdiv (fold_left fadd (map c (Sketch.quatBuffer s)) (of_int 0)) (of_int 3) in
  Sketch.averageQuat 3 s
  = imu.mk (component imu.w) (component imu.x) (component imu.y) (component imu.z).
Proof.
  apply (averageQuat_componentwise 3 (Sketch.run 3 true four_cycles)).
  - lia.
  - reflexivity.
Defined.

Lemma scalar_scaled_not_clamped_witness :
  let s := Sketch.run 3 true four_cycles in
  let s' := Sketch.cycle 3 s (unit_w, 8190) in
  let value := Sketch.normalize 8190 in
  (value == inject_Z 8190 / 4095 * (-1) + 1)%Q
  /\ Sketch.sensorValueBuffer s' !! Z.to_nat (Sketch.bufferIndex s) = Some value
  /\ (0 <= 8190 <= 4095 -> (0 <= value <= 1)%Q)
  /\ (4095 < 8190 -> (value < 0)%Q)
  /\ (8190 < 0 -> (1 < value)%Q)
  /\ Sketch.Serial s'
     = (Sketch.Serial s
        ++ Sketch.frame (Sketch.averageQuat 3 s')
                        (Sketch.mean (Sketch.sensorValueBuffer s')))%string.
Proof.
  apply (scalar_scaled_not_clamped 3 four_cycles unit_w 8190). lia.
Defined.

(** ** The cheek firmware *)

(** *** Small integers in binary32 *)

Lemma B32_eqb_eq (a b : spec_float) : B32.eqb a b = true -> a = b.
Proof.
  destruct a as [s|s| |s m e], b as [t|t| |t m' e']; simpl; try discriminate.
  - intros E. apply Bool.eqb_prop in E. now subst.
  - intros E. apply Bool.eqb_prop in E. now subst.
  - reflexivity.
  - intros E. apply andb_prop in E. destruct E as [E He].
    apply andb_prop in E. destruct E as [Hs Hm].
    apply Bool.eqb_prop in Hs. apply Pos.eqb_eq in Hm. apply Z.eqb_eq in He.
    now subst.
Qed.

Lemma in_range (lo : Z) (len : nat) (v : Z) :
  lo <= v < lo + Z.of_nat len -> In v (range lo len).
Proof.
  intros Hv. unfold range. apply in_map_iff.
  exists (Z.to_nat (v - lo)). split; [lia|]. apply in_seq. lia.
Qed.

(** Subtracting a reading from a total of ten readings, and adding one to
    it, checked on every pair of integers the sketch can meet. *)
Lemma sub_checked :
  forallb
    (fun s =>
       forallb
         (fun o => B32.eqb (fsub (B32.of_Z s) (B32.of_Z o)) (B32.of_Z (s - o)))
         (range 0 101))
    (range 0 1001)
  = true.
Proof. vm_compute. reflexivity. Qed.

Lemma add_checked :
  forallb
    (fun t =>
       forallb
         (fun o => B32.eqb (fadd (B32.of_Z t) (B32.of_Z o)) (B32.of_Z (t + o)))
         (range 0 101))
    (range (-100) 1101)
  = true.
Proof. vm_compute. reflexivity. Qed.

Lemma binary32_sub_exact (s o : Z) :
  0 <= s <= 1000 -> 0 <= o <= 100 ->
  fsub (B32.of_Z s) (B32.of_Z o) = B32.of_Z (s - o).
Proof.
  intros Hs Ho.
  assert (Hin_s : In s (range 0 1001)) by (apply in_range; lia).
  assert (Hin_o : In o (range 0 101)) by (apply in_range; lia).
  pose proof sub_checked as Hc.
  rewrite forallb_forall in Hc. specialize (Hc s Hin_s).
  rewrite forallb_forall in Hc. specialize (Hc o Hin_o).
  apply B32_eqb_eq. exact Hc.
Qed.

Lemma binary32_add_exact (t o : Z) :
  -100 <= t <= 1000 -> 0 <= o <= 100 ->
  fadd (B32.of_Z t) (B32.of_Z o) = B32.of_Z (t + o).
Proof.
  intros Ht Ho.
  assert (Hin_t : In t (range (-100) 1101)) by (apply in_range; lia).
  assert (Hin_o : In o (range 0 101)) by (apply in_range; lia).
  pose proof add_checked as Hc.
  rewrite forallb_forall in Hc. specialize (Hc t Hin_t).
  rewrite forallb_forall in Hc. specialize (Hc o Hin_o).
  apply B32_eqb_eq. exact Hc.
Qed.

(** *** Sums of readings *)

Lemma Zsum_bounds (l : list Z) :
  Forall in_scale l -> 0 <= Zsum l <= 100 * Z.of_nat (length l).
Proof.
  induction 1 as [|v l Hv _ IH]; simpl; [lia|].
  unfold in_scale in Hv. lia.
Qed.

Lemma Zsum_insert (l : list Z) (i : nat) (v : Z) :
  (i < length l)%nat -> Zsum (<[i:=v]> l) = Zsum l - nth i l 0 + v.
Proof.
  revert i. induction l as [|o l IH]; intros i Hi; simpl in Hi; [lia|].
  destruct i as [|i]; simpl.
  - lia.
  - rewrite IH by lia. lia.
Qed.

Lemma nth_in_scale (l : list Z) (i : nat) : Forall in_scale l -> in_scale (nth i l 0).
Proof.
  intros Hl. destruct (Nat.lt_ge_cases i (length l)) as [Hi|Hi].
  - rewrite Forall_forall in Hl. apply Hl.
    apply list_elem_of_In. apply nth_In. exact Hi.
  - rewrite nth_overflow by exact Hi. unfold in_scale. lia.
Qed.

Lemma constrain_range (amt low high : Z) :
  low <= high -> low <= Cheek.constrain amt low high <= high.
Proof.
  intros Hlh. unfold Cheek.constrain.
  destruct (Z.ltb_spec amt low); [lia|].
  destruct (Z.ltb_spec high amt); lia.
Qed.

(** Summing the slots in order, in binary32, gives the integer sum. *)
Lemma binary32_sum_exact (l : list Z) (a : Z) :
  Forall in_scale l -> 0 <= a -> a + Zsum l <= 1000 ->
  fold_left (fun sum v => fadd sum (B32.of_Z v)) l (B32.of_Z a)
  = B32.of_Z (a + Zsum l).
Proof.
  intros Hl. revert a.
  induction Hl as [|v l Hv Hl IH]; intros a Ha Hs;
    cbn [fold_left Zsum] in *.
  - f_equal. lia.
  - pose proof (Zsum_bounds l Hl) as Hb. unfold in_scale in Hv.
    rewrite binary32_add_exact by lia.
    rewrite IH by lia. f_equal. lia.
Qed.

(** *** The running total *)

Section CheekFacts.
Context `{FloatPrint spec_float}.

Local Abbreviation state := (@Cheek.state spec_float).

Lemma Cheek_loop_readings (s : state) (analogRead : Z) :
  Cheek.readings (Cheek.loop s analogRead)
  = store (Cheek.readings s) (Cheek.readIndex s) (mapped analogRead).
Proof. reflexivity. Qed.

Lemma Cheek_loop_total (s : state) (analogRead : Z) :
  (Z.to_nat (Cheek.readIndex s) < length (Cheek.readings s))%nat ->
  Cheek.total (Cheek.loop s analogRead)
  = fadd (fsub (Cheek.total s)
               (of_int (Cheek.reading (Cheek.readings s) (Cheek.readIndex s))))
         (of_int (mapped analogRead)).
Proof.
  intros Hi. unfold Cheek.loop. cbn [Cheek.total]. f_equal. f_equal.
  unfold Cheek.reading, store.
  apply nth_lookup_Some with (d := 0).
  apply list_lookup_insert_eq. exact Hi.
Qed.

Lemma Cheek_loop_average (s : state) (analogRead : Z) :
  Cheek.average (Cheek.loop s analogRead)
  = fdiv (Cheek.total (Cheek.loop s analogRead)) (of_int Cheek.numSamples).
Proof. reflexivity. Qed.

Lemma Cheek_loop_readIndex (s : state) (analogRead : Z) :
  Cheek.readIndex (Cheek.loop s analogRead)
  = (if Cheek.numSamples <=? Cheek.readIndex s + 1 then 0
     else Cheek.readIndex s + 1).
Proof. reflexivity. Qed.

Lemma Cheek_inv_reset : Cheek_inv Cheek.reset.
Proof.
  unfold Cheek_inv. cbn. repeat split; try lia.
  repeat constructor; unfold in_scale; lia.
Qed.

Lemma Cheek_inv_loop (s : state) (analogRead : Z) :
  Cheek_inv s -> Cheek_inv (Cheek.loop s analogRead).
Proof.
  intros (Hlen & Hidx & Hscale & Htotal).
  assert (Hi : (Z.to_nat (Cheek.readIndex s) < length (Cheek.readings s))%nat) by lia.
  assert (Hnew : in_scale (mapped analogRead))
    by (apply constrain_range; lia).
  assert (Hscale' : Forall in_scale
            (store (Cheek.readings s) (Cheek.readIndex s) (mapped analogRead))).
  { unfold store. apply Forall_insert; assumption. }
  unfold Cheek_inv.
  rewrite Cheek_loop_total by exact Hi.
  rewrite Cheek_loop_readings, Cheek_loop_readIndex.
  split; [|split; [|split]].
  - unfold store. now rewrite length_insert.
  - unfold Cheek.numSamples.
    destruct (Z.leb_spec 10 (Cheek.readIndex s + 1)); lia.
  - exact Hscale'.
  - rewrite Htotal.
    pose proof (Zsum_bounds _ Hscale) as Hb. rewrite Hlen in Hb.
    pose proof (nth_in_scale (Cheek.readings s) (Z.to_nat (Cheek.readIndex s)) Hscale)
      as Hold.
    unfold in_scale in Hold, Hnew. unfold Cheek.reading.
    cbn [of_int binary32].
    rewrite binary32_sub_exact by lia.
    rewrite binary32_add_exact by lia.
    f_equal. unfold store. rewrite Zsum_insert by exact Hi. reflexivity.
Qed.

Lemma Cheek_inv_run (inputs : list Z) : Cheek_inv (Cheek.run inputs).
Proof.
  unfold Cheek.run.
  induction inputs as [|analogRead inputs IH] using rev_ind.
  - apply Cheek_inv_reset.
  - rewrite fold_left_app. simpl. apply Cheek_inv_loop, IH.
Qed.

Lemma Cheek_average_run (inputs : list Z) :
  Cheek.average (Cheek.run inputs)
  = fdiv (Cheek.total (Cheek.run inputs)) (of_int Cheek.numSamples).
Proof.
  unfold Cheek.run.
  destruct inputs as [|analogRead inputs] using rev_ind.
  - vm_compute. reflexivity.
  - rewrite fold_left_app. reflexivity.
Qed.

Lemma Cheek_rescan_sum (a : list Z) :
  length a = 10%nat -> Forall in_scale a ->
  Cheek.rescan a = fdiv (B32.of_Z (Zsum a)) (of_int Cheek.numSamples).
Proof.
  intros Hlen Hscale. unfold Cheek.rescan. f_equal.
  change (Z.to_nat Cheek.numSamples) with 10%nat. rewrite <- Hlen.
  rewrite (index_loop (fun sum v => fadd sum (of_int v)) [] a (of_int 0)).
  pose proof (Zsum_bounds a Hscale) as Hb. rewrite Hlen in Hb.
  cbn [of_int binary32].
  rewrite binary32_sum_exact by (assumption || lia).
  reflexivity.
Qed.

(** C2. The cheek firmware keeps its average with a running total: a cycle
    subtracts from the total the reading in the slot at the cursor, stores
    the new reading there, adds it to the total, and the average is the
    total divided by the number of slots; no cycle scans the slots.  After
    any sequence of cycles this average is the very binary32 number a scan
    of the ten slots from scratch gives, so the two agree within a relative
    tolerance of 1e-5. *)
Theorem running_total_matches_rescan (inputs : list Z) (analogRead : Z) :
  let s := Cheek.run inputs in
  let s' := Cheek.loop s analogRead in
  let old := Cheek.reading (Cheek.readings s) (Cheek.readIndex s) in
  let new := Cheek.constrain
               (Cheek.map (to_long (of_int analogRead : spec_float)) 250 100 0 100)
               0 100 in
  Cheek.readings s' = store (Cheek.readings s) (Cheek.readIndex s) new
  /\ Cheek.total s' = fadd (fsub (Cheek.total s) (of_int old)) (of_int new)
  /\ Cheek.average s' = fdiv (Cheek.total s') (of_int Cheek.numSamples)
  /\ Cheek.total s = B32.of_Z (Zsum (Cheek.readings s))
  /\ Cheek.average s = Cheek.rescan (Cheek.readings s)
  /\ within (1 # 100000) (Cheek.average s) (Cheek.rescan (Cheek.readings s)).
Proof.
  intros s s' old new.
  destruct (Cheek_inv_run inputs) as (Hlen & Hidx & Hscale & Htotal).
  fold s in Hlen, Hidx, Hscale, Htotal.
  assert (Havg : Cheek.average s = Cheek.rescan (Cheek.readings s)).
  { unfold s. rewrite Cheek_average_run. fold s.
    rewrite Cheek_rescan_sum by assumption. now rewrite Htotal. }
  split; [reflexivity|]. split; [apply Cheek_loop_total; lia|].
  split; [reflexivity|]. split; [exact Htotal|]. split; [exact Havg|].
  unfold within. rewrite Havg.
  generalize (B32.to_Q (Cheek.rescan (Cheek.readings s))). intros q.
  assert (E : (q - q == 0)%Q) by ring.
  rewrite E. change (Qabs 0) with 0%Q.
  apply Qmult_le_0_compat; [discriminate | apply Qabs_nonneg].
Qed.

End CheekFacts.

Example cheek_twelve_cycles :
  let s := Cheek.run (H0 := fun _ _ => EmptyString)
             [100; 250; 175; 300; 0; 120; 130; 140; 150; 160; 170; 180] in
  Cheek.readings s = [53; 46; 50; 0; 100; 86; 80; 73; 66; 60]
  /\ Cheek.total s = B32.of_Z 614
  /\ Cheek.average s = Cheek.rescan (Cheek.readings s)
  /\ Cheek.average s = S754_finite false 16095642 (-18)
  /\ (B32.to_Q (Cheek.average s) == 8047821 # 131072)%Q.
Proof. vm_compute. repeat split; reflexivity. Qed.

(** ** The Unity controller *)

Section ControllerFacts.
Context {F : Type} `{FloatOps F} `{CombinedController.FloatParse F}.

Import CombinedController.

Local Abbreviation scene := (@CombinedController.scene F).

Lemma bind_ok {A B} (m : stmt A) (k : A -> stmt B) (s s1 : scene) (a : A) :
  m s = (Ok a, s1) -> bind m k s = k a s1.
Proof. intros E. unfold bind. now rewrite E. Qed.

Lemma bind_throw {A B} (m : stmt A) (k : A -> stmt B) (s s1 : scene) e :
  m s = (Throw e, s1) -> bind m k s = (Throw e, s1).
Proof. intros E. unfold bind. now rewrite E. Qed.

(** Reading a number changes nothing, whether it succeeds or throws. *)
Lemma labelled_stmt (parts : list string) (i : nat) (s : scene) :
  match labelled (F:=F) parts i with
  | Some v => bind (element parts i) parse_labelled s = (Ok v, s)
  | None => exists Message,
      bind (element parts i) parse_labelled s = (Throw Message, s)
  end.
Proof.
  unfold labelled, parse_labelled, bind, element, lift.
  destruct (parts !! i) as [part|]; [|eexists; reflexivity].
  destruct (Split colon part !! 1%nat) as [text|]; [|eexists; reflexivity].
  destruct (float_Parse (F:=F) text); [reflexivity|eexists; reflexivity].
Qed.

Lemma plain_stmt (parts : list string) (i : nat) (s : scene) :
  match plain (F:=F) parts i with
  | Some v =>
      bind (element parts i) (fun text => lift (float_Parse (F:=F) text)) s = (Ok v, s)
  | None => exists Message,
      bind (element parts i) (fun text => lift (float_Parse (F:=F) text)) s
      = (Throw Message, s)
  end.
Proof.
  unfold plain, bind, element, lift.
  destruct (parts !! i) as [text|]; [|eexists; reflexivity].
  destruct (float_Parse (F:=F) text); [reflexivity|eexists; reflexivity].
Qed.

Local Ltac read_field lemma parts i s :=
  let Hf := fresh "Hf" in
  pose proof (lemma parts i s) as Hf;
  match type of Hf with
  | match ?o with _ => _ end =>
      destruct o;
      [ rewrite (bind_ok _ _ _ _ _ Hf); clear Hf
      | let Message := fresh "Message" in
        destruct Hf as [Message Hf];
        rewrite (bind_throw _ _ _ _ _ Hf) ]
  end.

(** The [try] block either applies the whole frame or throws before it
    has changed anything. *)
Lemma try_outcome (data : string) (s : scene) :
  match decode (F:=F) data with
  | Some frame => ApplyQuaternion_try data s = (Ok tt, applied frame s)
  | None => exists Message, ApplyQuaternion_try data s = (Throw Message, s)
  end.
Proof.
  unfold decode, ApplyQuaternion_try.
  set (parts := Split comma data).
  read_field labelled_stmt parts 0%nat s; [|eexists; reflexivity].
  read_field labelled_stmt parts 1%nat s; [|eexists; reflexivity].
  read_field labelled_stmt parts 2%nat s; [|eexists; reflexivity].
  read_field labelled_stmt parts 3%nat s; [|eexists; reflexivity].
  read_field plain_stmt parts 4%nat s; [|eexists; reflexivity].
  reflexivity.
Qed.

Lemma try_decoded (data : string) (s : scene) (frame : F * F * F * F * F) :
  decode (F:=F) data = Some frame ->
  ApplyQuaternion_try data s = (Ok tt, applied frame s).
Proof.
  intros Hd. pose proof (try_outcome data s) as Ht. now rewrite Hd in Ht.
Qed.

Lemma try_failed (data : string) (s : scene) :
  decode (F:=F) data = None ->
  exists Message, ApplyQuaternion_try data s = (Throw Message, s).
Proof.
  intros Hd. pose proof (try_outcome data s) as Ht. now rewrite Hd in Ht.
Qed.

(** C5. A line is applied only when it starts with ["Quat W:"], has at
    least five comma-separated fields and its five numbers parse.  A line
    that fails the shape test leaves the scene as it was, log included.  A
    line that passes it and has a number that does not parse leaves the
    rotation and the plunger position as they were (the failure is logged).
    Otherwise the whole frame is applied: there is no state in between. *)
Theorem frame_applied_whole_or_dropped (data : string) (s : scene) :
  let s' := Update (Some (Ok data)) s in
  IsValidQuaternionData data
  = (String.prefix "Quat W:" data && (5 <=? length (Split comma data))%nat)
  /\ (IsValidQuaternionData data = false -> s' = s)
  /\ (IsValidQuaternionData data = true ->
      forall frame, decode (F:=F) data = Some frame -> s' = applied frame s)
  /\ (IsValidQuaternionData data = true ->
      decode (F:=F) data = None ->
      targetObject_localRotation s' = targetObject_localRotation s
      /\ PlungerControl_localPosition s' = PlungerControl_localPosition s
      /\ exists Message,
           LogError s'
           = LogError s ++ [("Error parsing quaternion data: " ++ Message)%string])
  /\ (targetObject_localRotation s' <> targetObject_localRotation s
      \/ PlungerControl_localPosition s' <> PlungerControl_localPosition s ->
      IsValidQuaternionData data = true
      /\ exists frame, decode (F:=F) data = Some frame /\ s' = applied frame s).
Proof.
  intros s'.
  assert (Hdrop : IsValidQuaternionData data = false -> s' = s).
  { intros Hv. unfold s', Update. now rewrite Hv. }
  assert (Happly : IsValidQuaternionData data = true ->
                   forall frame, decode (F:=F) data = Some frame -> s' = applied frame s).
  { intros Hv frame Hd. unfold s', Update, ApplyQuaternion.
    now rewrite Hv, (try_decoded data s frame Hd). }
  assert (Hfail : IsValidQuaternionData data = true ->
                  decode (F:=F) data = None ->
                  exists Message,
                    s' = Debug_LogError ("Error parsing quaternion data: " ++ Message) s).
  { intros Hv Hd. destruct (try_failed data s Hd) as [Message Ht].
    exists Message. unfold s', Update, ApplyQuaternion. now rewrite Hv, Ht. }
  split; [reflexivity|]. split; [exact Hdrop|]. split; [exact Happly|]. split.
  - intros Hv Hd. destruct (Hfail Hv Hd) as [Message ->].
    split; [reflexivity|]. split; [reflexivity|]. exists Message. reflexivity.
  - intros Hchanged.
    destruct (IsValidQuaternionData data) eqn:Hv.
    + split; [reflexivity|].
      destruct (decode (F:=F) data) as [frame|] eqn:Hd.
      * exists frame. split; [reflexivity|]. now apply Happly.
      * exfalso. destruct (Hfail eq_refl eq_refl) as [Message Hs'].
        rewrite Hs' in Hchanged. destruct Hchanged as [Hc|Hc]; now apply Hc.
    + exfalso. rewrite (Hdrop eq_refl) in Hchanged.
      destruct Hchanged as [Hc|Hc]; now apply Hc.
Qed.

End ControllerFacts.

(** *** The controller run on concrete lines *)

Example good_line_decoded :
  CombinedController.decode good_line
  = Some ((1 # 2)%Q, (1 # 4)%Q, (-1 # 10)%Q, 0%Q, (3 # 4)%Q).
Proof. vm_compute. reflexivity. Qed.

Example good_line_applied :
  CombinedController.Update (Some (CombinedController.Ok good_line)) at_rest
  = {| CombinedController.targetObject_localRotation :=
         UnityEngine.Quaternion.mk (-1 # 4)%Q 0%Q (1 # 10)%Q (1 # 2)%Q;
       CombinedController.PlungerControl_localPosition :=
         UnityEngine.Vector3.mk (1 # 2)%Q (1 # 3)%Q (-253 # 40000)%Q;
       CombinedController.LogError := [] |}.
Proof. vm_compute. reflexivity. Qed.

Example garbage_dropped :
  CombinedController.Update (Some (CombinedController.Ok "garbage"%string)) at_rest
  = at_rest.
Proof. vm_compute. reflexivity. Qed.

Example bad_number_dropped :
  CombinedController.Update
    (Some (CombinedController.Ok "Quat W:abc, X:1,Y:1,Z:1,1"%string)) at_rest
  = CombinedController.Debug_LogError
      "Error parsing quaternion data: Input string was not in a correct format."
      at_rest.
Proof. vm_compute. reflexivity. Qed.

Example missing_colon_dropped :
  CombinedController.Update
    (Some (CombinedController.Ok "Quat W:1,2,3,4,5"%string)) at_rest
  = CombinedController.Debug_LogError
      "Error parsing quaternion data: Index was outside the bounds of the array."
      at_rest.
Proof. vm_compute. reflexivity. Qed.

(** Scalars beyond the nominal range stop at the ends of the travel. *)
Example out_of_range_scalars :
  UnityEngine.Vector3.z
    (CombinedController.PlungerControl_localPosition
       (CombinedController.Update
          (Some (CombinedController.Ok "Quat W:1, X:0, Y:0, Z:0,7.5"%string)) at_rest))
  = (93 # 10000)%Q
  /\ UnityEngine.Vector3.z
       (CombinedController.PlungerControl_localPosition
          (CombinedController.Update
             (Some (CombinedController.Ok "Quat W:1, X:0, Y:0, Z:0,-7.5"%string)) at_rest))
     = (-133 # 2500)%Q.
Proof. vm_compute. split; reflexivity. Qed.

(** A frame of the firmware read back by the controller. *)
Example firmware_to_controller :
  let sent := Sketch.frame (imu.mk 1%Q 0%Q 0%Q 0%Q) (1 # 2)%Q in
  sent = ("Quat W:1.0000, X:0.0000, Y:0.0000, Z:0.0000,0.50" ++ CRLF)%string
  /\ map (CombinedController.decode (F:=Q)) (CombinedController.Split LF sent)
     = [Some (1%Q, 0%Q, 0%Q, 0%Q, (1 # 2)%Q); None].
Proof. vm_compute. split; reflexivity. Qed.

(** *** Rounding *)

(** The clamp does no arithmetic: in binary32 too what it returns is
    neither below 0 nor above 1. *)
Lemma Clamp01_binary32 (t : spec_float) :
  fltb (CombinedController.Clamp01 t) (of_int 0) = false
  /\ fltb (of_int 1) (CombinedController.Clamp01 t) = false.
Proof.
  unfold CombinedController.Clamp01.
  destruct (fltb t (of_int 0)) eqn:E0; [split; reflexivity|].
  destruct (fltb (of_int 1) t) eqn:E1; [split; reflexivity|].
  split; assumption.
Qed.

(** The bounds above are those of exact arithmetic.  Evaluated in binary32,
    [a + (b - a) * 1] is not [b] for these two ends: the difference of the
    ends rounds to 1/16 and the sum lands one unit in the last place above
    [0.0093f]. *)
Example Lerp_binary32_upper_end :
  (decimal 93 4 : spec_float) = S754_finite false 9985799 (-30)
  /\ fsub (decimal 93 4) (fopp (decimal 532 4) : spec_float)
     = S754_finite false 8388608 (-27)
  /\ CombinedController.Lerp (fopp (decimal 532 4)) (decimal 93 4)
       (of_int 1 : spec_float)
     = S754_finite false 9985800 (-30).
Proof. vm_compute. repeat split; reflexivity. Qed.
(** ** The plunger in binary32 *)

(** The interpolation at the two ends, and at every scalar with two
    decimals between them. *)
Lemma travel_checked :
  forallb
    (fun k =>
       let z := CombinedController.Lerp pushed32 pulled32 (hundredth k) in
       let z' := CombinedController.Lerp pushed32 pulled32 (hundredth (k + 1)) in
       is_number z
       && SFleb pushed32 z && SFleb z' above_pulled32
       && SFleb z pulled32 && SFltb z z')
    (range 0 100)
  = true.
Proof. vm_compute. reflexivity. Qed.

Lemma travel_step (k : Z) :
  0 <= k < 100 ->
  let z := CombinedController.Lerp pushed32 pulled32 (hundredth k) in
  let z' := CombinedController.Lerp pushed32 pulled32 (hundredth (k + 1)) in
  is_number z = true
  /\ SFleb pushed32 z = true /\ SFleb z' above_pulled32 = true
  /\ SFleb z pulled32 = true /\ SFltb z z' = true.
Proof.
  intros Hk z z'.
  pose proof travel_checked as Hc. rewrite forallb_forall in Hc.
  specialize (Hc k (in_range 0 100 k ltac:(lia))). cbv zeta in Hc.
  fold z z' in Hc.
  apply andb_prop in Hc. destruct Hc as [Hc Hlt].
  apply andb_prop in Hc. destruct Hc as [Hc Hb].
  apply andb_prop in Hc. destruct Hc as [Hc Hhi].
  apply andb_prop in Hc. destruct Hc as [Hnum Hlo].
  repeat split; assumption.
Qed.

Lemma Lerp_below (t : spec_float) :
  fltb t (of_int 0) = true ->
  CombinedController.Lerp pushed32 pulled32 t = pushed32.
Proof.
  intros Ht. unfold CombinedController.Lerp, CombinedController.Clamp01.
  rewrite Ht. vm_compute. reflexivity.
Qed.

Lemma Lerp_above (t : spec_float) :
  fltb t (of_int 0) = false -> fltb (of_int 1) t = true ->
  CombinedController.Lerp pushed32 pulled32 t = above_pulled32.
Proof.
  intros H0 H1. unfold CombinedController.Lerp, CombinedController.Clamp01.
  rewrite H0, H1. vm_compute. reflexivity.
Qed.

Lemma fltb_not_both (t : spec_float) :
  fltb t (of_int 0) = true -> fltb (of_int 1) t = true -> False.
Proof.
  cbn [fltb of_int binary32]. unfold SFltb.
  destruct t as [s|s| |s m e]; vm_compute; try discriminate.
  - destruct s; discriminate.
  - destruct s; [|discriminate]. intros _.
    destruct (e ?= -23)%Z; discriminate.
Qed.

(** The order of binary32 is transitive. *)
Lemma SFltb_trans (x y z : spec_float) :
  SFltb x y = true -> SFltb y z = true -> SFltb x z = true.
Proof.
  unfold SFltb, SFcompare.
  destruct x as [sx|sx| |sx mx ex], y as [sy|sy| |sy my ey],
    z as [sz|sz| |sz mz ez];
    try destruct sx; try destruct sy; try destruct sz;
    try discriminate; try reflexivity;
    rewrite ?Pos.compare_cont_spec; cbn [Pos.switch_Eq CompOpp];
    destruct (Z.compare_spec ex ey), (Z.compare_spec ey ez),
      (Z.compare_spec ex ez);
    try discriminate; try reflexivity; try lia; subst;
    destruct (Pos.compare_spec mx my), (Pos.compare_spec my mz),
      (Pos.compare_spec mx mz);
    cbn [CompOpp]; try discriminate; try reflexivity; lia.
Qed.

(** Scalars with two decimals in their order give positions in that
    order. *)
Lemma travel_order (k : Z) (d : nat) :
  0 <= k -> k + Z.of_nat (S d) <= 100 ->
  SFltb (CombinedController.Lerp pushed32 pulled32 (hundredth k))
        (CombinedController.Lerp pushed32 pulled32
           (hundredth (k + Z.of_nat (S d))))
  = true.
Proof.
  intros Hk. induction d as [|d IH]; intros Hd.
  - destruct (travel_step k ltac:(lia)) as (_ & _ & _ & _ & Hlt).
    exact Hlt.
  - apply (SFltb_trans _ _ _ (IH ltac:(lia))).
    destruct (travel_step (k + Z.of_nat (S d)) ltac:(lia))
      as (_ & _ & _ & _ & Hlt).
    cbv zeta in Hlt.
    replace (k + Z.of_nat (S (S d))) with (k + Z.of_nat (S d) + 1) by lia.
    exact Hlt.
Qed.

Lemma mag_le_number (r : spec_float) (mf : positive) (ef : Z) :
  mag_le r mf ef -> is_number r = true.
Proof. destruct r; cbn; intros H; try contradiction; reflexivity. Qed.

(** The travel in binary32: whatever number the scalar is, the plunger
    stays between the pushed end and the float next above the pulled end. *)
Lemma Lerp_within (t : spec_float) :
  valid_binary 24 128 t = true -> t <> S754_nan ->
  let z := CombinedController.Lerp pushed32 pulled32 t in
  is_number z = true /\ SFleb pushed32 z = true /\ SFleb z above_pulled32 = true.
Proof.
  intros Hv Hnan z. subst z.
  destruct (fltb t (of_int 0)) eqn:H0.
  { rewrite (Lerp_below t H0). vm_compute. auto. }
  destruct (fltb (of_int 1) t) eqn:H1.
  { rewrite (Lerp_above t H0 H1). vm_compute. auto. }
  unfold CombinedController.Lerp, CombinedController.Clamp01. rewrite H0, H1.
  assert (fsub pulled32 pushed32 = S754_finite false 8388608 (-27)) as -> by (vm_compute; reflexivity).
  assert (pushed32 = S754_finite true 14280766 (-28)) as -> by (vm_compute; reflexivity).
  unfold above_pulled32.
  destruct t as [s|s| |s m e].
  - destruct s; vm_compute; auto.
  - destruct s; vm_compute in H0, H1; discriminate.
  - congruence.
  - destruct s; [vm_compute in H0; discriminate|].
    clear H0 Hnan. cbn [valid_binary] in Hv. unfold bounded in Hv.
    apply andb_prop in Hv. destruct Hv as [Hc He].
    pose proof (canonical_cases 24 128 m e Hc) as (Hc1 & Hc2 & _).
    assert (Zpos m <= 2 ^ (- e)) as Hm.
    { change (fltb (of_int 1) (S754_finite false m e)) with
        (SFltb (S754_finite false 8388608 (-23)) (S754_finite false m e)) in H1.
      unfold SFltb, SFcompare in H1.
      destruct (Z.compare_spec (-23) e) as [Heq|Hlt|Hgt]; [|discriminate|].
      - subst e. change (Pos.compare_cont Eq 8388608 m) with (Pos.compare 8388608 m) in H1.
        change (Zpos m <= 8388608). clear Hc Hc1 Hc2 He.
        destruct (Pos.compare_spec 8388608 m) as [Heq|Hlt|Hgt'].
        + subst m. apply Z.le_refl.
        + discriminate H1.
        + apply Pos2Z.pos_le_pos, Pos.lt_le_incl, Hgt'.
      - assert (2 ^ 24 <= 2 ^ (- e)) by (apply Z.pow_le_mono_r; lia). lia. }
    change (fmul (S754_finite false 8388608 (-27)) (S754_finite false m e)) with
      (binary_round_aux 24 128 false (Zpos (8388608 * m)) (-27 + e) loc_Exact).
    assert (Zpos (8388608 * m) = Zpos m * 2 ^ 23) as HP
      by (rewrite Pos2Z.inj_mul; change (2 ^ 23) with 8388608; apply Z.mul_comm).
    assert (-27 + e <= SpecFloat.fexp 24 128 (Zpos (digits2_pos (8388608 * m)) + (-27 + e))) as HE.
    { rewrite (digits2_pos_shift m (8388608 * m) 23) by (lia || exact HP).
      rewrite fexp_eq. pose proof (Pos2Z.is_pos (digits2_pos m)). lia. }
    assert (e <= 0) as He0.
    { destruct (Z_lt_le_dec 0 e) as [Hpos|]; [|assumption].
      rewrite (Z.pow_neg_r 2 (- e)) in Hm by lia. lia. }
    assert (0 < 2 ^ (- e)) as Hpe by (apply Z.pow_pos_nonneg; lia).
    pose proof (binary_round_aux_valid 24 128 eq_refl false _ _ HE) as [Hyv Hys].
    assert (mag_le (binary_round_aux 24 128 false (Zpos (8388608 * m)) (-27 + e) loc_Exact)
              8388608 (-27)) as Hym.
    { apply (binary_round_aux_below 24 128 eq_refl false _ _ _ _ (-27 + e) HE);
        [reflexivity|lia|lia|lia|].
      rewrite Z.sub_diag. replace (-27 - (-27 + e)) with (- e) by lia.
      rewrite HP. change (2 ^ 23) with 8388608. change (2 ^ 0) with 1. lia. }
    destruct (binary_round_aux 24 128 false (Zpos (8388608 * m)) (-27 + e) loc_Exact)
      as [s|s| |s my ey]; cbn [mag_le sign_is] in Hym, Hys; try contradiction; subst s.
    { vm_compute. auto. }
    cbn [valid_binary] in Hyv. unfold bounded in Hyv.
    apply andb_prop in Hyv. destruct Hyv as [Hyc Hye].
    pose proof (canonical_cases 24 128 my ey Hyc) as (Hy1 & _).
    pose proof (mag_le_value 24 128 eq_refl false my ey 8388608 (-27) (-149) Hyc eq_refl Hym
                  ltac:(lia)) as Hval.
    change (2 ^ (-27 - -149)) with (2 ^ 122) in Hval.
    change (fadd (S754_finite true 14280766 (-28)) (S754_finite false my ey)) with
      (SFadd 24 128 (S754_finite true 14280766 (-28)) (S754_finite false my ey)).
    rewrite (SFadd_finite 24 128). cbn [cond_Zopp].
    set (ez := Z.min (-28) ey).
    set (N := - (14280766 * 2 ^ (-28 - ez)) + Zpos my * 2 ^ (ey - ez)).
    assert (N * 2 ^ (ez - -149) = - (14280766 * 2 ^ 121) + Zpos my * 2 ^ (ey - -149)) as HN.
    { unfold N. rewrite Z.mul_add_distr_r, Z.mul_opp_l, <- !Z.mul_assoc.
      rewrite <- !Z.pow_add_r by (subst ez; lia).
      replace (-28 - ez + (ez - -149)) with 121 by lia.
      replace (ey - ez + (ez - -149)) with (ey - -149) by lia. reflexivity. }
    assert (0 < 2 ^ (ey - -149)) as Hpy by (apply Z.pow_pos_nonneg; lia).
    assert (SFleb (S754_finite true 14280766 (-28)) (binary_normalize 24 128 N ez false) = true)
      as Hlo.
    { apply (binary_normalize_ge 24 128 eq_refl N ez _ _ (-149));
        [reflexivity|lia|subst ez; lia|lia|].
      change (2 ^ (-28 - -149)) with (2 ^ 121).
      rewrite <- Z.mul_assoc, HN. change (2 ^ 121) with 2658455991569831745807614120560689152.
      lia. }
    assert (SFleb (binary_normalize 24 128 N ez false) (S754_finite false 9985800 (-30)) = true)
      as Hhi.
    { apply (binary_normalize_le 24 128 eq_refl N ez _ _ (-149));
        [reflexivity|lia|subst ez; lia|lia|].
      change (2 ^ (-30 - -149)) with (2 ^ 119).
      rewrite <- Z.mul_assoc, HN.
      change (2 ^ 122) with 5316911983139663491615228241121378304 in Hval.
      change (2 ^ 121) with 2658455991569831745807614120560689152.
      change (2 ^ 119) with 664613997892457936451903530140172288.
      lia. }
    split; [|split; assumption].
    destruct (binary_normalize 24 128 N ez false) as [s|[|]| |s mz ez']; try reflexivity;
      discriminate.
Qed.

Section PlungerBinary32.
Context `{CombinedController.FloatParse spec_float}.

Import CombinedController.

Lemma applied_position (data : string) (s : @scene spec_float)
    (w x y z plungerValue : spec_float) :
  decode data = Some (w, x, y, z, plungerValue) ->
  PlungerControl_localPosition (ApplyQuaternion data s)
  = UnityEngine.Vector3.mk
      (UnityEngine.Vector3.x (PlungerControl_localPosition s))
      (UnityEngine.Vector3.y (PlungerControl_localPosition s))
      (Lerp pushed32 pulled32 plungerValue).
Proof.
  intros Hd. unfold ApplyQuaternion. rewrite (try_decoded data s _ Hd).
  reflexivity.
Qed.



End PlungerBinary32.




(** * Further properties *)

(** ** Lists *)

Lemma combine_replicate {A B} (n : nat) (a : A) (b : B) :
  combine (replicate n a) (replicate n b) = replicate n (a, b).
Proof. induction n as [|n IH]; simpl; [reflexivity | now rewrite IH]. Qed.

Lemma combine_insert {A B} (l : list A) (k : list B) (i : nat) (a : A) (b : B) :
  combine (<[i:=a]> l) (<[i:=b]> k) = <[i:=(a, b)]> (combine l k).
Proof.
  revert k i. induction l as [|x l IH]; intros k i; [reflexivity|].
  destruct k as [|y k]; [destruct i; reflexivity|].
  destruct i as [|i]; simpl; [reflexivity|]. now rewrite IH.
Qed.

Lemma combine_snoc {A B} (l : list A) (k : list B) (a : A) (b : B) :
  length l = length k ->
  combine (l ++ [a]) (k ++ [b]) = combine l k ++ [(a, b)].
Proof.
  revert k. induction l as [|x l IH]; intros k Hlen; destruct k as [|y k];
    simpl in Hlen; try discriminate; simpl; [reflexivity|].
  rewrite IH by lia. reflexivity.
Qed.

Lemma combine_lookup {A B} (l : list A) (k : list B) (i : nat) (a : A) (b : B) :
  l !! i = Some a -> k !! i = Some b -> combine l k !! i = Some (a, b).
Proof.
  revert k i. induction l as [|x l IH]; intros k i Ha Hb; [discriminate|].
  destruct k as [|y k]; [discriminate|].
  destruct i as [|i]; simpl in *; [congruence|]. now apply IH.
Qed.

Lemma combine_map {A B C} (f : A -> B) (g : A -> C) (l : list A) :
  combine (map f l) (map g l) = map (fun a => (f a, g a)) l.
Proof. induction l as [|a l IH]; simpl; [reflexivity | now rewrite IH]. Qed.

(** Two rings written in step are the ring of the pairs. *)
Lemma ring_combine {A B} (n : nat) (a : A) (b : B) (xs : list A) (ys : list B) :
  (0 < n)%nat -> length xs = length ys ->
  combine (ring n a xs) (ring n b ys) = ring n (a, b) (combine xs ys).
Proof.
  intros Hn. revert ys.
  induction xs as [|x xs IH] using rev_ind; intros ys Hlen.
  - destruct ys; [|discriminate]. simpl combine.
    rewrite !ring_nil. apply combine_replicate.
  - destruct ys as [|y ys _] using rev_ind.
    + rewrite length_app in Hlen. simpl in Hlen. lia.
    + rewrite !length_app in Hlen. simpl in Hlen.
      assert (Hl : length xs = length ys) by lia.
      rewrite combine_snoc by exact Hl.
      rewrite <- !ring_snoc by exact Hn.
      rewrite length_combine, <- Hl, Nat.min_id.
      rewrite combine_insert. now rewrite IH.
Qed.

(** A slot holds the fill value or one of the values written. *)
Lemma ring_In {A} (n : nat) (fill : A) (vals : list A) (v : A) :
  In v (ring n fill vals) -> v = fill \/ In v vals.
Proof.
  intros Hin.
  apply (Permutation_in _ (ring_perm n fill vals)) in Hin.
  unfold window in Hin.
  apply list_elem_of_In in Hin.
  apply (subseteq_drop (length vals)) in Hin.
  apply list_elem_of_In in Hin.
  apply in_app_or in Hin. destruct Hin as [Hin|Hin]; [left|right; exact Hin].
  apply list_elem_of_In in Hin. now apply elem_of_replicate in Hin.
Qed.

Lemma lastn_map {A B} (f : A -> B) (n : nat) (l : list A) :
  lastn n (map f l) = map f (lastn n l).
Proof. unfold lastn. rewrite length_map. symmetry. apply (fmap_drop f). Qed.

(** ** The syringe firmware, continued *)

Section SketchMore.
Context {F : Type} `{FloatOps F} `{FloatPrint F}.
Variable windowSize : Z.

Local Abbreviation n := (Z.to_nat windowSize).
Local Abbreviation zero := (of_int 0 : F).
Local Abbreviation averageQuat := (Sketch.averageQuat windowSize).
Local Abbreviation averageSensor := (Sketch.averageSensor windowSize).
Local Abbreviation run := (Sketch.run windowSize).
Local Abbreviation sample := (@Sketch.sample F).
Local Abbreviation quats := (@Sketch.quats F).
Local Abbreviation scalars := (@Sketch.scalars F _).

(** X1. Once at least [windowSize] cycles have run, the orientation buffer
    holds exactly the last [windowSize] orientations read, the newest before
    the cursor and the oldest from the cursor on, and [averageQuat] is, for
    each component and in any arithmetic, the sum of these slots taken in
    the order of the slots and divided by [windowSize].  Where addition is
    associative and commutative this is their component-wise mean in any
    order. *)
Theorem orientation_average_last_window (inputs : list sample) :
  1 <= windowSize ->
  (n <= length inputs)%nat ->
  let s := run true inputs in
  let recent := lastn n (quats inputs) in
  let r := (length inputs mod n)%nat in
  let slots := drop (n - r) recent ++ take (n - r) recent in
  let component (c : imu.Quaternion F -> F) :=
    fdiv (fold_left fadd (map c slots) (of_int 0)) (of_int windowSize) in
  Sketch.quatBuffer s = slots
  /\ Permutation (Sketch.quatBuffer s) recent
  /\ averageQuat s
     = imu.mk (component imu.w) (component imu.x)
              (component imu.y) (component imu.z)
  /\ ((forall a b c : F, fadd (fadd a b) c = fadd a (fadd b c)) ->
      (forall a b : F, fadd a b = fadd b a) ->
      averageQuat s
      = imu.mk (Sketch.mean (map imu.w recent)) (Sketch.mean (map imu.x recent))
               (Sketch.mean (map imu.y recent)) (Sketch.mean (map imu.z recent))).
Proof.
  intros Hw Hk s recent r slots component.
  destruct (run_state windowSize inputs ltac:(lia)) as (_ & Hq & _).
  destruct (run_lengths windowSize inputs ltac:(lia)) as (Hlen & _).
  fold s in Hq, Hlen.
  assert (Hlk : length (quats inputs) = length inputs)
    by (unfold Sketch.quats; apply length_map).
  assert (Hring : Sketch.quatBuffer s = slots).
  { rewrite Hq. unfold ring, slots. rewrite window_full by lia.
    now rewrite Hlk. }
  assert (Hperm : Permutation (Sketch.quatBuffer s) recent).
  { rewrite Hring. unfold slots.
    rewrite Permutation_app_comm, take_drop. reflexivity. }
  assert (Hmean : averageQuat s
                  = imu.mk (Sketch.mean (map imu.w (Sketch.quatBuffer s)))
                           (Sketch.mean (map imu.x (Sketch.quatBuffer s)))
                           (Sketch.mean (map imu.y (Sketch.quatBuffer s)))
                           (Sketch.mean (map imu.z (Sketch.quatBuffer s))))
    by (apply averageQuat_mean; lia || exact Hlen).
  split; [exact Hring|]. split; [exact Hperm|]. split.
  - rewrite Hmean. unfold component, Sketch.mean.
    rewrite !length_map, Hlen, Z2Nat.id by lia. now rewrite Hring.
  - intros Hassoc Hcomm. rewrite Hmean.
    unfold Sketch.mean. rewrite !length_map, (Permutation_length Hperm).
    f_equal; f_equal; apply fold_left_perm; try assumption;
      apply Permutation_map; exact Hperm.
Qed.

(** X2. The two buffers are written in step: at any time the pairs
    (orientation slot, scalar slot) are the slots of one circular buffer of
    pairs, so the two values of a slot were captured in the same cycle, or
    are both the fill values of [setup]. *)
Theorem slots_captured_together (inputs : list sample) :
  1 <= windowSize ->
  let s := run true inputs in
  combine (Sketch.quatBuffer s) (Sketch.sensorValueBuffer s)
  = ring n (Sketch.identity, zero) (map captured inputs)
  /\ (forall i q v,
        Sketch.quatBuffer s !! i = Some q ->
        Sketch.sensorValueBuffer s !! i = Some v ->
        (q = Sketch.identity /\ v = zero)
        \/ exists input, In input inputs /\ q = fst input
                         /\ v = Sketch.normalize (snd input)).
Proof.
  intros Hw s.
  destruct (run_state windowSize inputs ltac:(lia)) as (_ & Hq & Hv & _).
  fold s in Hq, Hv.
  assert (Hpairs : combine (Sketch.quatBuffer s) (Sketch.sensorValueBuffer s)
                   = ring n (Sketch.identity, zero) (map captured inputs)).
  { rewrite Hq, Hv. rewrite ring_combine.
    - unfold Sketch.quats, Sketch.scalars. rewrite combine_map. reflexivity.
    - lia.
    - unfold Sketch.quats, Sketch.scalars. now rewrite !length_map. }
  split; [exact Hpairs|].
  intros i q v Hqi Hvi.
  pose proof (combine_lookup _ _ _ _ _ Hqi Hvi) as Hpair.
  rewrite Hpairs in Hpair.
  apply list_elem_of_lookup_2, list_elem_of_In, ring_In in Hpair.
  destruct Hpair as [Hfill|Hin].
  - left. now inversion Hfill.
  - right. apply in_map_iff in Hin. destruct Hin as (input & Hc & Hin).
    exists input. unfold captured in Hc. inversion Hc. auto.
Qed.

End SketchMore.

(** ** The syringe firmware on exact numbers, continued *)

Lemma exact_fold_sum (l : list Q) (a : Q) :
  (fold_left fadd l a == a + Qsum l)%Q.
Proof.
  revert a. induction l as [|v l IH]; intros a; simpl.
  - ring.
  - rewrite IH. rewrite Qred_correct. ring.
Qed.

Lemma exact_mean (l : list Q) :
  (Sketch.mean l == Qsum l / inject_Z (Z.of_nat (length l)))%Q.
Proof.
  unfold Sketch.mean. cbn [fdiv exact]. rewrite Qred_correct.
  rewrite exact_fold_sum. cbn [of_int exact].
  change (inject_Z 0) with 0%Q. now rewrite Qplus_0_l.
Qed.

Lemma Qsum_bounds (lo hi : Q) (l : list Q) :
  Forall (fun v => lo <= v <= hi)%Q l ->
  (lo * inject_Z (Z.of_nat (length l)) <= Qsum l
   <= hi * inject_Z (Z.of_nat (length l)))%Q.
Proof.
  induction 1 as [|v l [Hlo Hhi] _ IH].
  - cbn [Qsum length]. change (inject_Z (Z.of_nat 0)) with 0%Q. split; lra.
  - cbn [Qsum length]. rewrite Nat2Z.inj_succ. unfold Z.succ.
    rewrite inject_Z_plus. change (inject_Z 1) with 1%Q.
    destruct IH as [IHlo IHhi]. split; lra.
Qed.

Lemma mean_bounds (lo hi : Q) (l : list Q) :
  l <> [] ->
  Forall (fun v => lo <= v <= hi)%Q l ->
  (lo <= Sketch.mean l <= hi)%Q.
Proof.
  intros Hne Hl. rewrite exact_mean.
  destruct (Qsum_bounds lo hi l Hl) as [Hlo Hhi].
  assert (Hpos : (0 < inject_Z (Z.of_nat (length l)))%Q).
  { change 0%Q with (inject_Z 0). rewrite <- Zlt_Qlt.
    destruct l; [congruence | simpl; lia]. }
  split.
  - apply Qle_shift_div_l; assumption.
  - apply Qle_shift_div_r; assumption.
Qed.

Lemma normalize_in_unit (raw : Z) :
  0 <= raw <= 4095 -> (0 <= Sketch.normalize raw <= 1)%Q.
Proof.
  intros [Hlo Hhi].
  assert (Hlin : (Sketch.normalize raw == inject_Z raw * (1 # 4095) * (-1) + 1)%Q)
    by (rewrite normalize_exact; reflexivity).
  rewrite Hlin. rewrite Zle_Qle in Hlo, Hhi. revert Hlo Hhi.
  change (inject_Z 0) with 0%Q. change (inject_Z 4095) with 4095%Q.
  generalize (inject_Z raw). intros r Hlo Hhi. split; lra.
Qed.

(** X3. As long as the potentiometer readings stay within full scale
    (0 .. 4095), every stored scalar and the scalar average the sketch sends
    are in [0, 1], from the first cycle on. *)
Theorem scalar_average_in_unit_interval (windowSize : Z)
    (inputs : list (@Sketch.sample Q)) :
  1 <= windowSize ->
  Forall (fun input => 0 <= snd input <= 4095) inputs ->
  let s := Sketch.run windowSize true inputs in
  Forall (fun v => 0 <= v <= 1)%Q (Sketch.sensorValueBuffer s)
  /\ (0 <= Sketch.averageSensor windowSize s <= 1)%Q.
Proof.
  intros Hw Hraw s.
  destruct (run_state windowSize inputs ltac:(lia)) as (_ & _ & Hv & _).
  destruct (run_lengths windowSize inputs ltac:(lia)) as (_ & Hlen).
  fold s in Hv, Hlen.
  assert (Hslots : Forall (fun v => 0 <= v <= 1)%Q (Sketch.sensorValueBuffer s)).
  { apply Forall_forall. intros v Hin. apply list_elem_of_In in Hin.
    rewrite Hv in Hin. apply ring_In in Hin. destruct Hin as [->|Hin].
    - cbn. split; discriminate.
    - unfold Sketch.scalars in Hin. apply in_map_iff in Hin.
      destruct Hin as (input & <- & Hin).
      apply normalize_in_unit.
      rewrite Forall_forall in Hraw. apply Hraw. now apply list_elem_of_In. }
  split; [exact Hslots|].
  rewrite averageSensor_mean by (lia || exact Hlen).
  apply mean_bounds; [|exact Hslots].
  intros E. rewrite E in Hlen. simpl in Hlen. lia.
Qed.

(** ** The syringe firmware in binary32 *)

(** The scaling of [loop] on every reading of a twelve-bit converter. *)
Lemma normalize_checked :
  forallb
    (fun raw =>
       let v := Sketch.normalize (F:=spec_float) raw in
       is_number v
       && Qle_bool 0 (B32.to_Q v) && Qle_bool (B32.to_Q v) 1
       && Qle_bool (Qabs (B32.to_Q v - (1 - inject_Z raw / 4095)))
                   (1 # 16777216)
       && Qle_bool (B32.to_Q (Sketch.normalize (F:=spec_float) (raw + 1)))
                   (B32.to_Q v))
    (range 0 4095)
  = true.
Proof. vm_compute. reflexivity. Qed.

Lemma normalize_falls (raw : Z) (d : nat) :
  0 <= raw -> raw + Z.of_nat d <= 4095 ->
  (B32.to_Q (Sketch.normalize (F:=spec_float) (raw + Z.of_nat d))
   <= B32.to_Q (Sketch.normalize (F:=spec_float) raw))%Q.
Proof.
  intros Hlo. induction d as [|d IH]; intros Hhi.
  - rewrite Z.add_0_r. apply Qle_refl.
  - eapply Qle_trans; [|apply IH; lia].
    pose proof normalize_checked as Hc. rewrite forallb_forall in Hc.
    specialize (Hc (raw + Z.of_nat d)
                   (in_range 0 4095 (raw + Z.of_nat d) ltac:(lia))).
    cbv zeta in Hc. apply andb_prop in Hc. destruct Hc as [_ Hstep].
    apply Qle_bool_iff in Hstep.
    replace (raw + Z.of_nat (S d)) with (raw + Z.of_nat d + 1) by lia.
    exact Hstep.
Qed.

(** X5. In binary32, the arithmetic of the sketch, the scaled reading
    [rawSensorValue / 4095 * -1 + 1] of every value of a twelve-bit
    converter is a number between 0 and 1, within 2^-24 of
    1 - raw / 4095, exactly 1 for a reading of 0 and exactly 0 for 4095,
    and never larger for a larger reading. *)
Theorem normalize_binary32 (raw raw' : Z) :
  0 <= raw <= 4095 -> 0 <= raw' <= 4095 ->
  let v := Sketch.normalize (F:=spec_float) raw in
  is_number v = true
  /\ (0 <= B32.to_Q v <= 1)%Q
  /\ (Qabs (B32.to_Q v - (1 - inject_Z raw / 4095)) <= 1 # 16777216)%Q
  /\ Sketch.normalize (F:=spec_float) 0 = B32.of_Z 1
  /\ Sketch.normalize (F:=spec_float) 4095 = B32.of_Z 0
  /\ (raw <= raw' ->
      (B32.to_Q (Sketch.normalize (F:=spec_float) raw') <= B32.to_Q v)%Q).
Proof.
  intros Hr Hr' v.
  assert (Hmost : is_number v = true
                  /\ (0 <= B32.to_Q v <= 1)%Q
                  /\ (Qabs (B32.to_Q v - (1 - inject_Z raw / 4095))
                      <= 1 # 16777216)%Q).
  { destruct (Z.eq_dec raw 4095) as [->|Hne].
    - vm_compute. repeat split; discriminate.
    - pose proof normalize_checked as Hc. rewrite forallb_forall in Hc.
      specialize (Hc raw (in_range 0 4095 raw ltac:(lia))).
      cbv zeta in Hc. fold v in Hc.
      apply andb_prop in Hc. destruct Hc as [Hc _].
      apply andb_prop in Hc. destruct Hc as [Hc Herr].
      apply andb_prop in Hc. destruct Hc as [Hc Hhi].
      apply andb_prop in Hc. destruct Hc as [Hnum Hlo].
      apply Qle_bool_iff in Hlo, Hhi, Herr.
      repeat split; assumption. }
  destruct Hmost as (Hnum & Hrange & Herr).
  split; [exact Hnum|]. split; [exact Hrange|]. split; [exact Herr|].
  split; [vm_compute; reflexivity|]. split; [vm_compute; reflexivity|].
  intros Hle. unfold v.
  replace raw' with (raw + Z.of_nat (Z.to_nat (raw' - raw))) by lia.
  apply normalize_falls; lia.
Qed.

(** ** A steady reading in binary32 *)

(** Ten equal slots, for every reading of a twelve-bit converter: their
    sum from 0 divided by ten. *)
Lemma steady_average_checked :
  forallb
    (fun raw =>
       let v := Sketch.normalize (F:=spec_float) raw in
       let a := fdiv (fold_left fadd (replicate 10 v) (of_int 0)) (of_int 10) in
       is_number a
       && Qle_bool 0 (B32.to_Q a) && Qle_bool (B32.to_Q a) 1
       && Qle_bool (Qabs (B32.to_Q a - B32.to_Q v)) (1 # 8388608))
    (range 0 4096)
  = true.
Proof. vm_compute. reflexivity. Qed.

Section SteadyBinary32.
Context `{FloatPrint spec_float}.

(** X4. With the window of ten of the sketch and in binary32, when the
    last ten cycles read the same orientation and the same potentiometer
    value (0 .. 4095), every slot of both buffers holds what was read, and
    the scalar average sent, the sum of the ten equal slots divided by ten,
    is a number in [0, 1] within 2^-23 of the scaled reading.  It need not
    be the scaled reading itself: the sum is rounded at every step. *)
Theorem steady_reading_binary32 (inputs : list (@Sketch.sample spec_float))
    (quat : imu.Quaternion spec_float) (raw : Z) :
  (10 <= length inputs)%nat ->
  lastn 10 inputs = replicate 10 (quat, raw) ->
  0 <= raw <= 4095 ->
  let s := Sketch.run 10 true inputs in
  let v := Sketch.normalize (F:=spec_float) raw in
  let a := Sketch.averageSensor 10 s in
  Sketch.quatBuffer s = replicate 10 quat
  /\ Sketch.sensorValueBuffer s = replicate 10 v
  /\ a = fdiv (fold_left fadd (replicate 10 v) (of_int 0)) (of_int 10)
  /\ is_number a = true
  /\ (0 <= B32.to_Q a <= 1)%Q
  /\ (Qabs (B32.to_Q a - B32.to_Q v) <= 1 # 8388608)%Q.
Proof.
  intros Hk Hsteady Hraw s v a.
  unfold Sketch.sample in Hsteady.
  destruct (run_state 10 inputs ltac:(lia)) as (_ & Hq & Hv & _).
  destruct (run_lengths 10 inputs ltac:(lia)) as (_ & Hlv).
  fold s in Hq, Hv, Hlv. change (Z.to_nat 10) with 10%nat in Hq, Hv, Hlv.
  assert (Hvs : Sketch.sensorValueBuffer s = replicate 10 v).
  { symmetry. apply replicate_Permutation. rewrite Hv.
    rewrite (ring_perm 10), window_full
      by (unfold Sketch.scalars; rewrite length_map; exact Hk).
    unfold Sketch.scalars. rewrite lastn_map, Hsteady.
    change (map ?f ?l) with (f <$> l). now rewrite fmap_replicate. }
  assert (Hqs : Sketch.quatBuffer s = replicate 10 quat).
  { symmetry. apply replicate_Permutation. rewrite Hq.
    rewrite (ring_perm 10), window_full
      by (unfold Sketch.quats; rewrite length_map; exact Hk).
    unfold Sketch.quats. rewrite lastn_map, Hsteady.
    change (map ?f ?l) with (f <$> l). now rewrite fmap_replicate. }
  assert (Ha : a = fdiv (fold_left fadd (replicate 10 v) (of_int 0)) (of_int 10)).
  { unfold a. rewrite averageSensor_mean by (lia || exact Hlv).
    rewrite Hvs. reflexivity. }
  split; [exact Hqs|]. split; [exact Hvs|]. split; [exact Ha|].
  pose proof steady_average_checked as Hc. rewrite forallb_forall in Hc.
  specialize (Hc raw (in_range 0 4096 raw ltac:(lia))). cbv zeta in Hc.
  fold v in Hc. rewrite <- Ha in Hc.
  apply andb_prop in Hc. destruct Hc as [Hc Herr].
  apply andb_prop in Hc. destruct Hc as [Hc Hhi].
  apply andb_prop in Hc. destruct Hc as [Hnum Hlo].
  apply Qle_bool_iff in Hlo, Hhi, Herr.
  split; [exact Hnum|]. split; [split; assumption | exact Herr].
Qed.

End SteadyBinary32.

(** ** Text, continued *)

Lemma count_char_append (c : ascii) (a b : string) :
  count_char c (a ++ b) = (count_char c a + count_char c b)%nat.
Proof. induction a as [|ch a IH]; simpl; [reflexivity | rewrite IH; lia]. Qed.

Lemma prefix_append (p s : string) : String.prefix p (p ++ s) = true.
Proof.
  induction p as [|c p IH]; simpl; [now destruct s|].
  destruct (ascii_dec c c); [exact IH | congruence].
Qed.

Lemma Split_nonempty (sep : ascii) (s : string) : CombinedController.Split sep s <> [].
Proof.
  destruct s as [|c s]; simpl; [discriminate|].
  destruct (Ascii.eqb c sep); [discriminate|].
  destruct (CombinedController.Split sep s); discriminate.
Qed.

(** One field more than there are separators. *)
Lemma Split_length (sep : ascii) (s : string) :
  length (CombinedController.Split sep s) = S (count_char sep s).
Proof.
  induction s as [|c s IH]; simpl; [reflexivity|].
  destruct (Ascii.eqb c sep); simpl.
  - now rewrite IH.
  - destruct (CombinedController.Split sep s) as [|f fs] eqn:E; simpl in *; lia.
Qed.

Lemma Split_none (sep : ascii) (a : string) :
  count_char sep a = O -> CombinedController.Split sep a = [a].
Proof.
  induction a as [|c a IH]; simpl; [reflexivity|].
  destruct (Ascii.eqb c sep); simpl; [discriminate|].
  intros Hc. now rewrite IH.
Qed.

Lemma Split_first (sep : ascii) (a b : string) :
  count_char sep a = O ->
  CombinedController.Split sep (a ++ String sep b)
  = a :: CombinedController.Split sep b.
Proof.
  induction a as [|c a IH]; simpl.
  - intros _. now rewrite Ascii.eqb_refl.
  - destruct (Ascii.eqb c sep); simpl; [discriminate|].
    intros Hc. now rewrite IH.
Qed.

(** Lines ended by a line feed come back one by one, and nothing after. *)
Lemma Split_lines (ls : list string) :
  Forall (fun l => count_char LF l = O) ls ->
  CombinedController.Split LF
    (fold_right String.append EmptyString
       (map (fun l => (l ++ String LF EmptyString)%string) ls))
  = ls ++ [EmptyString].
Proof.
  induction 1 as [|l ls Hl _ IH]; [reflexivity|].
  cbn [map fold_right]. rewrite append_assoc.
  cbn [String.append]. rewrite Split_first by exact Hl.
  now rewrite IH.
Qed.

(** What the formatter of the Arduino core sends. *)
Lemma number_text_append (a b : string) :
  number_text (a ++ b) = number_text a && number_text b.
Proof.
  induction a as [|ch a IH]; simpl; [reflexivity|].
  now rewrite IH, andb_assoc.
Qed.

Lemma digits_number_text (s : string) : all_digits s = true -> number_text s = true.
Proof.
  induction s as [|c s IH]; simpl; [reflexivity|].
  intros Hd. apply andb_prop in Hd. destruct Hd as [Hc Hs].
  unfold number_char. rewrite Hc, IH by exact Hs. reflexivity.
Qed.

Lemma uint_digits (d : Decimal.uint) : all_digits (NilEmpty.string_of_uint d) = true.
Proof. induction d; simpl; try reflexivity; exact IHd. Qed.

Lemma print_unsigned_digits (k : Z) : all_digits (print_unsigned k) = true.
Proof.
  unfold print_unsigned, NilZero.string_of_uint.
  destruct (N.to_uint (Z.to_N k)) eqn:E; try reflexivity;
    rewrite <- E; apply uint_digits.
Qed.

Lemma fraction_number_text (digits : nat) (remainder : Q) :
  number_text (ExactPrint.fraction digits remainder) = true.
Proof.
  revert remainder. induction digits as [|digits IH]; intros remainder.
  - reflexivity.
  - cbn [ExactPrint.fraction]. rewrite number_text_append, IH.
    rewrite digits_number_text by apply print_unsigned_digits. reflexivity.
Qed.

Lemma printFloat_number_text (number : Q) (digits : nat) :
  number_text (ExactPrint.printFloat number digits) = true.
Proof.
  unfold ExactPrint.printFloat.
  destruct (negb (Qle_bool number 4294967040)); [reflexivity|].
  destruct (negb (Qle_bool (-4294967040) number)); [reflexivity|].
  rewrite !number_text_append, fraction_number_text.
  rewrite (digits_number_text (print_unsigned _))
    by apply print_unsigned_digits.
  destruct (negb (Qle_bool 0 number)); destruct digits; reflexivity.
Qed.

Lemma number_text_count (c : ascii) (s : string) :
  number_char c = false -> number_text s = true -> count_char c s = O.
Proof.
  intros Hc. induction s as [|ch s IH]; simpl; [reflexivity|].
  intros Hs. apply andb_prop in Hs. destruct Hs as [Hch Hs].
  destruct (Ascii.eqb_spec ch c) as [->|_]; [congruence|].
  now rewrite IH.
Qed.

Lemma printFloat_without (c : ascii) (number : Q) (digits : nat) :
  number_char c = false -> count_char c (printFloat number digits) = O.
Proof.
  intros Hc. apply number_text_count; [exact Hc|].
  apply printFloat_number_text.
Qed.

(** Two texts joined by a separator split into the fields of the first
    followed by the fields of the second. *)
Lemma Split_join (sep : ascii) (a b : string) :
  CombinedController.Split sep (a ++ String sep b)
  = CombinedController.Split sep a ++ CombinedController.Split sep b.
Proof.
  induction a as [|c a IH]; simpl.
  - now rewrite Ascii.eqb_refl.
  - destruct (Ascii.eqb c sep); simpl; [now rewrite IH|].
    rewrite IH.
    pose proof (Split_nonempty sep a) as Hne.
    destruct (CombinedController.Split sep a); [congruence | reflexivity].
Qed.

(** ** From the sketch to the controller *)

Section Wire.
Context {F : Type} `{FloatOps F} `{FloatPrint F}.

Lemma frame_sent_line (quat : imu.Quaternion F) (scalar : F) :
  Sketch.frame quat scalar
  = (sent_line quat scalar ++ String LF EmptyString)%string.
Proof.
  unfold Sketch.frame, sent_line, CRLF.
  rewrite !append_assoc. reflexivity.
Qed.

Lemma frames_sent_lines (windowSize : Z) (inputs : list (@Sketch.sample F)) :
  Sketch.frames windowSize inputs
  = map (fun l => (l ++ String LF EmptyString)%string)
        (sent_lines windowSize inputs).
Proof.
  unfold Sketch.frames, sent_lines. rewrite map_map.
  apply map_ext. intros c. apply frame_sent_line.
Qed.

Lemma sent_line_count (c : ascii) (quat : imu.Quaternion F) (scalar : F) :
  count_char c (sent_line quat scalar)
  = (count_char c "Quat W:, X:, Y:, Z:,"
     + (if Ascii.eqb CR c then 1 else 0)
     + count_char c (printFloat (imu.w quat) 4)
     + count_char c (printFloat (imu.x quat) 4)
     + count_char c (printFloat (imu.y quat) 4)
     + count_char c (printFloat (imu.z quat) 4)
     + count_char c (printFloat scalar 2))%nat.
Proof.
  unfold sent_line. 
  change "Quat W:, X:, Y:, Z:,"%string
    with ("Quat W:" ++ ", X:" ++ ", Y:" ++ ", Z:" ++ ",")%string.
  rewrite !count_char_append. cbn [count_char]. lia.
Qed.

Lemma sent_line_valid (quat : imu.Quaternion F) (scalar : F) :
  CombinedController.IsValidQuaternionData (sent_line quat scalar) = true.
Proof.
  unfold CombinedController.IsValidQuaternionData, CombinedController.StartsWith.
  apply andb_true_intro. split.
  - unfold sent_line. apply prefix_append.
  - rewrite Split_length, sent_line_count.
    change (count_char CombinedController.comma "Quat W:, X:, Y:, Z:,") with 4%nat.
    apply Nat.leb_le. lia.
Qed.

Lemma sent_lines_snoc (windowSize : Z) (inputs : list (@Sketch.sample F))
    (input : @Sketch.sample F) :
  sent_lines windowSize (inputs ++ [input])
  = sent_lines windowSize inputs
    ++ [sent_line
          (Sketch.averageQuat windowSize
             (Sketch.run windowSize true (inputs ++ [input])))
          (Sketch.averageSensor windowSize
             (Sketch.run windowSize true (inputs ++ [input])))].
Proof.
  unfold sent_lines. rewrite length_app. cbn [length].
  rewrite Nat.add_1_r, seq_S, map_app. cbn [map]. cbv zeta.
  f_equal.
  - apply map_ext_in. intros c Hc. apply in_seq in Hc.
    rewrite take_app_le by lia. reflexivity.
  - rewrite take_ge by (rewrite length_app; cbn [length]; lia). reflexivity.
Qed.

Lemma sent_lines_Forall (P : string -> Prop) (windowSize : Z)
    (inputs : list (@Sketch.sample F)) :
  (forall quat scalar, P (sent_line quat scalar)) ->
  Forall P (sent_lines windowSize inputs).
Proof.
  intros HP. unfold sent_lines. apply Forall_forall. intros l Hl.
  apply list_elem_of_In, in_map_iff in Hl. destruct Hl as (c & <- & _).
  apply HP.
Qed.

(** X6. Whatever text the formatter gives for a number, every frame the
    sketch sends passes the shape test of the controller, with or without
    its final line feed; a formatter that sends no comma makes it a line of
    exactly five fields. *)
Theorem every_frame_passes_shape_test (quat : imu.Quaternion F) (scalar : F) :
  CombinedController.IsValidQuaternionData (Sketch.frame quat scalar) = true
  /\ CombinedController.IsValidQuaternionData (sent_line quat scalar) = true
  /\ (4 <= count_char CombinedController.comma (sent_line quat scalar))%nat
  /\ ((forall v d, count_char CombinedController.comma (printFloat v d) = O) ->
      length (CombinedController.Split CombinedController.comma
                (sent_line quat scalar)) = 5%nat).
Proof.
  assert (Hcount : forall l,
            count_char CombinedController.comma (l ++ String LF EmptyString)
            = count_char CombinedController.comma l).
  { intros l. rewrite count_char_append.
    change (count_char CombinedController.comma (String LF EmptyString))
      with O.
    lia. }
  split; [|split; [apply sent_line_valid|split]].
  - pose proof (sent_line_valid quat scalar) as Hv.
    unfold CombinedController.IsValidQuaternionData, CombinedController.StartsWith in *.
    apply andb_prop in Hv. destruct Hv as [Hp Hl].
    apply andb_true_intro. split.
    + unfold Sketch.frame. apply prefix_append.
    + rewrite frame_sent_line, Split_length, Hcount, <- Split_length. exact Hl.
  - rewrite sent_line_count.
    change (count_char CombinedController.comma "Quat W:, X:, Y:, Z:,") with 4%nat.
    lia.
  - intros Hc. rewrite Split_length, sent_line_count, !Hc. reflexivity.
Qed.

(** The text after any cycles, cut at the line feeds. *)
Lemma Serial_lines (windowSize : Z) (inputs : list (@Sketch.sample F)) :
  (forall v d, count_char LF (printFloat v d) = O) ->
  CombinedController.Split LF
    (Sketch.Serial (Sketch.run windowSize true inputs))
  = [("Orientation Sensor Test" ++ String CR EmptyString)%string;
     String CR EmptyString]
    ++ sent_lines windowSize inputs ++ [EmptyString].
Proof.
  intros Hlf.
  set (heading := ("Orientation Sensor Test" ++ String CR EmptyString)%string).
  set (blank := String CR EmptyString).
  rewrite run_Serial, frames_sent_lines.
  assert (Hb : Sketch.banner
               = (heading ++ String LF (blank ++ String LF EmptyString))%string)
    by reflexivity.
  rewrite Hb, append_assoc. cbn [String.append].
  rewrite Split_first by reflexivity.
  change (String CR (String LF ?t)) with (blank ++ String LF t)%string.
  rewrite append_assoc. cbn [String.append].
  change (String CR (String LF ?t)) with (blank ++ String LF t)%string.
  rewrite Split_first by reflexivity.
  rewrite Split_lines; [reflexivity|].
  apply sent_lines_Forall. intros quat scalar.
  rewrite sent_line_count, !Hlf. reflexivity.
Qed.

(** X7. With a formatter that sends no line feed, the text on the serial
    line after any number of cycles splits at the line feeds into the two
    lines of [setup], one line per cycle and an empty rest; the lines of the
    cycles all pass the shape test of the controller and the others do
    not. *)
Theorem serial_text_line_by_line (windowSize : Z)
    (inputs : list (@Sketch.sample F)) :
  (forall v d, count_char LF (printFloat v d) = O) ->
  let heading := ("Orientation Sensor Test" ++ String CR EmptyString)%string in
  let blank := String CR EmptyString in
  CombinedController.Split LF
    (Sketch.Serial (Sketch.run windowSize true inputs))
  = [heading; blank] ++ sent_lines windowSize inputs ++ [EmptyString]
  /\ Forall (fun l => CombinedController.IsValidQuaternionData l = true)
            (sent_lines windowSize inputs)
  /\ length (sent_lines windowSize inputs) = length inputs
  /\ Forall (fun l => CombinedController.IsValidQuaternionData l = false)
            [heading; blank; EmptyString].
Proof.
  intros Hlf heading blank.
  split; [now apply Serial_lines|]. split; [|split].
  - apply sent_lines_Forall. apply sent_line_valid.
  - unfold sent_lines. now rewrite length_map, length_seq.
  - repeat constructor.
Qed.

End Wire.

(** ** The frame as text *)

Lemma Split_one (sep : ascii) (s a : string) :
  CombinedController.Split sep s = [a] -> s = a.
Proof.
  revert a. induction s as [|c s IH]; intros a; simpl.
  - now intros [= <-].
  - destruct (Ascii.eqb c sep).
    + intros [= _ Hs]. now destruct (Split_nonempty sep s).
    + destruct (CombinedController.Split sep s) as [|f fs] eqn:E.
      * now destruct (Split_nonempty sep s).
      * intros [= <- ->]. now rewrite (IH f).
Qed.

Lemma Split_two (sep : ascii) (s a b : string) :
  CombinedController.Split sep s = [a; b] -> s = (a ++ String sep b)%string.
Proof.
  revert a. induction s as [|c s IH]; intros a; simpl; [discriminate|].
  destruct (Ascii.eqb_spec c sep) as [->|Hc].
  - intros [= <- Hs]. now rewrite (Split_one sep s b Hs).
  - destruct (CombinedController.Split sep s) as [|f fs] eqn:E.
    + discriminate.
    + intros [= <- ->]. now rewrite (IH f).
Qed.

Lemma all_digits_count (c : ascii) (s : string) :
  is_digit c = false -> all_digits s = true -> count_char c s = O.
Proof.
  intros Hc. induction s as [|ch s IH]; simpl; [reflexivity|].
  intros Hs. apply andb_prop in Hs. destruct Hs as [Hch Hs].
  destruct (Ascii.eqb_spec ch c) as [->|_]; [congruence|].
  now rewrite IH.
Qed.

(** A decimal holds digits, a sign and a point, and nothing else. *)
Lemma decimal_places_count (c : ascii) (d : nat) (s : string) :
  is_digit c = false -> c <> "-"%char -> c <> "."%char ->
  decimal_places d s = true -> count_char c s = O.
Proof.
  intros Hc Hminus Hpoint. unfold decimal_places.
  set (body := match s with
               | String c0 s' => if Ascii.eqb c0 "-" then s' else s
               | EmptyString => s
               end).
  assert (Hbody : count_char c s = count_char c body).
  { unfold body. destruct s as [|c0 s']; [reflexivity|].
    destruct (Ascii.eqb_spec c0 "-") as [->|_]; [|reflexivity].
    cbn [count_char]. destruct (Ascii.eqb_spec "-" c) as [E|_]; [|reflexivity].
    now destruct Hminus. }
  rewrite Hbody. clearbody body.
  destruct (CombinedController.Split "." body) as [|whole [|frac [|more rest]]] eqn:E;
    try discriminate.
  - destruct d; [|discriminate]. intros H.
    apply andb_prop in H. destruct H as [Hw _].
    rewrite (Split_one _ _ _ E). now apply all_digits_count.
  - destruct d; [discriminate|]. intros H.
    apply andb_prop in H. destruct H as [H _].
    apply andb_prop in H. destruct H as [H Hf].
    apply andb_prop in H. destruct H as [Hw _].
    rewrite (Split_two _ _ _ _ E), count_char_append.
    cbn [count_char]. destruct (Ascii.eqb_spec "." c) as [E'|_].
    + now destruct Hpoint.
    + rewrite !all_digits_count by assumption. reflexivity.
Qed.


(** ** The formatter of the core *)

Lemma core_text_append (a b : string) :
  core_text (a ++ b) = core_text a && core_text b.
Proof.
  induction a as [|ch a IH]; simpl; [reflexivity|].
  now rewrite IH, andb_assoc.
Qed.

Lemma digits_core_text (s : string) : all_digits s = true -> core_text s = true.
Proof.
  induction s as [|c s IH]; simpl; [reflexivity|].
  intros Hd. apply andb_prop in Hd. destruct Hd as [Hc Hs].
  unfold core_char. rewrite Hc, IH by exact Hs. reflexivity.
Qed.

Lemma core_fraction_text (digits : nat) (remainder : spec_float) :
  core_text (ArduinoPrint.fraction digits remainder) = true.
Proof.
  revert remainder. induction digits as [|digits IH]; intros remainder.
  - reflexivity.
  - cbn [ArduinoPrint.fraction]. rewrite core_text_append, IH.
    rewrite digits_core_text by apply print_unsigned_digits. reflexivity.
Qed.

Lemma core_printFloat_text (number : spec_float) (digits : nat) :
  core_text (ArduinoPrint.printFloat number digits) = true.
Proof.
  assert (Hmain : forall number' : spec_float,
            core_text
              (if SFltb (B64.of_Z 4294967040) number' then "ovf"%string
               else if SFltb number' (B64.of_Z (-4294967040)) then "ovf"%string
               else
                 let negative := SFltb number' (B64.of_Z 0) in
                 let number0 := if negative then SFopp number' else number' in
                 let number1 :=
                   SFadd B64.prec B64.emax number0 (ArduinoPrint.rounding digits) in
                 let int_part := B32.trunc number1 in
                 let remainder :=
                   SFsub B64.prec B64.emax number1 (B64.of_Z int_part) in
                 ((if negative then "-" else "") ++
                  print_unsigned int_part ++
                  (match digits with O => "" | S _ => "." end) ++
                  ArduinoPrint.fraction digits remainder)%string)
            = true).
  { intros number'.
    destruct (SFltb (B64.of_Z 4294967040) number'); [reflexivity|].
    destruct (SFltb number' (B64.of_Z (-4294967040))); [reflexivity|].
    cbv zeta. rewrite !core_text_append, core_fraction_text.
    rewrite (digits_core_text (print_unsigned _))
      by apply print_unsigned_digits.
    destruct (SFltb number' (B64.of_Z 0)); destruct digits; reflexivity. }
  unfold ArduinoPrint.printFloat.
  destruct number as [s|s| |s m e]; try reflexivity; apply Hmain.
Qed.

(** Whatever the number, the formatter of the core sends no line end, no
    comma and no colon: it meets what the properties of the wire format
    ask of a formatter. *)
Lemma core_print_without (c : ascii) (x : spec_float) (digits : nat) :
  core_char c = false -> count_char c (core_print x digits) = O.
Proof.
  intros Hc. unfold core_print.
  pose proof (core_printFloat_text (B64.of_float x) digits) as Ht.
  revert Ht. generalize (ArduinoPrint.printFloat (B64.of_float x) digits).
  intros s. induction s as [|ch s IH]; simpl; [reflexivity|].
  intros Hs. apply andb_prop in Hs. destruct Hs as [Hch Hs].
  destruct (Ascii.eqb_spec ch c) as [->|_]; [congruence|].
  now rewrite IH.
Qed.

(** *** The formatter of the core: the digits *)

Lemma trunc_eq (m : positive) (e : Z) :
  B32.trunc (S754_finite false m e)
  = if 0 <=? e then Zpos m * 2 ^ e else Zpos m / 2 ^ (- e).
Proof.
  destruct e as [|p|p]; unfold B32.trunc; cbn [Z.leb Z.compare Z.opp];
    rewrite ?Z.pow_0_r, ?Z.mul_1_r; reflexivity.
Qed.

(** An integer below [2 ^ 53] is a double. *)
Lemma of_Z_exact (z : Z) :
  0 < z < 2 ^ 53 ->
  exists (mi : positive) (ei : Z),
    B64.of_Z z = S754_finite false mi ei
    /\ -1074 <= ei <= 0 /\ Zpos mi = z * 2 ^ (- ei).
Proof.
  intros [Hz0 Hz]. destruct z as [|p|p]; try lia.
  unfold B64.of_Z, B64.prec, B64.emax. cbn [binary_normalize].
  pose proof (digits2_pos_le p 53 Hz) as Hd.
  pose proof (Pos2Z.is_pos (digits2_pos p)) as Hd0.
  destruct (binary_round_exact 53 1024 eq_refl false p 0) as (P' & HP' & Hval).
  - rewrite fexp_eq. lia.
  - rewrite fexp_eq. lia.
  - rewrite fexp_eq in HP', Hval.
    exists P', (Z.max (Zpos (digits2_pos p) + 0 - 53) (3 - 1024 - 53)).
    split; [exact HP'|]. split; [lia|].
    rewrite Hval, Z.sub_0_l. reflexivity.
Qed.

(** What is left of a double when its integer part is taken away is a
    double in [0, 1), and nothing is rounded. *)
Lemma frac_part (x : spec_float) :
  nonneg_valid x -> B32.trunc x < 2 ^ 53 ->
  fractional (SFsub B64.prec B64.emax x (B64.of_Z (B32.trunc x))).
Proof.
  unfold B64.prec, B64.emax.
  destruct x as [s|s| |s m e]; cbn [nonneg_valid]; try contradiction.
  - intros _ _. destruct s; exact I.
  - intros [-> Hb] Hip. unfold bounded in Hb. apply andb_prop in Hb. destruct Hb as [Hc He].
    apply Z.leb_le in He.
    pose proof (canonical_cases 53 1024 m e Hc) as (Hc1 & Hc2 & Hc3).
    rewrite trunc_eq in *.
    destruct (Z.leb_spec 0 e) as [Hpos|Hneg].
    + (* an integer *)
      assert (0 < 2 ^ e) as Hpe by (apply Z.pow_pos_nonneg; lia).
      destruct (of_Z_exact (Zpos m * 2 ^ e)) as (mi & ei & -> & Hei & Hmi); [nia|].
      rewrite (SFsub_finite 53 1024). cbn [cond_Zopp].
      replace (Z.min e ei) with ei by lia. rewrite Z.sub_diag.
      change (2 ^ 0) with 1. rewrite Z.mul_1_r, Hmi.
      replace (e - ei) with (e + - ei) by lia. rewrite Z.pow_add_r by lia.
      replace (Zpos m * (2 ^ e * 2 ^ (- ei)) - Zpos m * 2 ^ e * 2 ^ (- ei)) with 0 by ring.
      exact I.
    + assert (0 < 2 ^ (- e)) as HW by (apply Z.pow_pos_nonneg; lia).
      pose proof (Z.div_mod (Zpos m) (2 ^ (- e)) ltac:(lia)) as Hdm.
      pose proof (Z.mod_pos_bound (Zpos m) (2 ^ (- e)) HW) as Hb.
      assert (0 <= Zpos m / 2 ^ (- e)) as Hq0 by (apply Z.div_pos; lia).
      destruct (Z.eq_dec (Zpos m / 2 ^ (- e)) 0) as [Hzero|Hnz].
      * (* below 1 *)
        rewrite Hzero. change (B64.of_Z 0) with (S754_zero false). cbn [SFsub fractional].
        split; [reflexivity|]. split; [assumption|].
        destruct (Z_le_gt_dec e (-53)) as [|Hbig]; [assumption|exfalso].
        specialize (Hc3 ltac:(lia)).
        assert (2 ^ (- e) <= 2 ^ (53 - 1)) by (apply Z.pow_le_mono_r; lia).
        nia.
      * (* 1 or more *)
        assert (-52 <= e) as He52.
        { destruct (Z_le_gt_dec (-52) e) as [|Hsmall]; [assumption|exfalso].
          assert (2 ^ 53 <= 2 ^ (- e)) by (apply Z.pow_le_mono_r; lia). nia. }
        destruct (of_Z_exact (Zpos m / 2 ^ (- e))) as (mi & ei & -> & Hei & Hmi); [nia|].
        rewrite (SFsub_finite 53 1024). cbn [cond_Zopp].
        set (ez := Z.min e ei).
        set (N := Zpos m * 2 ^ (e - ez) - Zpos mi * 2 ^ (ei - ez)).
        assert (N * 2 ^ (ez - -1074)
                = (Zpos m mod 2 ^ (- e)) * 2 ^ (e - -1074)) as HN.
        { unfold N. rewrite Z.mul_sub_distr_r, <- !Z.mul_assoc, Hmi.
          rewrite <- !Z.pow_add_r by (subst ez; lia).
          rewrite <- !Z.mul_assoc, <- !Z.pow_add_r by (subst ez; lia).
          replace (e - ez + (ez - -1074)) with (e - -1074) by lia.
          replace (- ei + (ei - ez + (ez - -1074))) with (- e + (e - -1074)) by lia.
          rewrite Z.pow_add_r by lia. nia. }
        assert (0 < 2 ^ (ez - -1074)) as HC by (apply Z.pow_pos_nonneg; subst ez; lia).
        assert (0 < 2 ^ (e - -1074)) as HA by (apply Z.pow_pos_nonneg; lia).
        assert (0 < 2 ^ (-53 - -1074)) as HB by (apply Z.pow_pos_nonneg; lia).
        assert (2 ^ (- e) * 2 ^ (e - -1074) = 9007199254740992 * 2 ^ (-53 - -1074)) as HWA.
        { change 9007199254740992 with (2 ^ 53). rewrite <- !Z.pow_add_r by lia. f_equal. lia. }
        assert (2 * 2 ^ (-53 - -1074) <= 2 ^ (e - -1074)) as HAB.
        { rewrite <- Z.pow_succ_r by lia. apply Z.pow_le_mono_r; lia. }
        assert (ez <= e) as Hez by (subst ez; lia).
        assert (-1074 <= ez) as Hez' by (subst ez; lia).
        clearbody N. clearbody ez.
        destruct N as [|P|P]; cbn [binary_normalize].
        -- exact I.
        -- pose proof (binary_round_valid 53 1024 eq_refl false P ez) as [Hv Hs].
           assert (mag_le (binary_round 53 1024 false P ez) 9007199254740991 (-53)) as Hm.
           { apply (binary_round_below 53 1024 eq_refl false P ez _ _ (-1074));
               [reflexivity|lia|lia|lia|].
             rewrite <- Z.mul_assoc, HN.
             set (t := Zpos m mod 2 ^ (- e)) in *. set (A := 2 ^ (e - -1074)) in *.
             set (B := 2 ^ (-53 - -1074)) in *. set (W := 2 ^ (- e)) in *.
             assert (t * A <= (W - 1) * A) by (apply Z.mul_le_mono_nonneg_r; lia).
             lia. }
           destruct (binary_round 53 1024 false P ez) as [s|s| |s m' e'];
             cbn [mag_le sign_is valid_binary fractional] in *; try contradiction.
           ++ exact I.
           ++ unfold bounded in Hv. apply andb_prop in Hv. destruct Hv as [Hv _].
              split; [assumption|]. split; [assumption|]. lia.
        -- exfalso. pose proof (Pos2Z.neg_is_neg P). nia.
Qed.

Lemma digits2_pos_above (p : positive) (k : Z) :
  2 ^ k <= Zpos p -> k < Zpos (digits2_pos p).
Proof.
  intros Hk. pose proof (digits2_pos_bounds p) as [_ Bhi].
  apply (Z.pow_lt_mono_r_iff 2); lia.
Qed.

(** Ten times a double in [0, 1) stays below ten. *)
Lemma times_ten (r : spec_float) :
  fractional r ->
  let x := SFmul B64.prec B64.emax r (B64.of_Z 10) in
  nonneg_valid x /\ 0 <= B32.trunc x <= 9.
Proof.
  unfold B64.prec, B64.emax.
  change (B64.of_Z 10) with (S754_finite false 5629499534213120 (-49)).
  destruct r as [s|s| |s m e]; cbn [fractional]; try contradiction.
  - intros _. cbn. split; [exact I|lia].
  - intros (-> & Hc & He). cbv zeta.
    change (SFmul 53 1024 (S754_finite false m e) (S754_finite false 5629499534213120 (-49)))
      with (binary_round_aux 53 1024 false (Zpos (m * 5629499534213120)) (e + -49) loc_Exact).
    pose proof (canonical_cases 53 1024 m e Hc) as (Hc1 & Hc2 & _).
    assert (Zpos (m * 5629499534213120) = Zpos m * 5629499534213120) as HP
      by apply Pos2Z.inj_mul.
    assert (e + -49 <= SpecFloat.fexp 53 1024 (Zpos (digits2_pos (m * 5629499534213120)) + (e + -49)))
      as HE.
    { pose proof (digits2_pos_above (m * 5629499534213120) 52) as Hd.
      rewrite fexp_eq. change (2 ^ 52) with 4503599627370496 in Hd. lia. }
    pose proof (binary_round_aux_valid 53 1024 eq_refl false _ _ HE) as [Hv Hs].
    assert (9007199254740992 <= 2 ^ (- e)) as HW.
    { change 9007199254740992 with (2 ^ 53). apply Z.pow_le_mono_r; lia. }
    change (2 ^ 53) with 9007199254740992 in Hc2.
    assert (mag_le (binary_round_aux 53 1024 false (Zpos (m * 5629499534213120)) (e + -49)
                      loc_Exact) 5629499534213119 (-49)) as Hm.
    { apply (binary_round_aux_below 53 1024 eq_refl false _ _ _ _ (e + -49) HE);
        [reflexivity|lia|lia|lia|].
      rewrite Z.sub_diag, HP. change (2 ^ 0) with 1.
      replace (-49 - (e + -49)) with (- e) by lia. lia. }
    destruct (binary_round_aux 53 1024 false (Zpos (m * 5629499534213120)) (e + -49) loc_Exact)
      as [s|s| |s m' e']; cbn [mag_le sign_is valid_binary nonneg_valid] in *;
      try contradiction.
    + split; [exact I|]. cbn. lia.
    + subst s. split; [split; [reflexivity|assumption]|].
      unfold bounded in Hv. apply andb_prop in Hv. destruct Hv as [Hc' _].
      pose proof (canonical_cases 53 1024 m' e' Hc') as (_ & Hm2 & _).
      change (2 ^ 53) with 9007199254740992 in Hm2.
      rewrite trunc_eq. destruct (Z.leb_spec 0 e') as [Hp|Hn]; [lia|].
      assert (0 < 2 ^ (- e')) as HW' by (apply Z.pow_pos_nonneg; lia).
      assert (562949953421312 <= 2 ^ (- e')) as H49.
      { change 562949953421312 with (2 ^ 49). apply Z.pow_le_mono_r; lia. }
      split; [apply Z.div_pos; lia|].
      assert (Zpos m' / 2 ^ (- e') < 10); [|lia].
      apply Z.div_lt_upper_bound; [lia|].
      destruct Hm as [Hlt|[-> Hle]].
      * assert (1125899906842624 <= 2 ^ (- e')).
        { change 1125899906842624 with (2 ^ 50). apply Z.pow_le_mono_r; lia. }
        lia.
      * change (2 ^ (- -49)) with 562949953421312 in *. lia.
Qed.

(** The digits after the point: one decimal digit for each place. *)
Lemma core_fraction_digits (digits : nat) (remainder : spec_float) :
  fractional remainder ->
  String.length (ArduinoPrint.fraction digits remainder) = digits
  /\ all_digits (ArduinoPrint.fraction digits remainder) = true.
Proof.
  revert remainder. induction digits as [|digits IH]; intros remainder Hr.
  - split; reflexivity.
  - cbn [ArduinoPrint.fraction].
    destruct (times_ten remainder Hr) as (Hx & Hk).
    destruct (one_digit _ Hk) as (Hlen1 & Hdig1).
    destruct (IH _ (frac_part _ Hx ltac:(change (2 ^ 53) with 9007199254740992; lia)))
      as (Hlen & Hdig).
    rewrite length_append, all_digits_append, Hlen1, Hlen, Hdig1, Hdig.
    split; reflexivity.
Qed.

Lemma print_unsigned_nonempty (k : Z) : print_unsigned k <> EmptyString.
Proof.
  unfold print_unsigned, NilZero.string_of_uint.
  destruct (N.to_uint (Z.to_N k)); discriminate.
Qed.

Lemma decimal_places_intro (negative : bool) (whole frac : string) (d : nat) :
  all_digits whole = true -> whole <> EmptyString ->
  all_digits frac = true -> String.length frac = S d ->
  decimal_places (S d) ((if negative then "-" else "") ++ whole ++ "." ++ frac) = true.
Proof.
  intros Hw Hne Hf Hlen.
  assert (CombinedController.Split "." (whole ++ "." ++ frac) = [whole; frac]) as Hsplit.
  { change (whole ++ "." ++ frac)%string with (whole ++ String "." frac)%string.
    rewrite Split_first by (apply all_digits_count; [reflexivity|assumption]).
    rewrite Split_none by (apply all_digits_count; [reflexivity|assumption]).
    reflexivity. }
  assert (negb (String.length whole =? 0)%nat = true) as Hlw.
  { destruct whole; [congruence|reflexivity]. }
  unfold decimal_places.
  destruct negative.
  - change ("-" ++ whole ++ "." ++ frac)%string with (String "-" (whole ++ "." ++ frac)).
    cbv iota. rewrite Ascii.eqb_refl, Hsplit, Hw, Hlw, Hf, Hlen, Nat.eqb_refl. reflexivity.
  - change ("" ++ whole ++ "." ++ frac)%string with (whole ++ "." ++ frac)%string.
    destruct whole as [|c whole']; [congruence|].
    change (String c whole' ++ "." ++ frac)%string with (String c (whole' ++ "." ++ frac)) in *.
    cbv iota.
    assert (Ascii.eqb c "-" = false) as ->.
    { cbn [all_digits] in Hw. apply andb_prop in Hw. destruct Hw as [Hc _].
      destruct (Ascii.eqb_spec c "-") as [->|]; [discriminate Hc|reflexivity]. }
    rewrite Hsplit, Hw, Hlw, Hf, Hlen, Nat.eqb_refl. reflexivity.
Qed.

Lemma trunc_below (m : positive) (e K : Z) :
  0 <= K -> Zpos m * 2 ^ (e - -1074) <= K * 2 ^ (0 - -1074) -> -1074 <= e ->
  0 <= B32.trunc (S754_finite false m e) <= K.
Proof.
  intros HK Hv He. rewrite trunc_eq.
  destruct (Z.leb_spec 0 e) as [Hp|Hn].
  - assert (0 < 2 ^ e) by (apply Z.pow_pos_nonneg; lia).
    assert (0 < 2 ^ (0 - -1074)) by (apply Z.pow_pos_nonneg; lia).
    replace (e - -1074) with (e + (0 - -1074)) in Hv by lia.
    rewrite Z.pow_add_r in Hv by lia. nia.
  - assert (0 < 2 ^ (- e)) by (apply Z.pow_pos_nonneg; lia).
    assert (0 < 2 ^ (e - -1074)) by (apply Z.pow_pos_nonneg; lia).
    replace (0 - -1074) with (- e + (e - -1074)) in Hv by lia.
    rewrite Z.pow_add_r in Hv by lia.
    split; [apply Z.div_pos; lia|].
    apply Z.div_le_upper_bound; [lia|]. nia.
Qed.

(** The number to which the rounding has been added: a valid double
    with an integer part below [2 ^ 53]. *)
Lemma after_rounding (number rounding : spec_float) :
  nonneg_valid number -> mag_le number 9007198717870080 (-21) ->
  half_or_less rounding = true ->
  let number' := SFadd B64.prec B64.emax number rounding in
  nonneg_valid number' /\ 0 <= B32.trunc number' < 2 ^ 53.
Proof.
  unfold B64.prec, B64.emax. change (2 ^ 53) with 9007199254740992.
  intros Hn Hmag Hr. cbv zeta.
  assert (2 ^ (-21 - -1074) = 4294967296 * 2 ^ (-53 - -1074)) as P1.
  { change 4294967296 with (2 ^ 32). rewrite <- Z.pow_add_r by lia. reflexivity. }
  assert (2 ^ (-20 - -1074) = 8589934592 * 2 ^ (-53 - -1074)) as P2.
  { change 8589934592 with (2 ^ 33). rewrite <- Z.pow_add_r by lia. reflexivity. }
  assert (2 ^ (0 - -1074) = 9007199254740992 * 2 ^ (-53 - -1074)) as P3.
  { change 9007199254740992 with (2 ^ 53). rewrite <- Z.pow_add_r by lia. reflexivity. }
  assert (0 < 2 ^ (-53 - -1074)) as HB by (apply Z.pow_pos_nonneg; lia).
  assert (forall m e, bounded 53 1024 m e = true ->
            mag_le (S754_finite false m e) 9007198717870080 (-21) ->
            0 <= B32.trunc (S754_finite false m e) < 9007199254740992) as Hsmall.
  { intros m e Hb Hm. unfold bounded in Hb. apply andb_prop in Hb. destruct Hb as [Hc _].
    pose proof (canonical_cases 53 1024 m e Hc) as (Hc1 & _).
    pose proof (mag_le_value 53 1024 eq_refl false m e 9007198717870080 (-21) (-1074) Hc
                  eq_refl Hm ltac:(lia))
      as Hval.
    pose proof (trunc_below m e 4294967040 ltac:(lia)) as Ht.
    rewrite P1 in Hval. rewrite P3 in Ht. lia. }
  assert (forall m e, bounded 53 1024 m e = true ->
            e < -53 \/ e = -53 /\ Zpos m <= 4503599627370496 ->
            0 <= B32.trunc (S754_finite false m e) < 9007199254740992) as Hhalf.
  { intros m e Hb Hm. unfold bounded in Hb. apply andb_prop in Hb. destruct Hb as [Hc _].
    pose proof (canonical_cases 53 1024 m e Hc) as (Hc1 & _).
    pose proof (mag_le_value 53 1024 eq_refl false m e 4503599627370496 (-53) (-1074) Hc
                  eq_refl Hm ltac:(lia)) as Hval.
    pose proof (trunc_below m e 1 ltac:(lia)) as Ht.
    rewrite P3 in Ht. lia. }
  destruct rounding as [sr|sr| |sr mr er]; cbn [half_or_less] in Hr; try discriminate.
  - (* nothing is added *)
    destruct number as [s|s| |s m e]; cbn [nonneg_valid] in Hn; try contradiction.
    + destruct s, sr; cbn; (split; [exact I|lia]).
    + destruct Hn as [-> Hb]. cbn [SFadd]. split; [split; [reflexivity|assumption]|].
      apply Hsmall; assumption.
  - destruct sr; [discriminate|].
    apply andb_prop in Hr. destruct Hr as [Hrb Hrm].
    assert (er < -53 \/ er = -53 /\ Zpos mr <= 4503599627370496) as Hrm'.
    { apply orb_prop in Hrm. destruct Hrm as [Hlt|Heq]; [left; apply Z.ltb_lt; assumption|].
      apply andb_prop in Heq. destruct Heq as [Heq Hle].
      right. split; [apply Z.eqb_eq|apply Z.leb_le]; assumption. }
    destruct number as [s|s| |s m e]; cbn [nonneg_valid] in Hn; try contradiction.
    + cbn [SFadd]. split; [split; [reflexivity|assumption]|]. apply Hhalf; assumption.
    + destruct Hn as [-> Hb]. rewrite (SFadd_finite 53 1024). cbn [cond_Zopp].
      pose proof Hb as Hb'. unfold bounded in Hb'. apply andb_prop in Hb'.
      destruct Hb' as [Hc _].
      pose proof Hrb as Hrb'. unfold bounded in Hrb'. apply andb_prop in Hrb'.
      destruct Hrb' as [Hrc _].
      pose proof (canonical_cases 53 1024 m e Hc) as (Hc1 & _).
      pose proof (canonical_cases 53 1024 mr er Hrc) as (Hr1 & _).
      pose proof (mag_le_value 53 1024 eq_refl false m e 9007198717870080 (-21) (-1074) Hc
                    eq_refl Hmag ltac:(lia)) as Hval.
      pose proof (mag_le_value 53 1024 eq_refl false mr er 4503599627370496 (-53) (-1074) Hrc
                    eq_refl Hrm' ltac:(lia)) as Hrval.
      set (ez := Z.min e er).
      set (N := Zpos m * 2 ^ (e - ez) + Zpos mr * 2 ^ (er - ez)).
      assert (N * 2 ^ (ez - -1074)
              = Zpos m * 2 ^ (e - -1074) + Zpos mr * 2 ^ (er - -1074)) as HN.
      { unfold N. rewrite Z.mul_add_distr_r, <- !Z.mul_assoc.
        rewrite <- !Z.pow_add_r by (subst ez; lia).
        replace (e - ez + (ez - -1074)) with (e - -1074) by lia.
        replace (er - ez + (ez - -1074)) with (er - -1074) by lia. reflexivity. }
      assert (0 < N) as HNpos.
      { unfold N.
        assert (0 < 2 ^ (e - ez)) by (apply Z.pow_pos_nonneg; subst ez; lia).
        assert (0 < 2 ^ (er - ez)) by (apply Z.pow_pos_nonneg; subst ez; lia).
        nia. }
      assert (-1074 <= ez) as Hez by (subst ez; lia).
      clearbody N. clearbody ez.
      destruct N as [|P|P]; try lia. cbn [binary_normalize].
      pose proof (binary_round_valid 53 1024 eq_refl false P ez) as [Hv Hs].
      assert (mag_le (binary_round 53 1024 false P ez) 4503599627370496 (-20)) as Hm.
      { apply (binary_round_below 53 1024 eq_refl false P ez _ _ (-1074));
          [reflexivity|lia|lia|lia|].
        rewrite <- Z.mul_assoc, HN, P2. rewrite P1 in Hval. lia. }
      destruct (binary_round 53 1024 false P ez) as [s|s| |s m' e'];
        cbn [mag_le sign_is valid_binary nonneg_valid] in *; try contradiction.
      * split; [exact I|]. cbn. lia.
      * subst s. split; [split; [reflexivity|assumption]|].
        pose proof Hv as Hv'. unfold bounded in Hv'. apply andb_prop in Hv'.
        destruct Hv' as [Hc' _].
        pose proof (canonical_cases 53 1024 m' e' Hc') as (Hc1' & _).
        pose proof (mag_le_value 53 1024 eq_refl false m' e' 4503599627370496 (-20) (-1074)
                      Hc' eq_refl Hm ltac:(lia)) as Hval'.
        pose proof (trunc_below m' e' 4294967296 ltac:(lia)) as Ht.
        rewrite P3 in Ht. rewrite P2 in Hval'. lia.
Qed.

(** What the comparison of two numbers of the same sign says when it is
    false. *)
Lemma SFltb_false_positive (c m : positive) (ec e : Z) :
  SFltb (S754_finite false c ec) (S754_finite false m e) = false ->
  mag_le (S754_finite false m e) c ec.
Proof.
  unfold SFltb, SFcompare. cbn [mag_le]. intros H.
  destruct (Z.compare_spec ec e) as [Heq|Hlt|Hgt]; [|discriminate|left; lia].
  right. split; [symmetry; assumption|].
  rewrite Pos.compare_cont_spec in H. cbn [Pos.switch_Eq] in H.
  rewrite Pos2Z.inj_compare in H.
  destruct (Z.compare_spec (Zpos c) (Zpos m)); try discriminate H; lia.
Qed.

Lemma SFltb_false_negative (c m : positive) (ec e : Z) :
  SFltb (S754_finite true m e) (S754_finite true c ec) = false ->
  mag_le (S754_finite false m e) c ec.
Proof.
  unfold SFltb, SFcompare. cbn [mag_le]. intros H.
  destruct (Z.compare_spec e ec) as [Heq|Hlt|Hgt]; [|left; assumption|discriminate].
  right. split; [assumption|].
  rewrite Pos.compare_cont_spec in H. cbn [Pos.switch_Eq] in H.
  rewrite Pos2Z.inj_compare in H.
  destruct (Z.compare_spec (Zpos m) (Zpos c)); try discriminate H; lia.
Qed.

(** The magnitude of a double that passes the two range tests. *)
Lemma within_range (s : bool) (m : positive) (e : Z) :
  SFltb (B64.of_Z 4294967040) (S754_finite s m e) = false ->
  SFltb (S754_finite s m e) (B64.of_Z (-4294967040)) = false ->
  mag_le (S754_finite false m e) 9007198717870080 (-21).
Proof.
  change (B64.of_Z 4294967040) with (S754_finite false 9007198717870080 (-21)).
  change (B64.of_Z (-4294967040)) with (S754_finite true 9007198717870080 (-21)).
  destruct s; intros H1 H2.
  - apply SFltb_false_negative. exact H2.
  - apply SFltb_false_positive. exact H1.
Qed.

(** Within the range the core formatter sends a decimal with exactly
    [digits] digits after the point. *)
Lemma core_printFloat_decimal (number : spec_float) (digits : nat) :
  valid_binary 53 1024 number = true -> is_number number = true ->
  SFltb (B64.of_Z 4294967040) number = false ->
  SFltb number (B64.of_Z (-4294967040)) = false ->
  half_or_less (ArduinoPrint.rounding (S digits)) = true ->
  decimal_places (S digits) (ArduinoPrint.printFloat number (S digits)) = true.
Proof.
  intros Hv Hnum H1 H2 Hr.
  assert (exists number0 : spec_float,
            (if SFltb number (B64.of_Z 0) then SFopp number else number) = number0
            /\ nonneg_valid number0
            /\ mag_le number0 9007198717870080 (-21)) as (number0 & E0 & Hn0 & Hm0).
  { destruct number as [s|s| |s m e]; try discriminate Hnum.
    - exists (S754_zero s). split; [reflexivity|]. split; exact I.
    - exists (S754_finite false m e). split; [destruct s; reflexivity|].
      split; [split; [reflexivity|exact Hv]|]. exact (within_range s m e H1 H2). }
  assert (ArduinoPrint.printFloat number (S digits)
          = let number1 := SFadd B64.prec B64.emax number0 (ArduinoPrint.rounding (S digits)) in
            ((if SFltb number (B64.of_Z 0) then "-" else "")
             ++ print_unsigned (B32.trunc number1) ++ "."
             ++ ArduinoPrint.fraction (S digits)
                  (SFsub B64.prec B64.emax number1 (B64.of_Z (B32.trunc number1))))%string)
    as ->.
  { unfold ArduinoPrint.printFloat. rewrite H1, H2, E0.
    destruct number; try discriminate Hnum; reflexivity. }
  cbv zeta.
  destruct (after_rounding number0 _ Hn0 Hm0 Hr) as (Hn1 & Ht1).
  cbv zeta in Hn1, Ht1.
  destruct (core_fraction_digits (S digits) _ (frac_part _ Hn1 ltac:(lia))) as (Hlen & Hdig).
  apply decimal_places_intro.
  - apply print_unsigned_digits.
  - apply print_unsigned_nonempty.
  - exact Hdig.
  - exact Hlen.
Qed.

Lemma of_float_valid (x : spec_float) :
  valid_binary 24 128 x = true \/ is_number x = true ->
  valid_binary 53 1024 (B64.of_float x) = true.
Proof.
  intros _. destruct x as [s|s| |s m e]; try reflexivity.
  apply (binary_normalize_valid 53 1024 eq_refl).
Qed.

(** [Serial.print(x, 2)] and [Serial.print(x, 4)] of a number within
    the range: a decimal with exactly 2 and 4 digits after the point. *)
Lemma core_print_decimal (x : spec_float) (digits : nat) :
  digits = 2%nat \/ digits = 4%nat -> printable x = true ->
  decimal_places digits (core_print x digits) = true.
Proof.
  intros Hd Hp. unfold printable in Hp.
  apply andb_prop in Hp. destruct Hp as [Hp H2].
  apply andb_prop in Hp. destruct Hp as [Hnum H1].
  apply negb_true_iff in H1, H2.
  unfold core_print.
  destruct Hd as [->| ->];
    (apply core_printFloat_decimal;
     [apply of_float_valid; right; destruct x; try discriminate Hnum; reflexivity
     |assumption|assumption|assumption|vm_compute; reflexivity]).
Qed.

Lemma core_print_field (x : spec_float) (digits : nat) :
  digits = 2%nat \/ digits = 4%nat -> field_text digits x (core_print x digits).
Proof.
  intros Hd. unfold field_text. destruct (printable x) eqn:Hp.
  - apply core_print_decimal; assumption.
  - unfold printable in Hp. unfold core_print, ArduinoPrint.printFloat.
    destruct (B64.of_float x) as [s|s| |s m e]; cbn [is_number andb] in Hp.
    + destruct (SFltb (B64.of_Z 4294967040) (S754_zero s)); [auto|].
      destruct (SFltb (S754_zero s) (B64.of_Z (-4294967040))); [auto|discriminate Hp].
    + auto.
    + auto.
    + destruct (SFltb (B64.of_Z 4294967040) (S754_finite s m e)); [auto|].
      destruct (SFltb (S754_finite s m e) (B64.of_Z (-4294967040))); [auto|discriminate Hp].
Qed.

Section FrameText.
Context {F : Type} `{FloatOps F} `{FloatPrint F}.
Variable windowSize : Z.

Hypothesis no_other : forall (v : F) (d : nat) (c : ascii),
  core_char c = false -> count_char c (printFloat v d) = O.

(** With a formatter that sends digits, signs, points and the letters of
    its three words only, a cycle appends one line of five fields. *)
Lemma frame_of_cycle (inputs : list (@Sketch.sample F)) (input : @Sketch.sample F) :
  let s := Sketch.run windowSize true inputs in
  let s' := Sketch.cycle windowSize s input in
  let w := printFloat (imu.w (Sketch.averageQuat windowSize s')) 4 in
  let x := printFloat (imu.x (Sketch.averageQuat windowSize s')) 4 in
  let y := printFloat (imu.y (Sketch.averageQuat windowSize s')) 4 in
  let z := printFloat (imu.z (Sketch.averageQuat windowSize s')) 4 in
  let scalar := printFloat (Sketch.averageSensor windowSize s') 2 in
  let line :=
    ("Quat W:" ++ w ++ ", X:" ++ x ++ ", Y:" ++ y ++ ", Z:" ++ z
     ++ "," ++ scalar)%string in
  1 <= windowSize ->
  Sketch.Serial s' = (Sketch.Serial s ++ line ++ CRLF)%string
  /\ count_char LF line = O
  /\ count_char CR line = O
  /\ count_char LF (Sketch.Serial s') = S (count_char LF (Sketch.Serial s))
  /\ CombinedController.Split CombinedController.comma line
     = [("Quat W:" ++ w)%string; (" X:" ++ x)%string; (" Y:" ++ y)%string;
        (" Z:" ++ z)%string; scalar]
  /\ Sketch.Serial s
     = (Sketch.banner
        ++ fold_right String.append EmptyString (Sketch.frames windowSize inputs))%string
  /\ length (Sketch.frames windowSize inputs) = length inputs.
Proof.
  intros s s' w x y z scalar line Hw.
  assert (Hclean : forall c, core_char c = false ->
                     count_char c line
                     = count_char c "Quat W:, X:, Y:, Z:,").
  { intros c Hc. unfold line.
    change "Quat W:, X:, Y:, Z:,"%string
      with ("Quat W:" ++ ", X:" ++ ", Y:" ++ ", Z:" ++ ",")%string.
    rewrite !count_char_append.
    unfold w, x, y, z, scalar. rewrite !no_other by exact Hc.
    lia. }
  assert (Hserial : Sketch.Serial s' = (Sketch.Serial s ++ line ++ CRLF)%string).
  { assert (Hs' : s' = Sketch.loop windowSize input s)
      by (unfold s', Sketch.cycle, s; now rewrite run_pc).
    rewrite Hs', loop_Serial. rewrite <- Hs'. unfold Sketch.frame, line.
    fold w x y z scalar. rewrite !append_assoc. reflexivity. }
  assert (Hlf : count_char LF line = O).
  { rewrite Hclean by reflexivity. reflexivity. }
  split; [exact Hserial|]. split; [exact Hlf|]. split; [|split; [|split]].
  - rewrite Hclean by reflexivity. reflexivity.
  - rewrite Hserial, !count_char_append, Hlf.
    change (count_char LF CRLF) with 1%nat. lia.
  - assert (E : line
                = (("Quat W:" ++ w) ++ String CombinedController.comma
                   ((" X:" ++ x) ++ String CombinedController.comma
                    ((" Y:" ++ y) ++ String CombinedController.comma
                     ((" Z:" ++ z) ++ String CombinedController.comma scalar))))%string).
    { unfold line. rewrite !append_assoc. reflexivity. }
    rewrite E.
    assert (Cw : count_char CombinedController.comma w = O) by (apply no_other; reflexivity).
    assert (Cx : count_char CombinedController.comma x = O) by (apply no_other; reflexivity).
    assert (Cy : count_char CombinedController.comma y = O) by (apply no_other; reflexivity).
    assert (Cz : count_char CombinedController.comma z = O) by (apply no_other; reflexivity).
    rewrite !Split_first
      by (rewrite count_char_append, ?Cw, ?Cx, ?Cy, ?Cz; reflexivity).
    rewrite Split_none by (apply no_other; reflexivity). reflexivity.
  - split; [apply run_Serial | apply frames_length].
Qed.

End FrameText.

Section CoreText.
#[local] Existing Instance core_print.

(** The sketch run in binary32 with the formatter of the core. *)
Example four_cycles32_text :
  Sketch.Serial (Sketch.run 3 true four_cycles32)
  = (Sketch.banner
     ++ "Quat W:1.0000, X:0.0000, Y:0.0000, Z:0.0000,0.33" ++ CRLF
     ++ "Quat W:0.6667, X:0.3333, Y:0.0000, Z:0.0000,0.60" ++ CRLF
     ++ "Quat W:0.6667, X:0.3333, Y:0.0000, Z:0.0000,0.80" ++ CRLF
     ++ "Quat W:0.3333, X:0.6667, Y:0.0000, Z:0.0000,0.60" ++ CRLF)%string.
Proof. vm_compute. reflexivity. Qed.

(** The formatter of the core cuts where the idealised one rounds: 1/32 is
    sent as 0.0312 and 5/8 as 0.62. *)
Example core_print_ties :
  core_print (fdiv (of_int 1) (of_int 32)) 4%nat = "0.0312"%string
  /\ core_print (fdiv (of_int 5) (of_int 8)) 2%nat = "0.62"%string
  /\ printFloat (1 # 32)%Q 4 = "0.0313"%string
  /\ core_print S754_nan 2%nat = "nan"%string
  /\ core_print (S754_infinity false) 2%nat = "inf"%string
  /\ core_print (of_int 5000000000) 2%nat = "ovf"%string.
Proof. vm_compute. repeat split; reflexivity. Qed.



(** The fourth line of that run, and its five values: each is printable,
    so its text is a decimal. *)
Example fourth_line_fields :
  let s' := Sketch.run 3 true four_cycles32 in
  let average := Sketch.averageQuat 3 s' in
  printable (imu.w average) = true /\ printFloat (imu.w average) 4 = "0.3333"%string
  /\ printable (imu.x average) = true /\ printFloat (imu.x average) 4 = "0.6667"%string
  /\ printable (imu.y average) = true /\ printFloat (imu.y average) 4 = "0.0000"%string
  /\ printable (imu.z average) = true /\ printFloat (imu.z average) 4 = "0.0000"%string
  /\ printable (Sketch.averageSensor 3 s') = true
  /\ printFloat (Sketch.averageSensor 3 s') 2 = "0.60"%string
  /\ printable S754_nan = false /\ printable (of_int 5000000000) = false.
Proof. vm_compute. repeat split; reflexivity. Qed.

End CoreText.

Section ReadBack.
Context {F : Type} `{FloatOps F} `{FloatPrint F} `{CombinedController.FloatParse F}.

Import CombinedController.

Hypothesis no_comma : forall (v : F) d, count_char comma (printFloat v d) = O.
Hypothesis no_colon : forall (v : F) d, count_char colon (printFloat v d) = O.

Lemma sent_line_fields (quat : imu.Quaternion F) (scalar : F) :
  Split comma (sent_line quat scalar)
  = [("Quat W:" ++ printFloat (imu.w quat) 4)%string;
     (" X:" ++ printFloat (imu.x quat) 4)%string;
     (" Y:" ++ printFloat (imu.y quat) 4)%string;
     (" Z:" ++ printFloat (imu.z quat) 4)%string;
     (printFloat scalar 2 ++ String CR EmptyString)%string].
Proof.
  assert (E : sent_line quat scalar
              = (("Quat W:" ++ printFloat (imu.w quat) 4) ++ String comma
                 ((" X:" ++ printFloat (imu.x quat) 4) ++ String comma
                  ((" Y:" ++ printFloat (imu.y quat) 4) ++ String comma
                   ((" Z:" ++ printFloat (imu.z quat) 4) ++ String comma
                    (printFloat scalar 2 ++ String CR EmptyString)))))%string).
  { unfold sent_line. rewrite !append_assoc. reflexivity. }
  rewrite E.
  rewrite !Split_first
    by (rewrite count_char_append, no_comma; reflexivity).
  rewrite Split_none; [reflexivity|].
  rewrite count_char_append, no_comma. reflexivity.
Qed.

Lemma labelled_field (label : string) (v : F) (d : nat) :
  count_char colon label = O ->
  Split colon (label ++ String colon (printFloat v d))
  = [label; printFloat v d].
Proof.
  intros Hl. rewrite Split_first by exact Hl.
  now rewrite Split_none by apply no_colon.
Qed.

Lemma sent_line_decode (quat : imu.Quaternion F) (scalar : F) :
  decode (F:=F) (sent_line quat scalar)
  = match float_Parse (F:=F) (printFloat (imu.w quat) 4),
          float_Parse (F:=F) (printFloat (imu.x quat) 4),
          float_Parse (F:=F) (printFloat (imu.y quat) 4),
          float_Parse (F:=F) (printFloat (imu.z quat) 4),
          float_Parse (F:=F) (printFloat scalar 2 ++ String CR EmptyString)
    with
    | Ok w, Ok x, Ok y, Ok z, Ok plungerValue => Some (w, x, y, z, plungerValue)
    | _, _, _, _, _ => None
    end.
Proof.
  unfold decode. rewrite sent_line_fields.
  unfold labelled, plain. cbn [lookup list_lookup].
  change ("Quat W:" ++ ?t)%string with ("Quat W" ++ String colon t)%string.
  change (" X:" ++ ?t)%string with (" X" ++ String colon t)%string.
  change (" Y:" ++ ?t)%string with (" Y" ++ String colon t)%string.
  change (" Z:" ++ ?t)%string with (" Z" ++ String colon t)%string.
  rewrite !labelled_field by reflexivity.
  cbn [lookup list_lookup].
  destruct (float_Parse (F:=F) (printFloat (imu.w quat) 4)); [|reflexivity].
  destruct (float_Parse (F:=F) (printFloat (imu.x quat) 4)); [|reflexivity].
  destruct (float_Parse (F:=F) (printFloat (imu.y quat) 4)); [|reflexivity].
  destruct (float_Parse (F:=F) (printFloat (imu.z quat) 4)); [|reflexivity].
  destruct (float_Parse (F:=F) (printFloat scalar 2 ++ String CR EmptyString));
    reflexivity.
Qed.

(** X8. With a formatter that sends neither comma nor colon, a frame of the
    sketch read as one line splits at the commas into its five fields (the
    last one keeps the carriage return), the labelled fields split at the
    colon into label and number, and the controller hands to [float.Parse]
    exactly the five texts the formatter produced: when all five are
    accepted the scene becomes the frame applied whole with the parsed
    numbers, and when one is refused rotation and position stay. *)
Theorem frame_fields_reach_parser (quat : imu.Quaternion F) (scalar : F)
    (s : @scene F) :
  let line := sent_line quat scalar in
  let s' := Update (Some (Ok line)) s in
  let texts :=
    [printFloat (imu.w quat) 4; printFloat (imu.x quat) 4;
     printFloat (imu.y quat) 4; printFloat (imu.z quat) 4;
     (printFloat scalar 2 ++ String CR EmptyString)%string] in
  Split comma line
  = [("Quat W:" ++ printFloat (imu.w quat) 4)%string;
     (" X:" ++ printFloat (imu.x quat) 4)%string;
     (" Y:" ++ printFloat (imu.y quat) 4)%string;
     (" Z:" ++ printFloat (imu.z quat) 4)%string;
     (printFloat scalar 2 ++ String CR EmptyString)%string]
  /\ (forall w x y z plungerValue,
        map (float_Parse (F:=F)) texts
        = [Ok w; Ok x; Ok y; Ok z; Ok plungerValue] ->
        s' = applied (w, x, y, z, plungerValue) s)
  /\ (forall text Message,
        In text texts -> float_Parse (F:=F) text = Throw Message ->
        targetObject_localRotation s' = targetObject_localRotation s
        /\ PlungerControl_localPosition s' = PlungerControl_localPosition s
        /\ length (LogError s') = S (length (LogError s))).
Proof.
  intros line s' texts.
  split; [apply sent_line_fields|].
  assert (Hs' : s' = ApplyQuaternion line s).
  { unfold s', Update, line. now rewrite sent_line_valid. }
  pose proof (sent_line_decode quat scalar) as Hd. fold line in Hd.
  split.
  - intros w x y z plungerValue Hp. cbn [map texts] in Hp.
    injection Hp as Hw Hx Hy Hz Hv.
    rewrite Hw, Hx, Hy, Hz, Hv in Hd.
    rewrite Hs'. unfold ApplyQuaternion.
    now rewrite (try_decoded line s _ Hd).
  - intros text Message Hin Ht.
    assert (Hnone : decode (F:=F) line = None).
    { rewrite Hd. cbn [In texts] in Hin.
      destruct Hin as [<-|[<-|[<-|[<-|[<-|[]]]]]]; rewrite Ht;
        repeat match goal with
               | |- context [match ?r with Ok _ => _ | Throw _ => _ end] =>
                   destruct r
               end; reflexivity. }
    destruct (try_failed line s Hnone) as [Message' Hthrow].
    rewrite Hs'. unfold ApplyQuaternion. rewrite Hthrow.
    cbn [targetObject_localRotation PlungerControl_localPosition LogError
         Debug_LogError].
    split; [reflexivity|]. split; [reflexivity|].
    rewrite length_app. cbn [length]. lia.
Qed.

End ReadBack.

(** ** The controller, continued *)

Lemma prefix_extend (p s t : string) :
  String.prefix p s = true -> String.prefix p (s ++ t) = true.
Proof.
  revert s. induction p as [|c p IH]; intros s;
    [intros _; now destruct (s ++ t)%string|].
  destruct s as [|c' s]; simpl; [discriminate|].
  destruct (ascii_dec c c'); [apply IH | discriminate].
Qed.

Section ControllerMore.
Context {F : Type} `{FloatOps F} `{CombinedController.FloatParse F}.

Import CombinedController.

Local Abbreviation scene := (@CombinedController.scene F).

Lemma element_app {A} (l l' : list A) (i : nat) :
  (i < length l)%nat -> element (F:=F) (l ++ l') i = element (F:=F) l i.
Proof.
  intros Hi. unfold element. now rewrite lookup_app_l by exact Hi.
Qed.

Lemma try_first_five (data rest : string) :
  (4 <= count_char comma data)%nat ->
  ApplyQuaternion_try (F:=F) (data ++ String comma rest)
  = ApplyQuaternion_try (F:=F) data.
Proof.
  intros Hc. unfold ApplyQuaternion_try. rewrite Split_join.
  pose proof (Split_length comma data) as Hl.
  rewrite !element_app by lia. reflexivity.
Qed.

Lemma decode_first_five (data rest : string) :
  (4 <= count_char comma data)%nat ->
  decode (F:=F) (data ++ String comma rest) = decode (F:=F) data.
Proof.
  intros Hc. unfold decode, labelled, plain. rewrite Split_join.
  pose proof (Split_length comma data) as Hl.
  rewrite !lookup_app_l by lia. reflexivity.
Qed.

Lemma shape_test_commas (data : string) :
  IsValidQuaternionData data
  = String.prefix "Quat W:" data && (4 <=? count_char comma data)%nat.
Proof.
  unfold IsValidQuaternionData, StartsWith. now rewrite Split_length.
Qed.

(** X9. The shape test of the controller is: the line starts with
    ["Quat W:"] and holds at least four commas.  A line with fewer commas,
    or another start, changes nothing in the scene, whatever else it
    holds. *)
Theorem shape_test_counts_commas (data : string) (s : scene) :
  IsValidQuaternionData data
  = String.prefix "Quat W:" data && (4 <=? count_char comma data)%nat
  /\ ((count_char comma data < 4)%nat -> Update (Some (Ok data)) s = s)
  /\ (String.prefix "Quat W:" data = false -> Update (Some (Ok data)) s = s)
  /\ (forall c rest, data = String c rest -> c <> "Q"%char ->
      Update (Some (Ok data)) s = s).
Proof.
  split; [apply shape_test_commas|]. split; [|split].
  - intros Hc. unfold Update. rewrite shape_test_commas.
    apply Nat.leb_gt in Hc. rewrite Hc, andb_false_r. reflexivity.
  - intros Hp. unfold Update. rewrite shape_test_commas, Hp. reflexivity.
  - intros c rest -> Hc. unfold Update. rewrite shape_test_commas.
    cbn [String.prefix]. destruct (ascii_dec "Q" c); [congruence|reflexivity].
Qed.

(** X10. What follows the fifth field of a line is never looked at: a line
    that passes the shape test still passes it with a comma and anything
    else added at its end, and the controller does with the longer line
    exactly what it does with the line itself. *)
Theorem trailing_fields_ignored (data rest : string) (s : scene) :
  IsValidQuaternionData data = true ->
  IsValidQuaternionData (data ++ String comma rest) = true
  /\ decode (F:=F) (data ++ String comma rest) = decode (F:=F) data
  /\ Update (Some (Ok (data ++ String comma rest)%string)) s
     = Update (Some (Ok data)) s.
Proof.
  intros Hv.
  assert (Hv' : IsValidQuaternionData (data ++ String comma rest) = true).
  { rewrite shape_test_commas in *. apply andb_prop in Hv.
    destruct Hv as [Hp Hc]. apply andb_true_intro. split.
    - now apply prefix_extend.
    - apply Nat.leb_le in Hc. apply Nat.leb_le.
      rewrite count_char_append. lia. }
  assert (Hc : (4 <= count_char comma data)%nat).
  { rewrite shape_test_commas in Hv. apply andb_prop in Hv.
    now apply Nat.leb_le. }
  split; [exact Hv'|]. split; [now apply decode_first_five|].
  unfold Update, ApplyQuaternion. rewrite Hv, Hv'.
  now rewrite try_first_five.
Qed.

(** What one frame of the game does, by what arrived. *)
Lemma Update_accepted (i : option (result string)) (s : scene)
    (frame : F * F * F * F * F) :
  accepted i = Some frame -> Update i s = applied frame s.
Proof.
  unfold accepted, Update. destruct i as [[data|Message]|]; try discriminate.
  destruct (IsValidQuaternionData data); [|discriminate].
  intros Hd. unfold ApplyQuaternion. now rewrite (try_decoded data s frame Hd).
Qed.

Lemma Update_rejected (i : option (result string)) (s : scene) :
  accepted (F:=F) i = None ->
  targetObject_localRotation (Update i s) = targetObject_localRotation s
  /\ PlungerControl_localPosition (Update i s) = PlungerControl_localPosition s
  /\ exists more, LogError (Update i s) = LogError s ++ more.
Proof.
  unfold accepted, Update. destruct i as [[data|Message]|].
  - destruct (IsValidQuaternionData data).
    + intros Hd. destruct (try_failed data s Hd) as [Message Ht].
      unfold ApplyQuaternion. rewrite Ht.
      split; [reflexivity|]. split; [reflexivity|]. eexists. reflexivity.
    + intros _. split; [reflexivity|]. split; [reflexivity|].
      exists []. now rewrite app_nil_r.
  - intros _. split; [reflexivity|]. split; [reflexivity|].
    eexists. reflexivity.
  - intros _. split; [reflexivity|]. split; [reflexivity|].
    exists []. now rewrite app_nil_r.
Qed.

Lemma Updates_snoc (incoming : list (option (result string)))
    (i : option (result string)) (s : scene) :
  Updates (incoming ++ [i]) s = Update i (Updates incoming s).
Proof. unfold Updates. now rewrite fold_left_app. Qed.

Lemma latest_snoc (incoming : list (option (result string)))
    (i : option (result string)) :
  latest (F:=F) (incoming ++ [i])
  = match accepted i with Some f => Some f | None => latest incoming end.
Proof. unfold latest. now rewrite fold_left_app. Qed.

(** Over the frames of the game: x and y of the plunger never move, the
    log only grows, and rotation and plunger are those of the last line
    accepted. *)
Lemma Updates_state (incoming : list (option (result string))) (s : scene) :
  let s' := Updates incoming s in
  UnityEngine.Vector3.x (PlungerControl_localPosition s')
  = UnityEngine.Vector3.x (PlungerControl_localPosition s)
  /\ UnityEngine.Vector3.y (PlungerControl_localPosition s')
     = UnityEngine.Vector3.y (PlungerControl_localPosition s)
  /\ (exists more, LogError s' = LogError s ++ more)
  /\ match latest (F:=F) incoming with
     | Some frame =>
         targetObject_localRotation s'
         = targetObject_localRotation (applied frame s)
         /\ PlungerControl_localPosition s'
            = PlungerControl_localPosition (applied frame s)
     | None =>
         targetObject_localRotation s' = targetObject_localRotation s
         /\ PlungerControl_localPosition s' = PlungerControl_localPosition s
     end.
Proof.
  induction incoming as [|i incoming IH] using rev_ind.
  - cbn. split; [reflexivity|]. split; [reflexivity|].
    split; [exists []; now rewrite app_nil_r|]. split; reflexivity.
  - cbv zeta in *. rewrite Updates_snoc, latest_snoc.
    destruct IH as (Hx & Hy & [more Hlog] & Hlast).
    destruct (accepted (F:=F) i) as [frame|] eqn:Ha.
    + rewrite (Update_accepted i _ frame Ha).
      destruct frame as [[[[w x] y] z] plungerValue].
      cbn [applied PlungerControl_localPosition targetObject_localRotation
           LogError UnityEngine.Vector3.x UnityEngine.Vector3.y].
      rewrite Hx, Hy.
      split; [reflexivity|]. split; [reflexivity|].
      split; [exists more; exact Hlog|]. split; reflexivity.
    + destruct (Update_rejected i (Updates incoming s) Ha)
        as (Hrot & Hpos & [more' Hlog']).
      rewrite Hrot, Hpos, Hlog', Hlog.
      split; [exact Hx|]. split; [exact Hy|].
      split; [exists (more ++ more'); now rewrite app_assoc|].
      exact Hlast.
Qed.

(** X11. Over any number of frames of the game, whatever arrives on the
    port (nothing, a read failure, any line): x and y of the plunger stay
    what they were, messages are only added to the error log, and rotation
    and plunger are those of the last line that passed the shape test and
    parsed, or the initial ones when there was none.  Lines in between
    leave no trace. *)
Theorem last_accepted_line_shows
    (incoming : list (option (result string))) (s : scene) :
  let s' := Updates incoming s in
  UnityEngine.Vector3.x (PlungerControl_localPosition s')
  = UnityEngine.Vector3.x (PlungerControl_localPosition s)
  /\ UnityEngine.Vector3.y (PlungerControl_localPosition s')
     = UnityEngine.Vector3.y (PlungerControl_localPosition s)
  /\ (exists more, LogError s' = LogError s ++ more)
  /\ match latest (F:=F) incoming with
     | Some frame =>
         targetObject_localRotation s'
         = targetObject_localRotation (applied frame s)
         /\ PlungerControl_localPosition s'
            = PlungerControl_localPosition (applied frame s)
     | None =>
         targetObject_localRotation s' = targetObject_localRotation s
         /\ PlungerControl_localPosition s' = PlungerControl_localPosition s
     end
  /\ (forall before data after frame,
        incoming = before ++ [Some (Ok data)] ++ after ->
        IsValidQuaternionData data = true ->
        decode (F:=F) data = Some frame ->
        Forall (fun i => accepted (F:=F) i = None) after ->
        targetObject_localRotation s'
        = targetObject_localRotation (applied frame s)
        /\ PlungerControl_localPosition s'
           = PlungerControl_localPosition (applied frame s)).
Proof.
  intros s'. pose proof (Updates_state incoming s) as Hs. cbv zeta in Hs.
  fold s' in Hs. destruct Hs as (Hx & Hy & Hlog & Hlast).
  split; [exact Hx|]. split; [exact Hy|]. split; [exact Hlog|].
  split; [exact Hlast|].
  intros before data after frame -> Hv Hd Hafter.
  assert (Hl : latest (F:=F) (before ++ [Some (Ok data)] ++ after) = Some frame).
  { clear -Hv Hd Hafter.
    induction after as [|i after IH] using rev_ind.
    - rewrite app_nil_r, latest_snoc. cbn [accepted]. now rewrite Hv, Hd.
    - apply Forall_app in Hafter. destruct Hafter as [Hafter Hi].
      apply Forall_inv in Hi.
      rewrite !app_assoc, latest_snoc, Hi, <- app_assoc. now apply IH. }
  rewrite Hl in Hlast. exact Hlast.
Qed.

End ControllerMore.

(** *** On exact numbers *)

Section TravelMore.
Context `{CombinedController.FloatParse Q}.

Import CombinedController.

(** X13. The rotation given to the syringe is the quaternion of the frame
    with its axes exchanged and reversed, (x, y, z, w) := (-x, -z, -y, w):
    its squared norm is that of the quaternion received, so a unit
    quaternion on the wire gives a unit rotation, and one that is not stays
    as far from it. *)
Theorem rotation_keeps_norm (data : string) (s : @scene Q)
    (w x y z plungerValue : Q) :
  IsValidQuaternionData data = true ->
  decode data = Some (w, x, y, z, plungerValue) ->
  let q := targetObject_localRotation (Update (Some (Ok data)) s) in
  (UnityEngine.Quaternion.x q == - x
   /\ UnityEngine.Quaternion.y q == - z
   /\ UnityEngine.Quaternion.z q == - y
   /\ UnityEngine.Quaternion.w q == w
   /\ sqrMagnitude q == w * w + x * x + y * y + z * z)%Q.
Proof.
  intros Hv Hd q.
  assert (Hq : q = UnityEngine.Quaternion.mk (fopp x) (fopp z) (fopp y) w).
  { unfold q, Update, ApplyQuaternion.
    rewrite Hv, (try_decoded data s _ Hd). reflexivity. }
  rewrite Hq. unfold sqrMagnitude.
  cbn [UnityEngine.Quaternion.x UnityEngine.Quaternion.y
       UnityEngine.Quaternion.z UnityEngine.Quaternion.w fopp exact].
  rewrite !Qred_correct.
  split; [reflexivity|]. split; [reflexivity|]. split; [reflexivity|].
  split; [reflexivity|]. ring.
Qed.

End TravelMore.

(** ** The cheek firmware, continued *)

Lemma Zsum_perm (l l' : list Z) : Permutation l l' -> Zsum l = Zsum l'.
Proof. induction 1; simpl; lia. Qed.

Lemma Zsum_replicate (n : nat) (v : Z) : Zsum (replicate n v) = Z.of_nat n * v.
Proof. induction n as [|n IH]; [reflexivity|]. cbn [replicate Zsum]. lia. Qed.

Lemma Zsum_app (l l' : list Z) : Zsum (l ++ l') = Zsum l + Zsum l'.
Proof. induction l as [|v l IH]; simpl; lia. Qed.

(** The calibration on integers. *)
Lemma constrain_map_calibrated (val : Z) :
  Cheek.constrain (Cheek.map val 250 100 0 100) 0 100 = calibrated val.
Proof.
  unfold Cheek.constrain, Cheek.map, calibrated.
  change (100 - 250) with (Z.opp 150). change (100 - 0) with 100.
  rewrite Z.add_0_r, Z.quot_opp_r, <- Z.quot_opp_l by lia.
  replace (- ((val - 250) * 100)) with ((250 - val) * 100) by lia.
  destruct (Z.leb_spec 250 val) as [Hhi|Hhi].
  - assert (Hq : Z.quot ((250 - val) * 100) 150 <= 0).
    { replace ((250 - val) * 100) with (- ((val - 250) * 100)) by lia.
      rewrite Z.quot_opp_l by lia.
      assert (0 <= Z.quot ((val - 250) * 100) 150)
        by (apply Z.quot_pos; lia).
      lia. }
    destruct (Z.ltb_spec (Z.quot ((250 - val) * 100) 150) 0); [reflexivity|].
    destruct (Z.ltb_spec 100 (Z.quot ((250 - val) * 100) 150)); lia.
  - rewrite Z.quot_div_nonneg by lia.
    destruct (Z.leb_spec val 100) as [Hlo|Hlo].
    + assert (100 <= (250 - val) * 100 / 150)
        by (apply Z.div_le_lower_bound; lia).
      destruct (Z.ltb_spec ((250 - val) * 100 / 150) 0); [lia|].
      destruct (Z.ltb_spec 100 ((250 - val) * 100 / 150)); lia.
    + assert (0 <= (250 - val) * 100 / 150 < 100).
      { split; [apply Z.div_pos; lia|].
        apply Z.div_lt_upper_bound; lia. }
      destruct (Z.ltb_spec ((250 - val) * 100 / 150) 0); [lia|].
      destruct (Z.ltb_spec 100 ((250 - val) * 100 / 150)); lia.
Qed.

Lemma calibrated_range (val : Z) : 0 <= calibrated val <= 100.
Proof. rewrite <- constrain_map_calibrated. apply constrain_range. lia. Qed.

Lemma calibrated_falls (val val' : Z) :
  val <= val' -> calibrated val' <= calibrated val.
Proof.
  intros Hle. pose proof (calibrated_range val) as Hr.
  pose proof (calibrated_range val') as Hr'. revert Hr Hr'.
  unfold calibrated.
  destruct (Z.leb_spec 250 val'); [lia|].
  destruct (Z.leb_spec 250 val); [lia|].
  destruct (Z.leb_spec val 100); [lia|].
  destruct (Z.leb_spec val' 100); [lia|].
  intros _ _. apply Z.div_le_mono; lia.
Qed.

(** Every value of a twelve-bit converter is a binary32 number, and comes
    back from the conversion to [long]. *)
Lemma adc_checked :
  forallb (fun v => Z.eqb (to_long (of_int v : spec_float)) v) (range 0 4096)
  = true.
Proof. vm_compute. reflexivity. Qed.

Lemma adc_exact (val : Z) :
  0 <= val <= 4095 -> to_long (of_int val : spec_float) = val.
Proof.
  intros Hv. pose proof adc_checked as Hc.
  rewrite forallb_forall in Hc. apply Z.eqb_eq. apply Hc.
  apply in_range. lia.
Qed.

(** X15. What the cheek firmware stores for a reading of the converter
    (0 .. 4095, as a binary32 [val]): 0 from 250 on, 100 up to 100, and
    (250 - val) * 100 / 150 rounded down in between; always on the scale
    0 .. 100, and never larger for a larger reading. *)
Theorem cheek_calibration (val val' : Z) :
  0 <= val <= 4095 -> 0 <= val' <= 4095 ->
  mapped val = calibrated val
  /\ (250 <= val -> mapped val = 0)
  /\ (val <= 100 -> mapped val = 100)
  /\ (100 <= val <= 250 -> mapped val = (250 - val) * 2 / 3)
  /\ 0 <= mapped val <= 100
  /\ (val <= val' -> mapped val' <= mapped val).
Proof.
  intros Hv Hv'.
  assert (Hm : forall v, 0 <= v <= 4095 -> mapped v = calibrated v).
  { intros v Hr. unfold mapped. rewrite adc_exact by exact Hr.
    apply constrain_map_calibrated. }
  rewrite !Hm by assumption.
  split; [reflexivity|]. split; [|split; [|split; [|split]]].
  - intros Hhi. unfold calibrated.
    destruct (Z.leb_spec 250 val); [reflexivity | lia].
  - intros Hlo. unfold calibrated.
    destruct (Z.leb_spec 250 val); [lia|].
    destruct (Z.leb_spec val 100); [reflexivity | lia].
  - intros Hmid. unfold calibrated.
    destruct (Z.leb_spec 250 val) as [Hhi|Hhi].
    + assert (val = 250) by lia. subst val. reflexivity.
    + destruct (Z.leb_spec val 100) as [Hlo|Hlo].
      * assert (val = 100) by lia. subst val. reflexivity.
      * replace ((250 - val) * 100) with ((250 - val) * 2 * 50) by lia.
        change 150 with (3 * 50).
        now rewrite Z.div_mul_cancel_r by lia.
  - apply calibrated_range.
  - apply calibrated_falls.
Qed.

Section CheekWindow.
Context {F : Type} `{FloatOps F} `{FloatPrint F}.

Local Abbreviation state := (@Cheek.state F).
Local Abbreviation stored := (Cheek_stored (F:=F)).

Lemma Cheek_run_snoc (inputs : list Z) (analogRead : Z) :
  Cheek.run (F:=F) (inputs ++ [analogRead])
  = Cheek.loop (Cheek.run inputs) analogRead.
Proof. unfold Cheek.run. now rewrite fold_left_app. Qed.

Lemma Cheek_stored_in_scale (analogRead : Z) : in_scale (stored analogRead).
Proof. unfold Cheek_stored. apply constrain_range. lia. Qed.

(** The slots and the cursor after any cycles. *)
Lemma Cheek_run_state (inputs : list Z) :
  Cheek.readings (Cheek.run (F:=F) inputs) = ring 10 0 (map stored inputs)
  /\ Cheek.readIndex (Cheek.run (F:=F) inputs)
     = Z.of_nat (length inputs mod 10).
Proof.
  induction inputs as [|analogRead inputs [IHr IHi]] using rev_ind.
  - split; [|reflexivity]. cbn [map]. now rewrite ring_nil.
  - rewrite Cheek_run_snoc. split.
    + change (Cheek.readings (Cheek.loop (Cheek.run inputs) analogRead))
        with (store (Cheek.readings (Cheek.run (F:=F) inputs))
                    (Cheek.readIndex (Cheek.run (F:=F) inputs))
                    (stored analogRead)).
      rewrite IHr, IHi. unfold store. rewrite Nat2Z.id.
      rewrite map_app. cbn [map].
      rewrite <- ring_snoc by lia. now rewrite length_map.
    + change (Cheek.readIndex (Cheek.loop (Cheek.run inputs) analogRead))
        with (if Cheek.numSamples <=? Cheek.readIndex (Cheek.run (F:=F) inputs) + 1
              then 0 else Cheek.readIndex (Cheek.run (F:=F) inputs) + 1).
      rewrite IHi, length_app. cbn [length]. unfold Cheek.numSamples.
      rewrite !Nat2Z.inj_mod, Nat2Z.inj_add.
      change (Z.of_nat 10) with 10. change (Z.of_nat 1) with 1.
      destruct (Z.leb_spec 10 (Z.of_nat (length inputs) mod 10 + 1));
        Z.div_mod_to_equations; lia.
Qed.

Lemma Cheek_run_Serial (inputs : list Z) :
  Cheek.Serial (Cheek.run (F:=F) inputs)
  = fold_right String.append EmptyString
      (map (fun l => (l ++ String LF EmptyString)%string) (Cheek_lines inputs)).
Proof.
  induction inputs as [|analogRead inputs IH] using rev_ind; [reflexivity|].
  unfold Cheek_lines. rewrite length_app. cbn [length].
  rewrite Nat.add_1_r, seq_S, !map_app. cbn [map]. rewrite concat_snoc.
  rewrite take_ge by (rewrite length_app; cbn [length]; lia).
  rewrite Cheek_run_snoc at 1.
  change (Cheek.Serial (Cheek.loop (Cheek.run inputs) analogRead))
    with (Cheek.Serial (Cheek.run (F:=F) inputs) ++ "Cheek : "
          ++ printFloat (Cheek.average (Cheek.loop (Cheek.run inputs) analogRead)) 2
          ++ CRLF)%string.
  rewrite IH, Cheek_run_snoc. unfold Cheek_lines.
  f_equal.
  - f_equal. rewrite !map_map. apply map_ext_in. intros c Hc.
    apply in_seq in Hc. rewrite take_app_le by lia. reflexivity.
  - rewrite !append_assoc. reflexivity.
Qed.

(** X16. The ten slots of the cheek firmware after any number of cycles,
    in any arithmetic: they are what writing the calibrated readings one
    by one at a cursor wrapping at ten leaves, the cursor stands at the
    number of cycles modulo ten, every slot is on the scale 0 .. 100;
    before ten cycles the slots not yet written hold 0, and from ten
    cycles on the slots are the last ten readings. *)
Theorem cheek_slots_last_ten (inputs : list Z) :
  let s := Cheek.run (F:=F) inputs in
  let vals := map stored inputs in
  Cheek.readings s = ring 10 0 vals
  /\ Cheek.readIndex s = Z.of_nat (length inputs mod 10)
  /\ length (Cheek.readings s) = 10%nat
  /\ Forall in_scale (Cheek.readings s)
  /\ ((length inputs < 10)%nat ->
      Cheek.readings s = vals ++ replicate (10 - length inputs) 0)
  /\ ((10 <= length inputs)%nat ->
      Permutation (Cheek.readings s) (lastn 10 vals)
      /\ Zsum (Cheek.readings s) = Zsum (lastn 10 vals)).
Proof.
  intros s vals. destruct (Cheek_run_state inputs) as [Hr Hi].
  fold s in Hr, Hi. fold vals in Hr.
  assert (Hlen : length vals = length inputs) by apply length_map.
  split; [exact Hr|]. split; [exact Hi|].
  split; [rewrite Hr; apply ring_length|]. split; [|split].
  - rewrite Hr. apply Forall_forall. intros v Hin.
    apply list_elem_of_In, ring_In in Hin. destruct Hin as [->|Hin].
    + unfold in_scale. lia.
    + unfold vals in Hin. apply in_map_iff in Hin.
      destruct Hin as (a & <- & _). apply Cheek_stored_in_scale.
  - intros Hshort. rewrite Hr, ring_short by lia. now rewrite Hlen.
  - intros Hfull.
    assert (Hp : Permutation (Cheek.readings s) (lastn 10 vals)).
    { rewrite Hr, ring_perm, window_full by lia. reflexivity. }
    split; [exact Hp | now apply Zsum_perm].
Qed.

End CheekWindow.

(** *** The average in binary32 *)

(** A tenth of every total the sketch can hold, and ten times every
    reading divided by ten. *)
Lemma tenth_checked :
  forallb
    (fun t =>
       let a := B32.to_Q (fdiv (B32.of_Z t) (B32.of_Z 10)) in
       Qle_bool 0 a && Qle_bool a 100
       && Qle_bool (Qabs (a - inject_Z t / 10))
                   (inject_Z t / 10 * (1 # 16777216)))
    (range 0 1001)
  = true.
Proof. vm_compute. reflexivity. Qed.

Lemma steady_checked :
  forallb
    (fun v => B32.eqb (fdiv (B32.of_Z (10 * v)) (B32.of_Z 10)) (B32.of_Z v))
    (range 0 101)
  = true.
Proof. vm_compute. reflexivity. Qed.

Section CheekAverage.
Context `{FloatPrint spec_float}.

(** X17. The average the cheek firmware sends is the binary32 quotient of
    the integer sum of its ten slots by ten: a number between 0 and 100,
    within one part in 2^24 of the exact mean of the slots.  Before ten
    cycles the slots not yet written count as 0 in it. *)
Theorem cheek_average_accurate (inputs : list Z) :
  let s := Cheek.run inputs in
  let t := Zsum (Cheek.readings s) in
  let a := B32.to_Q (Cheek.average s) in
  0 <= t <= 1000
  /\ t = Zsum (ring 10 0 (map mapped inputs))
  /\ Cheek.average s = fdiv (B32.of_Z t) (B32.of_Z 10)
  /\ (0 <= a <= 100)%Q
  /\ (Qabs (a - inject_Z t / 10) <= inject_Z t / 10 * (1 # 16777216))%Q.
Proof.
  intros s t a.
  destruct (Cheek_inv_run inputs) as (Hlen & _ & Hscale & Htotal).
  fold s in Hlen, Hscale, Htotal.
  assert (Ht : 0 <= t <= 1000).
  { pose proof (Zsum_bounds _ Hscale) as Hb. rewrite Hlen in Hb.
    unfold t. lia. }
  assert (Ha : Cheek.average s = fdiv (B32.of_Z t) (B32.of_Z 10)).
  { unfold s. rewrite Cheek_average_run. fold s. now rewrite Htotal. }
  split; [exact Ht|]. split.
  { unfold t, s. destruct (Cheek_run_state (F:=spec_float) inputs) as [-> _].
    reflexivity. }
  split; [exact Ha|].
  pose proof tenth_checked as Hc. rewrite forallb_forall in Hc.
  specialize (Hc t (in_range 0 1001 t ltac:(lia))). cbv zeta in Hc.
  rewrite <- Ha in Hc. fold a in Hc.
  apply andb_prop in Hc. destruct Hc as [Hc Herr].
  apply andb_prop in Hc. destruct Hc as [Hlo Hhi].
  apply Qle_bool_iff in Hlo, Hhi, Herr.
  split; [split; assumption | exact Herr].
Qed.

(** X18. When the converter has given the same reading for the last ten
    cycles, the average sent is exactly the calibrated reading: the
    smoothing adds no error of its own. *)
Theorem cheek_steady_reading (inputs : list Z) (analogRead : Z) :
  (10 <= length inputs)%nat ->
  lastn 10 inputs = replicate 10 analogRead ->
  let s := Cheek.run inputs in
  Forall (fun v => v = mapped analogRead) (Cheek.readings s)
  /\ Cheek.total s = B32.of_Z (10 * mapped analogRead)
  /\ Cheek.average s = B32.of_Z (mapped analogRead).
Proof.
  intros Hfull Hsteady s.
  destruct (Cheek_inv_run inputs) as (_ & _ & _ & Htotal).
  fold s in Htotal.
  destruct (Cheek_run_state (F:=spec_float) inputs) as [Hr _]. fold s in Hr.
  assert (Hp : Permutation (Cheek.readings s)
                           (replicate 10 (mapped analogRead))).
  { rewrite Hr, ring_perm, window_full by (rewrite length_map; lia).
    change (Cheek_stored (F:=spec_float)) with mapped.
    rewrite lastn_map, Hsteady. now rewrite <- (fmap_replicate mapped). }
  assert (Hsum : Zsum (Cheek.readings s) = 10 * mapped analogRead).
  { rewrite (Zsum_perm _ _ Hp), Zsum_replicate. reflexivity. }
  split; [|split].
  - apply Forall_forall. intros v Hin.
    apply list_elem_of_In in Hin.
    apply (Permutation_in _ Hp) in Hin.
    apply list_elem_of_In in Hin. now apply elem_of_replicate in Hin.
  - now rewrite Htotal, Hsum.
  - unfold s. rewrite Cheek_average_run. fold s. rewrite Htotal, Hsum.
    assert (Hv : in_scale (mapped analogRead))
      by (apply constrain_range; lia).
    unfold in_scale in Hv.
    pose proof steady_checked as Hc. rewrite forallb_forall in Hc.
    apply B32_eqb_eq. apply Hc. apply in_range. lia.
Qed.

End CheekAverage.

(** *** Its text *)

Section CheekText.
Context {F : Type} `{FloatOps F} `{FloatPrint F}.
Context {G : Type} `{FloatOps G} `{CombinedController.FloatParse G}.

Lemma Updates_not_valid (ls : list string) (s : @CombinedController.scene G) :
  Forall (fun l => CombinedController.IsValidQuaternionData l = false) ls ->
  Updates (map (fun l => Some (CombinedController.Ok l)) ls) s = s.
Proof.
  induction 1 as [|l ls Hl _ IH] using Forall_ind; [reflexivity|].
  unfold Updates in *. cbn [map fold_left].
  unfold CombinedController.Update at 2. rewrite Hl. exact IH.
Qed.

(** X19. The text of the cheek firmware after any cycles is one line
    ["Cheek : "], the average with two digits, carriage return and line
    feed per cycle, and nothing else.  None of its lines passes the shape
    test of the controller: a controller reading this text never moves the
    syringe or the plunger, and logs nothing. *)
Theorem cheek_text_never_applied (inputs : list Z)
    (s : @CombinedController.scene G) :
  (forall v d, count_char LF (printFloat (F:=F) v d) = O) ->
  let lines := CombinedController.Split LF (Cheek.Serial (Cheek.run (F:=F) inputs)) in
  lines = Cheek_lines (F:=F) inputs ++ [EmptyString]
  /\ length (Cheek_lines (F:=F) inputs) = length inputs
  /\ Forall (fun l => CombinedController.IsValidQuaternionData l = false) lines
  /\ Updates (map (fun l => Some (CombinedController.Ok l)) lines) s = s.
Proof.
  intros Hlf lines.
  assert (Hlines : lines = Cheek_lines (F:=F) inputs ++ [EmptyString]).
  { unfold lines. rewrite Cheek_run_Serial. apply Split_lines.
    unfold Cheek_lines. apply Forall_forall. intros l Hl.
    apply list_elem_of_In, in_map_iff in Hl. destruct Hl as (c & <- & _).
    rewrite !count_char_append, Hlf. reflexivity. }
  assert (Hnot : Forall (fun l => CombinedController.IsValidQuaternionData l = false)
                        lines).
  { rewrite Hlines. apply Forall_app. split; [|repeat constructor].
    unfold Cheek_lines. apply Forall_forall. intros l Hl.
    apply list_elem_of_In, in_map_iff in Hl. destruct Hl as (c & <- & _).
    reflexivity. }
  split; [exact Hlines|]. split.
  { unfold Cheek_lines. now rewrite length_map, length_seq. }
  split; [exact Hnot|]. now apply Updates_not_valid.
Qed.

End CheekText.

(** ** The two programs together *)

Section EndToEnd.
Context {F : Type} `{FloatOps F} `{FloatPrint F} `{CombinedController.FloatParse F}.

Import CombinedController.

Lemma latest_rejected (before : list (option (result string))) (ls : list string) :
  Forall (fun l => IsValidQuaternionData l = false) ls ->
  latest (F:=F) (before ++ map (fun l => Some (Ok l)) ls) = latest (F:=F) before.
Proof.
  induction ls as [|l ls IH] using rev_ind; intros Hls.
  - cbn [map]. now rewrite app_nil_r.
  - apply Forall_app in Hls. destruct Hls as [Hls Hl]. apply Forall_inv in Hl.
    rewrite map_app, app_assoc. cbn [map]. rewrite latest_snoc.
    cbn [accepted]. rewrite Hl. now apply IH.
Qed.

(** X20. The sketch and the controller together, for a formatter that sends
    no line feed, comma or colon: when the controller is given, line by
    line, all the text the sketch has sent since its start, and
    [float.Parse] accepts the five numbers of the last frame, the syringe
    and the plunger show that last frame, the averages of the last cycle
    as parsed; the lines of [setup] and the earlier frames leave no
    trace. *)
Theorem scene_shows_last_frame (windowSize : Z)
    (inputs : list (@Sketch.sample F)) (input : @Sketch.sample F)
    (s : @scene F) (w x y z plungerValue : F) :
  (forall (v : F) d, count_char LF (printFloat v d) = O) ->
  (forall (v : F) d, count_char comma (printFloat v d) = O) ->
  (forall (v : F) d, count_char colon (printFloat v d) = O) ->
  let sketch := Sketch.run windowSize true (inputs ++ [input]) in
  let avgQuat := Sketch.averageQuat windowSize sketch in
  let avgSensorValue := Sketch.averageSensor windowSize sketch in
  let lines := Split LF (Sketch.Serial sketch) in
  let s' := Updates (map (fun l => Some (Ok l)) lines) s in
  map (float_Parse (F:=F))
      [printFloat (imu.w avgQuat) 4; printFloat (imu.x avgQuat) 4;
       printFloat (imu.y avgQuat) 4; printFloat (imu.z avgQuat) 4;
       (printFloat avgSensorValue 2 ++ String CR EmptyString)%string]
  = [Ok w; Ok x; Ok y; Ok z; Ok plungerValue] ->
  targetObject_localRotation s'
  = UnityEngine.Quaternion.mk (fopp x) (fopp z) (fopp y) w
  /\ PlungerControl_localPosition s'
     = UnityEngine.Vector3.mk
         (UnityEngine.Vector3.x (PlungerControl_localPosition s))
         (UnityEngine.Vector3.y (PlungerControl_localPosition s))
         (Lerp (fopp (decimal 532 4)) (decimal 93 4) plungerValue).
Proof.
  intros Hlf no_comma no_colon sketch avgQuat avgSensorValue lines s' Hparse.
  cbn [map] in Hparse. injection Hparse as Hw Hx Hy Hz Hv.
  assert (Hd : decode (F:=F) (sent_line avgQuat avgSensorValue)
               = Some (w, x, y, z, plungerValue)).
  { rewrite (sent_line_decode no_comma no_colon).
    now rewrite Hw, Hx, Hy, Hz, Hv. }
  assert (Hlines : lines
                   = ([("Orientation Sensor Test" ++ String CR EmptyString)%string;
                       String CR EmptyString]
                      ++ sent_lines windowSize inputs)
                     ++ [sent_line avgQuat avgSensorValue] ++ [EmptyString]).
  { unfold lines, sketch. rewrite (Serial_lines windowSize _ Hlf).
    rewrite sent_lines_snoc. fold sketch. fold avgQuat. fold avgSensorValue.
    now rewrite <- !app_assoc. }
  assert (Hlatest : latest (F:=F) (map (fun l => Some (Ok l)) lines)
                    = Some (w, x, y, z, plungerValue)).
  { rewrite Hlines, !map_app.
    rewrite app_assoc. rewrite latest_rejected by (repeat constructor).
    cbn [map]. rewrite latest_snoc. cbn [accepted].
    now rewrite sent_line_valid, Hd. }
  pose proof (Updates_state (map (fun l => Some (Ok l)) lines) s) as Hs.
  cbv zeta in Hs. fold s' in Hs. rewrite Hlatest in Hs.
  destruct Hs as (_ & _ & _ & Hrot & Hpos).
  split; [exact Hrot | exact Hpos].
Qed.

End EndToEnd.

(** ** The choice of the serial port *)

Section Ports.
Import PortSelection.

Lemma release_only (name : string) : release name [name] = [].
Proof. cbn [release]. now rewrite String.eqb_refl. Qed.

(** What holds between events: the only port the operating system has
    open for the script is the one [serialPort] refers to. *)
Lemma CloseSerialPort_held (c : controller) :
  held c = open_port c ->
  held (CloseSerialPort c) = []
  /\ open_port (CloseSerialPort c) = []
  /\ connected (CloseSerialPort c) = false.
Proof.
  unfold open_port, CloseSerialPort, connected.
  destruct (serialPort c) as [port|] eqn:Hp.
  - destruct (IsOpen port) eqn:Ho; intros Hh.
    + cbn [held serialPort IsOpen]. rewrite Hh, release_only.
      repeat split; reflexivity.
    + rewrite Hp, Ho. repeat split; assumption || reflexivity.
  - intros Hh. rewrite Hp. repeat split; assumption || reflexivity.
Qed.

Lemma ConnectToSerialPort_held (portName : string) (os : attempt)
    (c : controller) :
  held c = open_port c ->
  held (ConnectToSerialPort portName os c)
  = open_port (ConnectToSerialPort portName os c).
Proof.
  intros Hh. destruct (CloseSerialPort_held c Hh) as (Hheld & Hopen & Hconn).
  unfold ConnectToSerialPort. destruct os; cbn [held open_port serialPort IsOpen PortName].
  - now rewrite Hheld.
  - exact Hheld.
  - rewrite Hheld. symmetry. exact Hopen.
Qed.

Lemma handle_held (c : controller) (e : event) :
  held c = open_port c -> held (handle c e) = open_port (handle c e).
Proof.
  intros Hh. destruct e as [value os|]; cbn [handle].
  - unfold DropdownValueChanged.
    destruct (if value <? 0 then None else dropdown_options c !! Z.to_nat value)
      as [selectedPort|]; [|exact Hh].
    destruct (String.eqb selectedPort "Select Syringe").
    + destruct (CloseSerialPort_held c Hh) as (-> & -> & _). reflexivity.
    + destruct (negb (String.eqb selectedPort "No Device")).
      * now apply ConnectToSerialPort_held.
      * destruct (CloseSerialPort_held c Hh) as (-> & -> & _). reflexivity.
  - unfold OnDestroy.
    destruct (CloseSerialPort_held c Hh) as (-> & -> & _). reflexivity.
Qed.

Lemma session_snoc (names : list string) (events : list event) (e : event) :
  session names (events ++ [e]) = handle (session names events) e.
Proof. unfold session. now rewrite fold_left_app. Qed.

Lemma session_held (names : list string) (events : list event) :
  held (session names events) = open_port (session names events).
Proof.
  induction events as [|e events IH] using rev_ind; [reflexivity|].
  rewrite session_snoc. now apply handle_held.
Qed.

Lemma handle_options (c : controller) (e : event) :
  dropdown_options (handle c e) = dropdown_options c.
Proof.
  destruct e as [value os|]; cbn [handle].
  - unfold DropdownValueChanged.
    destruct (if value <? 0 then None else dropdown_options c !! Z.to_nat value)
      as [selectedPort|]; [|reflexivity].
    unfold ConnectToSerialPort, CloseSerialPort.
    destruct (String.eqb selectedPort "Select Syringe");
      [|destruct (negb (String.eqb selectedPort "No Device")); [destruct os|]];
      destruct (serialPort c) as [port|]; try reflexivity;
      destruct (IsOpen port); reflexivity.
  - unfold OnDestroy, CloseSerialPort.
    destruct (serialPort c) as [port|]; [|reflexivity].
    destruct (IsOpen port); reflexivity.
Qed.

Lemma session_options (names : list string) (events : list event) :
  dropdown_options (session names events) = "Select Syringe"%string :: names.
Proof.
  induction events as [|e events IH] using rev_ind; [reflexivity|].
  now rewrite session_snoc, handle_options.
Qed.

(** X21. The dropdown always starts with the entry ["Select Syringe"]
    followed by the names the system reports: its list is never empty, so
    the entry ["No Device"] is never added by the script, and appears only
    if a port bears that name.  The entry at a position after the first is
    the name of a port, and choosing it connects to that port. *)
Theorem no_device_never_added (GetPortNames : list string) (c : controller) :
  let c' := PopulateDropdownWithSerialPorts GetPortNames c in
  dropdown_options c' = "Select Syringe"%string :: GetPortNames
  /\ dropdown_options c' <> []
  /\ (In "No Device"%string (dropdown_options c')
      <-> In "No Device"%string GetPortNames)
  /\ (forall events i name os,
        GetPortNames !! i = Some name ->
        name <> "Select Syringe"%string -> name <> "No Device"%string ->
        DropdownValueChanged (Z.of_nat (S i)) os (session GetPortNames events)
        = CombinedController.Ok
            (ConnectToSerialPort name os (session GetPortNames events))).
Proof.
  intros c'.
  assert (Ho : dropdown_options c' = "Select Syringe"%string :: GetPortNames)
    by reflexivity.
  split; [exact Ho|]. split; [rewrite Ho; discriminate|]. split.
  - rewrite Ho. cbn [In]. split; [|now right].
    intros [Hd|Hin]; [discriminate | exact Hin].
  - intros events i name os Hi Hs Hn. unfold DropdownValueChanged.
    rewrite session_options.
    destruct (Z.ltb_spec (Z.of_nat (S i)) 0) as [Hneg|_]; [lia|].
    rewrite Nat2Z.id.
    change (("Select Syringe"%string :: GetPortNames) !! S i)
      with (GetPortNames !! i).
    rewrite Hi.
    apply String.eqb_neq in Hs, Hn. rewrite Hs, Hn. reflexivity.
Qed.

Lemma count_occ_snoc (l : list string) (x y : string) :
  count_occ string_dec (l ++ [x]) y
  = (count_occ string_dec l y + (if string_dec x y then 1 else 0))%nat.
Proof. rewrite count_occ_app. cbn [count_occ]. destruct (string_dec x y); lia. Qed.

Local Ltac compare_messages :=
  unfold opened_message, closed_message in *;
  repeat match goal with
         | |- context [string_dec ?a ?b] =>
             destruct (string_dec a b); try discriminate; try congruence
         end.

Lemma CloseSerialPort_log (c : controller) :
  (count_occ string_dec (Debug_Log (CloseSerialPort c)) opened_message
   = count_occ string_dec (Debug_Log c) opened_message)
  /\ (count_occ string_dec (Debug_Log (CloseSerialPort c)) closed_message
      = count_occ string_dec (Debug_Log c) closed_message
        + length (open_port c))%nat.
Proof.
  unfold CloseSerialPort, open_port.
  destruct (serialPort c) as [port|]; [|cbn [length]; split; lia].
  destruct (IsOpen port); [|cbn [length]; split; lia].
  cbn [Debug_Log length]. rewrite !count_occ_snoc.
  split; compare_messages; lia.
Qed.

Lemma open_port_serialPort (c c' : controller) :
  serialPort c = serialPort c' -> open_port c = open_port c'.
Proof. unfold open_port. now intros ->. Qed.

Lemma handle_log (c : controller) (e : event) :
  held c = open_port c ->
  (count_occ string_dec (Debug_Log c) opened_message
   = count_occ string_dec (Debug_Log c) closed_message + length (open_port c))%nat ->
  (count_occ string_dec (Debug_Log (handle c e)) opened_message
   = count_occ string_dec (Debug_Log (handle c e)) closed_message
     + length (open_port (handle c e)))%nat.
Proof.
  intros Hh Hc.
  destruct (CloseSerialPort_log c) as [Ho Hcl].
  destruct (CloseSerialPort_held c Hh) as (_ & Hopen & _).
  assert (Hclose :
    (count_occ string_dec (Debug_Log (CloseSerialPort c)) opened_message
     = count_occ string_dec (Debug_Log (CloseSerialPort c)) closed_message
       + length (open_port (CloseSerialPort c)))%nat).
  { rewrite Ho, Hcl, Hopen. cbn [length]. lia. }
  assert (Hconnect : forall name os,
    (count_occ string_dec (Debug_Log (ConnectToSerialPort name os c)) opened_message
     = count_occ string_dec (Debug_Log (ConnectToSerialPort name os c)) closed_message
       + length (open_port (ConnectToSerialPort name os c)))%nat).
  { intros name os. unfold ConnectToSerialPort.
    destruct os.
    - cbn [Debug_Log open_port serialPort IsOpen PortName length].
      rewrite !count_occ_snoc, Ho, Hcl. compare_messages. lia.
    - cbn [Debug_Log open_port serialPort IsOpen PortName length].
      rewrite Ho, Hcl. lia.
    - rewrite (open_port_serialPort _ (CloseSerialPort c)) by reflexivity.
      cbn [Debug_Log]. exact Hclose. }
  destruct e as [value os|]; cbn [handle]; [|exact Hclose].
  unfold DropdownValueChanged.
  destruct (if value <? 0 then None else dropdown_options c !! Z.to_nat value)
    as [selectedPort|]; [|exact Hc].
  destruct (String.eqb selectedPort "Select Syringe"); [exact Hclose|].
  destruct (negb (String.eqb selectedPort "No Device"));
    [apply Hconnect | exact Hclose].
Qed.

(** X22. Through any choices of the user and any answers of the system,
    the script has at most one port open, and it is the one [serialPort]
    refers to: no port is left open behind when the reference changes.  The
    log tells it: the messages of opening outnumber those of closing by one
    while a port is open and are as many when none is. *)
Theorem one_port_never_orphaned (GetPortNames : list string)
    (events : list event) :
  let c := session GetPortNames events in
  held c = open_port c
  /\ (length (held c) <= 1)%nat
  /\ (connected c = true <-> exists name, held c = [name])
  /\ (count_occ string_dec (Debug_Log c) opened_message
      = count_occ string_dec (Debug_Log c) closed_message
        + length (held c))%nat.
Proof.
  intros c. pose proof (session_held GetPortNames events) as Hh. fold c in Hh.
  split; [exact Hh|]. split; [|split].
  - rewrite Hh. unfold open_port.
    destruct (serialPort c) as [port|]; [destruct (IsOpen port)|]; cbn; lia.
  - rewrite Hh. unfold open_port, connected.
    destruct (serialPort c) as [port|]; [destruct (IsOpen port)|].
    + split; [eexists; reflexivity | reflexivity].
    + split; [discriminate | intros [name Hn]; discriminate].
    + split; [discriminate | intros [name Hn]; discriminate].
  - rewrite Hh. unfold c. clear c Hh.
    induction events as [|e events IH] using rev_ind; [reflexivity|].
    rewrite session_snoc. apply handle_log; [apply session_held | exact IH].
Qed.

Lemma connected_serialPort (c c' : controller) :
  serialPort c = serialPort c' -> connected c = connected c'.
Proof. unfold connected. now intros ->. Qed.

Lemma CloseSerialPort_twice (c : controller) :
  CloseSerialPort (CloseSerialPort c) = CloseSerialPort c.
Proof.
  unfold CloseSerialPort at 2 3.
  destruct (serialPort c) as [port|] eqn:Hp.
  - destruct (IsOpen port) eqn:Ho; [reflexivity|].
    unfold CloseSerialPort. now rewrite Hp, Ho.
  - unfold CloseSerialPort. now rewrite Hp.
Qed.

(** X23. Choosing the first entry of the dropdown, or destroying the
    object, leaves no port open, whatever was chosen before and whatever
    the system answered; from then on [Update] changes nothing in the
    scene, whatever waits on the wire.  Closing a second time does
    nothing. *)
Theorem placeholder_disconnects {F} `{FloatOps F}
    `{CombinedController.FloatParse F}
    (GetPortNames : list string) (events : list event) (os : attempt)
    (e : event) (wire : option (CombinedController.result string))
    (s : @CombinedController.scene F) :
  e = Selected 0 os \/ e = Destroyed ->
  let c := session GetPortNames events in
  let c' := handle c e in
  c' = CloseSerialPort c
  /\ connected c' = false
  /\ held c' = []
  /\ Update c' wire s = s
  /\ handle c' e = c'
  /\ (connected c = true ->
      Debug_Log c' = Debug_Log c ++ [closed_message])
  /\ (connected c = false -> c' = c).
Proof.
  intros He c c'.
  assert (Hc' : c' = CloseSerialPort c).
  { unfold c'. destruct He as [->| ->]; [|reflexivity].
    cbn [handle]. unfold DropdownValueChanged.
    unfold c. rewrite session_options. reflexivity. }
  assert (Hagain : handle c' e = CloseSerialPort c').
  { destruct He as [->| ->]; [|reflexivity].
    cbn [handle]. unfold DropdownValueChanged.
    unfold c', c. rewrite handle_options, session_options. reflexivity. }
  destruct (CloseSerialPort_held c (session_held GetPortNames events))
    as (Hheld & _ & Hconn).
  split; [exact Hc'|]. rewrite Hagain, Hc'.
  split; [exact Hconn|]. split; [exact Hheld|]. split; [|split; [|split]].
  - unfold Update. now rewrite Hconn.
  - apply CloseSerialPort_twice.
  - unfold connected, CloseSerialPort.
    destruct (serialPort c) as [port|]; [|discriminate].
    now intros ->.
  - unfold connected, CloseSerialPort.
    destruct (serialPort c) as [port|]; [|reflexivity].
    now intros ->.
Qed.

(** X24. An attempt to connect first closes the port that was open, and
    this whatever comes of the attempt.  When it succeeds, the port open
    is the one asked for and no error is logged.  When the constructor or
    [Open()] throws, one error is logged, no port is open (the connection
    there was is lost), and [Update] changes nothing in the scene. *)
Theorem connect_outcomes {F} `{FloatOps F} `{CombinedController.FloatParse F}
    (GetPortNames : list string) (events : list event)
    (portName : string) (os : attempt)
    (wire : option (CombinedController.result string))
    (s : @CombinedController.scene F) :
  let c := session GetPortNames events in
  let c' := ConnectToSerialPort portName os c in
  (connected c = true ->
   exists more, Debug_Log c' = Debug_Log c ++ closed_message :: more)
  /\ match os with
     | Opens =>
         connected c' = true
         /\ held c' = [portName]
         /\ serialPort c'
            = Some {| PortName := portName; BaudRate := 115200; IsOpen := true |}
         /\ Debug_LogError c' = Debug_LogError c
         /\ Update c' wire s = CombinedController.Update wire s
     | Open_throws Message | new_throws Message =>
         connected c' = false
         /\ held c' = []
         /\ Debug_LogError c'
            = Debug_LogError c
              ++ [("Failed to open serial port: " ++ Message)%string]
         /\ Update c' wire s = s
     end.
Proof.
  intros c c'.
  destruct (CloseSerialPort_held c (session_held GetPortNames events))
    as (Hheld & _ & Hconn).
  assert (Herr : Debug_LogError (CloseSerialPort c) = Debug_LogError c).
  { unfold CloseSerialPort. destruct (serialPort c) as [port|]; [|reflexivity].
    destruct (IsOpen port); reflexivity. }
  split.
  - intros Hopen.
    assert (Hlog : Debug_Log (CloseSerialPort c) = Debug_Log c ++ [closed_message]).
    { revert Hopen. unfold connected, CloseSerialPort.
      destruct (serialPort c) as [port|]; [|discriminate]. now intros ->. }
    unfold c', ConnectToSerialPort. destruct os; cbn [Debug_Log]; rewrite Hlog.
    + rewrite <- app_assoc. eexists. reflexivity.
    + exists []. reflexivity.
    + exists []. reflexivity.
  - unfold c', ConnectToSerialPort, Update.
    destruct os as [|Message|Message].
    + cbn [connected serialPort IsOpen held Debug_LogError].
      rewrite Hheld, Herr. repeat split; reflexivity.
    + cbn [connected serialPort IsOpen held Debug_LogError].
      rewrite Hheld, Herr. repeat split; reflexivity.
    + rewrite (connected_serialPort _ (CloseSerialPort c)) by reflexivity.
      cbn [held Debug_LogError].
      rewrite Hconn, Hheld, Herr. repeat split; reflexivity.
Qed.

End Ports.

(** ** The properties above on concrete inputs *)

Lemma orientation_average_last_window_witness :
  let s := Sketch.run 3 true four_cycles in
  let recent := lastn (Z.to_nat 3) (Sketch.quats four_cycles) in
  let r := (length four_cycles mod Z.to_nat 3)%nat in
  let slots := drop (Z.to_nat 3 - r) recent ++ take (Z.to_nat 3 - r) recent in
  let component (c : imu.Quaternion Q -> Q) :=
    fdiv (fold_left fadd (map c slots) (of_int 0)) (of_int 3) in
  Sketch.quatBuffer s = slots
  /\ Permutation (Sketch.quatBuffer s) recent
  /\ Sketch.averageQuat 3 s
     = imu.mk (component imu.w) (component imu.x)
              (component imu.y) (component imu.z)
  /\ ((forall a b c : Q, fadd (fadd a b) c = fadd a (fadd b c)) ->
      (forall a b : Q, fadd a b = fadd b a) ->
      Sketch.averageQuat 3 s
      = imu.mk (Sketch.mean (map imu.w recent)) (Sketch.mean (map imu.x recent))
               (Sketch.mean (map imu.y recent)) (Sketch.mean (map imu.z recent))).
Proof.
  apply (orientation_average_last_window 3 four_cycles).
  - lia.
  - simpl. lia.
Defined.

Lemma slots_captured_together_witness :
  let s := Sketch.run 3 true four_cycles in
  combine (Sketch.quatBuffer s) (Sketch.sensorValueBuffer s)
  = ring (Z.to_nat 3) (Sketch.identity, (of_int 0 : Q)) (map captured four_cycles)
  /\ (forall i q v,
        Sketch.quatBuffer s !! i = Some q ->
        Sketch.sensorValueBuffer s !! i = Some v ->
        (q = Sketch.identity /\ v = (of_int 0 : Q))
        \/ exists input, In input four_cycles /\ q = fst input
                         /\ v = Sketch.normalize (snd input)).
Proof.
  apply (slots_captured_together 3 four_cycles). lia.
Defined.

Lemma scalar_average_in_unit_interval_witness :
  let s := Sketch.run 3 true four_cycles in
  Forall (fun v => 0 <= v <= 1)%Q (Sketch.sensorValueBuffer s)
  /\ (0 <= Sketch.averageSensor 3 s <= 1)%Q.
Proof.
  apply (scalar_average_in_unit_interval 3 four_cycles).
  - lia.
  - repeat constructor; simpl; lia.
Defined.

Lemma serial_text_line_by_line_witness :
  let heading := ("Orientation Sensor Test" ++ String CR EmptyString)%string in
  let blank := String CR EmptyString in
  CombinedController.Split LF (Sketch.Serial (Sketch.run 3 true four_cycles))
  = [heading; blank] ++ sent_lines 3 four_cycles ++ [EmptyString]
  /\ Forall (fun l => CombinedController.IsValidQuaternionData l = true)
            (sent_lines 3 four_cycles)
  /\ length (sent_lines 3 four_cycles) = length four_cycles
  /\ Forall (fun l => CombinedController.IsValidQuaternionData l = false)
            [heading; blank; EmptyString].
Proof.
  apply (serial_text_line_by_line 3 four_cycles).
  intros v d. apply printFloat_without. reflexivity.
Defined.

Lemma frame_fields_reach_parser_witness :
  let line := sent_line unit_w (1 # 2)%Q in
  let s' := CombinedController.Update (Some (CombinedController.Ok line)) at_rest in
  let texts :=
    [printFloat (imu.w unit_w) 4; printFloat (imu.x unit_w) 4;
     printFloat (imu.y unit_w) 4; printFloat (imu.z unit_w) 4;
     (printFloat (1 # 2)%Q 2 ++ String CR EmptyString)%string] in
  CombinedController.Split CombinedController.comma line
  = [("Quat W:" ++ printFloat (imu.w unit_w) 4)%string;
     (" X:" ++ printFloat (imu.x unit_w) 4)%string;
     (" Y:" ++ printFloat (imu.y unit_w) 4)%string;
     (" Z:" ++ printFloat (imu.z unit_w) 4)%string;
     (printFloat (1 # 2)%Q 2 ++ String CR EmptyString)%string]
  /\ (forall w x y z plungerValue,
        map (CombinedController.float_Parse (F:=Q)) texts
        = [CombinedController.Ok w; CombinedController.Ok x;
           CombinedController.Ok y; CombinedController.Ok z;
           CombinedController.Ok plungerValue] ->
        s' = CombinedController.applied (w, x, y, z, plungerValue) at_rest)
  /\ (forall text Message,
        In text texts ->
        CombinedController.float_Parse (F:=Q) text
        = CombinedController.Throw Message ->
        CombinedController.targetObject_localRotation s'
        = CombinedController.targetObject_localRotation at_rest
        /\ CombinedController.PlungerControl_localPosition s'
           = CombinedController.PlungerControl_localPosition at_rest
        /\ length (CombinedController.LogError s')
           = S (length (CombinedController.LogError at_rest))).
Proof.
  apply (frame_fields_reach_parser (F:=Q)).
  - intros v d. apply printFloat_without. reflexivity.
  - intros v d. apply printFloat_without. reflexivity.
Defined.

Lemma trailing_fields_ignored_witness :
  CombinedController.IsValidQuaternionData
    (good_line ++ String CombinedController.comma "9,9") = true
  /\ CombinedController.decode (F:=Q)
       (good_line ++ String CombinedController.comma "9,9")
     = CombinedController.decode (F:=Q) good_line
  /\ CombinedController.Update
       (Some (CombinedController.Ok
                (good_line ++ String CombinedController.comma "9,9")%string))
       at_rest
     = CombinedController.Update (Some (CombinedController.Ok good_line)) at_rest.
Proof.
  apply (trailing_fields_ignored (F:=Q) good_line "9,9" at_rest).
  reflexivity.
Defined.

Lemma rotation_keeps_norm_witness :
  let q :=
    CombinedController.targetObject_localRotation
      (CombinedController.Update (Some (CombinedController.Ok good_line)) at_rest) in
  (UnityEngine.Quaternion.x q == - (1 # 4)
   /\ UnityEngine.Quaternion.y q == - 0
   /\ UnityEngine.Quaternion.z q == - (-1 # 10)
   /\ UnityEngine.Quaternion.w q == 1 # 2
   /\ sqrMagnitude q
      == (1 # 2) * (1 # 2) + (1 # 4) * (1 # 4) + (-1 # 10) * (-1 # 10) + 0 * 0)%Q.
Proof.
  apply (rotation_keeps_norm good_line at_rest
           (1 # 2) (1 # 4) (-1 # 10) 0 (3 # 4)).
  - reflexivity.
  - vm_compute. reflexivity.
Defined.

Lemma cheek_calibration_witness :
  mapped 175 = calibrated 175
  /\ (250 <= 175 -> mapped 175 = 0)
  /\ (175 <= 100 -> mapped 175 = 100)
  /\ (100 <= 175 <= 250 -> mapped 175 = (250 - 175) * 2 / 3)
  /\ 0 <= mapped 175 <= 100
  /\ (175 <= 300 -> mapped 300 <= mapped 175).
Proof.
  apply (cheek_calibration 175 300); lia.
Defined.

Lemma cheek_steady_reading_witness :
  let s := Cheek.run (H0 := no_text) cheek_settled in
  Forall (fun v => v = mapped 175) (Cheek.readings s)
  /\ Cheek.total s = B32.of_Z (10 * mapped 175)
  /\ Cheek.average s = B32.of_Z (mapped 175).
Proof.
  apply (cheek_steady_reading (H := no_text) cheek_settled 175).
  - simpl. lia.
  - reflexivity.
Defined.

Lemma cheek_text_never_applied_witness :
  let lines :=
    CombinedController.Split LF
      (Cheek.Serial (Cheek.run (F:=Q) cheek_settled)) in
  lines = Cheek_lines (F:=Q) cheek_settled ++ [EmptyString]
  /\ length (Cheek_lines (F:=Q) cheek_settled) = length cheek_settled
  /\ Forall (fun l => CombinedController.IsValidQuaternionData l = false) lines
  /\ Updates (map (fun l => Some (CombinedController.Ok l)) lines) at_rest
     = at_rest.
Proof.
  apply (cheek_text_never_applied (F:=Q) (G:=Q) cheek_settled at_rest).
  intros v d. apply printFloat_without. reflexivity.
Defined.

Lemma placeholder_disconnects_witness :
  let c :=
    PortSelection.session ["COM3"%string]
      [PortSelection.Selected 1 PortSelection.Opens] in
  let c' := PortSelection.handle c PortSelection.Destroyed in
  c' = PortSelection.CloseSerialPort c
  /\ PortSelection.connected c' = false
  /\ PortSelection.held c' = []
  /\ PortSelection.Update c' (Some (CombinedController.Ok good_line)) at_rest
     = at_rest
  /\ PortSelection.handle c' PortSelection.Destroyed = c'
  /\ (PortSelection.connected c = true ->
      PortSelection.Debug_Log c'
      = PortSelection.Debug_Log c ++ [PortSelection.closed_message])
  /\ (PortSelection.connected c = false -> c' = c).
Proof.
  apply (placeholder_disconnects (F:=Q) ["COM3"%string]
           [PortSelection.Selected 1 PortSelection.Opens]
           PortSelection.Opens PortSelection.Destroyed
           (Some (CombinedController.Ok good_line)) at_rest).
  right. reflexivity.
Defined.

Lemma scene_shows_last_frame_witness :
  let sketch := Sketch.run 3 true (take 3 four_cycles ++ [(unit_x, 2457)]) in
  let avgQuat := Sketch.averageQuat 3 sketch in
  let avgSensorValue := Sketch.averageSensor 3 sketch in
  let lines := CombinedController.Split LF (Sketch.Serial sketch) in
  let s' := Updates (map (fun l => Some (CombinedController.Ok l)) lines) at_rest in
  CombinedController.targetObject_localRotation s'
  = UnityEngine.Quaternion.mk (fopp (6667 # 10000)%Q) (fopp 0%Q) (fopp 0%Q)
      (3333 # 10000)%Q
  /\ CombinedController.PlungerControl_localPosition s'
     = UnityEngine.Vector3.mk
         (UnityEngine.Vector3.x
            (CombinedController.PlungerControl_localPosition at_rest))
         (UnityEngine.Vector3.y
            (CombinedController.PlungerControl_localPosition at_rest))
         (CombinedController.Lerp (fopp (decimal 532 4)) (decimal 93 4)
            (3 # 5)%Q).
Proof.
  apply (scene_shows_last_frame (F:=Q) 3 (take 3 four_cycles) (unit_x, 2457)
           at_rest (3333 # 10000)%Q (6667 # 10000)%Q 0%Q 0%Q (3 # 5)%Q).
  - intros v d. apply printFloat_without. reflexivity.
  - intros v d. apply printFloat_without. reflexivity.
  - intros v d. apply printFloat_without. reflexivity.
  - vm_compute. reflexivity.
Defined.

Lemma normalize_binary32_witness :
  let v := Sketch.normalize (F:=spec_float) 819 in
  is_number v = true
  /\ (0 <= B32.to_Q v <= 1)%Q
  /\ (Qabs (B32.to_Q v - (1 - inject_Z 819 / 4095)) <= 1 # 16777216)%Q
  /\ Sketch.normalize (F:=spec_float) 0 = B32.of_Z 1
  /\ Sketch.normalize (F:=spec_float) 4095 = B32.of_Z 0
  /\ (819 <= 2457 ->
      (B32.to_Q (Sketch.normalize (F:=spec_float) 2457) <= B32.to_Q v)%Q).
Proof.
  apply (normalize_binary32 819 2457); lia.
Defined.

(** Ten equal readings of 819 average to the binary32 number next above
    the one stored. *)
Example steady_average_off_by_one :
  let v := Sketch.normalize (F:=spec_float) 819 in
  v = S754_finite false 13421773 (-24)
  /\ fdiv (fold_left fadd (replicate 10 v) (of_int 0)) (of_int 10)
     = S754_finite false 13421774 (-24).
Proof. vm_compute. split; reflexivity. Qed.

Lemma steady_reading_binary32_witness :
  let s := Sketch.run (H0 := no_text) 10 true settled32 in
  let v := Sketch.normalize (F:=spec_float) 819 in
  let a := Sketch.averageSensor 10 s in
  Sketch.quatBuffer s = replicate 10 unit_x32
  /\ Sketch.sensorValueBuffer s = replicate 10 v
  /\ a = fdiv (fold_left fadd (replicate 10 v) (of_int 0)) (of_int 10)
  /\ is_number a = true
  /\ (0 <= B32.to_Q a <= 1)%Q
  /\ (Qabs (B32.to_Q a - B32.to_Q v) <= 1 # 8388608)%Q.
Proof.
  apply (steady_reading_binary32 (H := no_text) settled32 unit_x32 819).
  - simpl. lia.
  - reflexivity.
  - lia.
Defined.
